(** * The SPOOK constraint solver of cannon.js ([src/solver/Solver.js])

    A shallow embedding of [CANNON.Solver]: the constructor, [reset],
    [addConstraint], [addNonPenetrationConstraint] and [solve], followed by
    the properties of the solver that the specification states.

    JavaScript numbers are IEEE 754 binary64 values; they are modelled by the
    executable [spec_float] of the Standard Library, instantiated at
    precision 53 and maximal exponent 1024.  A [Float32Array] cell holds a
    binary32 value: storing rounds to nearest-even ([fround]), reading widens
    exactly.  Plain arrays hold arbitrary JavaScript values ([jsval]); a read
    out of range gives [undefined], which arithmetic coerces to NaN. *)

From Stdlib Require Import ZArith List String Bool Lia.
From Stdlib Require Import Floats.SpecFloat.
From stdpp Require Import base list.

Local Open Scope nat_scope.

(** ** JavaScript numbers *)

Definition float : Type := spec_float.

Definition nan : float := S754_nan.
Definition pzero : float := S754_zero false.
Definition nzero : float := S754_zero true.
Definition pinf : float := S754_infinity false.
Definition ninf : float := S754_infinity true.

Definition fadd : float -> float -> float := SFadd 53 1024.
Definition fsub : float -> float -> float := SFsub 53 1024.
Definition fmul : float -> float -> float := SFmul 53 1024.
Definition fdiv : float -> float -> float := SFdiv 53 1024.
Definition fneg : float -> float := SFopp.
Definition flt : float -> float -> bool := SFltb.
Definition fle : float -> float -> bool := SFleb.

(** The number denoted by an integer literal. *)
Definition of_Z (z : Z) : float := binary_normalize 53 1024 z 0 false.

(** The number [m * 2^e], for literals that are dyadic fractions. *)
Definition of_dyadic (m e : Z) : float := binary_normalize 53 1024 m e false.

Declare Scope js_scope.
Delimit Scope js_scope with js.
Bind Scope js_scope with float.
Notation "x + y" := (fadd x y) : js_scope.
Notation "x - y" := (fsub x y) : js_scope.
Notation "x * y" := (fmul x y) : js_scope.
Notation "x / y" := (fdiv x y) : js_scope.
Notation "- x" := (fneg x) : js_scope.
Notation "x <? y" := (flt x y) : js_scope.
Notation "x >? y" := (flt y x) : js_scope.

(** Rounding of a number to binary32 and back, as a store into a
    [Float32Array] followed by a read does. *)
Definition fround (v : float) : float :=
  match v with
  | S754_finite s m e =>
      match binary_round 24 128 s m e with
      | S754_finite s' m' e' => binary_round 53 1024 s' m' e'
      | r => r
      end
  | _ => v
  end.

(** [ToInt16], the conversion a store into an [Int16Array] applies. *)
Definition ToInt16 (v : Z) : Z := ((v + 32768) mod 65536 - 32768)%Z.

Definition is_nan (v : float) : bool :=
  match v with S754_nan => true | _ => false end.

Definition is_finite (v : float) : bool :=
  match v with S754_zero _ | S754_finite _ _ _ => true | _ => false end.

Definition is_zero (v : float) : bool :=
  match v with S754_zero _ => true | _ => false end.

(** Numbers that a binary32 cell holds unchanged. *)
Definition is_float32 (v : float) : Prop := fround v = v.

(** Equality of numbers up to the sign of zero. *)
Definition same_number (v w : float) : Prop :=
  v = w \/ (is_zero v = true /\ is_zero w = true).

(** ** JavaScript values held by the solver's plain arrays *)

Inductive jsval : Type :=
| VUndef
| VNum (v : float)
| VStr (s : string).

(** The host's [StringToNumber]; the solver only needs it to coerce a bound
    that was passed as a string. *)
Class StringCoercion : Type := { StringToNumber : string -> float }.

Section Coercions.
Context `{StringCoercion}.

Definition ToNumber (v : jsval) : float :=
  match v with
  | VUndef => nan
  | VNum f => f
  | VStr s => StringToNumber s
  end.

(** The global function [isNaN]. *)
Definition isNaN (v : jsval) : bool := is_nan (ToNumber v).

End Coercions.

(** Read of a plain array: [undefined] when out of range. *)
Definition arr_get (a : list jsval) (i : nat) : jsval := default VUndef (a !! i).

(** Read of a flag array in a condition: [undefined] is falsy. *)
Definition flag_get (a : list bool) (i : nat) : bool := default false (a !! i).

(** An array object is truthy whatever it holds. *)
Definition array_truthy {A : Type} (a : list A) : bool := true.

(** Read of a [Float32Array] cell inside an arithmetic expression:
    [undefined] out of range, hence NaN. *)
Definition f32_get (a : list float) (i : nat) : float := default nan (a !! i).

(** Store into a [Float32Array] cell: rounded; ignored out of range. *)
Definition f32_set (a : list float) (i : nat) (v : float) : list float :=
  <[ i := fround v ]> a.

(** A body index read from [this.i] or [this.j]: [None] stands for
    [undefined]. *)
Definition body_get (a : list float) (b : option Z) : float :=
  match b with
  | Some z => if (0 <=? z)%Z then f32_get a (Z.to_nat z) else nan
  | None => nan
  end.

Definition body_set (a : list float) (b : option Z) (v : float) : list float :=
  match b with
  | Some z => if (0 <=? z)%Z then f32_set a (Z.to_nat z) v else a
  | None => a
  end.

(** The compound assignment [a[b] += t]. *)
Definition body_add (a : list float) (b : option Z) (t : float) : list float :=
  body_set a b (body_get a b + t)%js.

(** ** Vectors

    [CANNON.Vec3] is not among the solver's sources; the solver reads the
    fields [x], [y], [z] and calls four methods. *)

Module Vec3.
Record t : Type := mk { x : float; y : float; z : float }.
End Vec3.

Class Vec3Methods : Type := {
  cross : Vec3.t -> Vec3.t -> Vec3.t;
  vadd : Vec3.t -> Vec3.t -> Vec3.t;
  vsub : Vec3.t -> Vec3.t -> Vec3.t;
  dot : Vec3.t -> Vec3.t -> float
}.

(** Modelled from the spec: the vector algebra collaborator [CANNON.Vec3]
    (cross product, sum, difference and dot product, componentwise in
    double precision), whose source file is missing. *)
Definition std_cross (u v : Vec3.t) : Vec3.t :=
  Vec3.mk (Vec3.y u * Vec3.z v - Vec3.z u * Vec3.y v)%js
          (Vec3.z u * Vec3.x v - Vec3.x u * Vec3.z v)%js
          (Vec3.x u * Vec3.y v - Vec3.y u * Vec3.x v)%js.

Definition std_vadd (u v : Vec3.t) : Vec3.t :=
  Vec3.mk (Vec3.x u + Vec3.x v)%js (Vec3.y u + Vec3.y v)%js (Vec3.z u + Vec3.z v)%js.

Definition std_vsub (u v : Vec3.t) : Vec3.t :=
  Vec3.mk (Vec3.x u - Vec3.x v)%js (Vec3.y u - Vec3.y v)%js (Vec3.z u - Vec3.z v)%js.

Definition std_dot (u v : Vec3.t) : float :=
  (Vec3.x u * Vec3.x v + Vec3.y u * Vec3.y v + Vec3.z u * Vec3.z v)%js.

#[export] Instance std_vec3 : Vec3Methods :=
  {| cross := std_cross; vadd := std_vadd; vsub := std_vsub; dot := std_dot |}.

(** ** The solver object

    [this.i] starts as a plain array and is replaced by an [Int16Array] in
    [solve]; a typed array has no [push]. *)

Inductive IndexArray : Type :=
| PlainArray (elts : list Z)
| Int16Array (elts : list Z).

Definition elements (arr : IndexArray) : list Z :=
  match arr with PlainArray e | Int16Array e => e end.

Record Solver : Type := mkSolver {
  iterations : Z;
  h : float;
  a : float;
  b : float;
  eps : float;
  k : float;
  d : float;
  G : list jsval;
  MinvTrace : list jsval;
  Fext : list jsval;
  q : list jsval;
  qdot : list jsval;
  n : nat;
  upper : list jsval;
  lower : list jsval;
  hasupper : list bool;
  haslower : list bool;
  i : IndexArray;
  j : list Z;
  vxlambda : list float;
  vylambda : list float;
  vzlambda : list float;
  wxlambda : list float;
  wylambda : list float;
  wzlambda : list float;
  debug : bool
}.

(** Assignment to one property of the object. *)
Definition set_iterations (s : Solver) (v : Z) : Solver :=
  mkSolver v (h s) (a s) (b s) (eps s) (k s) (d s) (G s) (MinvTrace s)
    (Fext s) (q s) (qdot s) (n s) (upper s) (lower s) (hasupper s)
    (haslower s) (i s) (j s) (vxlambda s) (vylambda s) (vzlambda s)
    (wxlambda s) (wylambda s) (wzlambda s) (debug s).

Definition set_G (s : Solver) (v : list jsval) : Solver :=
  mkSolver (iterations s) (h s) (a s) (b s) (eps s) (k s) (d s) v
    (MinvTrace s) (Fext s) (q s) (qdot s) (n s) (upper s) (lower s)
    (hasupper s) (haslower s) (i s) (j s) (vxlambda s) (vylambda s)
    (vzlambda s) (wxlambda s) (wylambda s) (wzlambda s) (debug s).

Definition set_MinvTrace (s : Solver) (v : list jsval) : Solver :=
  mkSolver (iterations s) (h s) (a s) (b s) (eps s) (k s) (d s) (G s) v
    (Fext s) (q s) (qdot s) (n s) (upper s) (lower s) (hasupper s)
    (haslower s) (i s) (j s) (vxlambda s) (vylambda s) (vzlambda s)
    (wxlambda s) (wylambda s) (wzlambda s) (debug s).

Definition set_Fext (s : Solver) (v : list jsval) : Solver :=
  mkSolver (iterations s) (h s) (a s) (b s) (eps s) (k s) (d s) (G s)
    (MinvTrace s) v (q s) (qdot s) (n s) (upper s) (lower s) (hasupper s)
    (haslower s) (i s) (j s) (vxlambda s) (vylambda s) (vzlambda s)
    (wxlambda s) (wylambda s) (wzlambda s) (debug s).

Definition set_q (s : Solver) (v : list jsval) : Solver :=
  mkSolver (iterations s) (h s) (a s) (b s) (eps s) (k s) (d s) (G s)
    (MinvTrace s) (Fext s) v (qdot s) (n s) (upper s) (lower s) (hasupper s)
    (haslower s) (i s) (j s) (vxlambda s) (vylambda s) (vzlambda s)
    (wxlambda s) (wylambda s) (wzlambda s) (debug s).

Definition set_qdot (s : Solver) (v : list jsval) : Solver :=
  mkSolver (iterations s) (h s) (a s) (b s) (eps s) (k s) (d s) (G s)
    (MinvTrace s) (Fext s) (q s) v (n s) (upper s) (lower s) (hasupper s)
    (haslower s) (i s) (j s) (vxlambda s) (vylambda s) (vzlambda s)
    (wxlambda s) (wylambda s) (wzlambda s) (debug s).

Definition set_n (s : Solver) (v : nat) : Solver :=
  mkSolver (iterations s) (h s) (a s) (b s) (eps s) (k s) (d s) (G s)
    (MinvTrace s) (Fext s) (q s) (qdot s) v (upper s) (lower s) (hasupper s)
    (haslower s) (i s) (j s) (vxlambda s) (vylambda s) (vzlambda s)
    (wxlambda s) (wylambda s) (wzlambda s) (debug s).

Definition set_upper (s : Solver) (v : list jsval) : Solver :=
  mkSolver (iterations s) (h s) (a s) (b s) (eps s) (k s) (d s) (G s)
    (MinvTrace s) (Fext s) (q s) (qdot s) (n s) v (lower s) (hasupper s)
    (haslower s) (i s) (j s) (vxlambda s) (vylambda s) (vzlambda s)
    (wxlambda s) (wylambda s) (wzlambda s) (debug s).

Definition set_lower (s : Solver) (v : list jsval) : Solver :=
  mkSolver (iterations s) (h s) (a s) (b s) (eps s) (k s) (d s) (G s)
    (MinvTrace s) (Fext s) (q s) (qdot s) (n s) (upper s) v (hasupper s)
    (haslower s) (i s) (j s) (vxlambda s) (vylambda s) (vzlambda s)
    (wxlambda s) (wylambda s) (wzlambda s) (debug s).

Definition set_hasupper (s : Solver) (v : list bool) : Solver :=
  mkSolver (iterations s) (h s) (a s) (b s) (eps s) (k s) (d s) (G s)
    (MinvTrace s) (Fext s) (q s) (qdot s) (n s) (upper s) (lower s) v
    (haslower s) (i s) (j s) (vxlambda s) (vylambda s) (vzlambda s)
    (wxlambda s) (wylambda s) (wzlambda s) (debug s).

Definition set_haslower (s : Solver) (v : list bool) : Solver :=
  mkSolver (iterations s) (h s) (a s) (b s) (eps s) (k s) (d s) (G s)
    (MinvTrace s) (Fext s) (q s) (qdot s) (n s) (upper s) (lower s)
    (hasupper s) v (i s) (j s) (vxlambda s) (vylambda s) (vzlambda s)
    (wxlambda s) (wylambda s) (wzlambda s) (debug s).

Definition set_i (s : Solver) (v : IndexArray) : Solver :=
  mkSolver (iterations s) (h s) (a s) (b s) (eps s) (k s) (d s) (G s)
    (MinvTrace s) (Fext s) (q s) (qdot s) (n s) (upper s) (lower s)
    (hasupper s) (haslower s) v (j s) (vxlambda s) (vylambda s) (vzlambda s)
    (wxlambda s) (wylambda s) (wzlambda s) (debug s).

Definition set_j (s : Solver) (v : list Z) : Solver :=
  mkSolver (iterations s) (h s) (a s) (b s) (eps s) (k s) (d s) (G s)
    (MinvTrace s) (Fext s) (q s) (qdot s) (n s) (upper s) (lower s)
    (hasupper s) (haslower s) (i s) v (vxlambda s) (vylambda s) (vzlambda s)
    (wxlambda s) (wylambda s) (wzlambda s) (debug s).

Definition set_vxlambda (s : Solver) (v : list float) : Solver :=
  mkSolver (iterations s) (h s) (a s) (b s) (eps s) (k s) (d s) (G s)
    (MinvTrace s) (Fext s) (q s) (qdot s) (n s) (upper s) (lower s)
    (hasupper s) (haslower s) (i s) (j s) v (vylambda s) (vzlambda s)
    (wxlambda s) (wylambda s) (wzlambda s) (debug s).

Definition set_vylambda (s : Solver) (v : list float) : Solver :=
  mkSolver (iterations s) (h s) (a s) (b s) (eps s) (k s) (d s) (G s)
    (MinvTrace s) (Fext s) (q s) (qdot s) (n s) (upper s) (lower s)
    (hasupper s) (haslower s) (i s) (j s) (vxlambda s) v (vzlambda s)
    (wxlambda s) (wylambda s) (wzlambda s) (debug s).

Definition set_vzlambda (s : Solver) (v : list float) : Solver :=
  mkSolver (iterations s) (h s) (a s) (b s) (eps s) (k s) (d s) (G s)
    (MinvTrace s) (Fext s) (q s) (qdot s) (n s) (upper s) (lower s)
    (hasupper s) (haslower s) (i s) (j s) (vxlambda s) (vylambda s) v
    (wxlambda s) (wylambda s) (wzlambda s) (debug s).

Definition set_wxlambda (s : Solver) (v : list float) : Solver :=
  mkSolver (iterations s) (h s) (a s) (b s) (eps s) (k s) (d s) (G s)
    (MinvTrace s) (Fext s) (q s) (qdot s) (n s) (upper s) (lower s)
    (hasupper s) (haslower s) (i s) (j s) (vxlambda s) (vylambda s)
    (vzlambda s) v (wylambda s) (wzlambda s) (debug s).

Definition set_wylambda (s : Solver) (v : list float) : Solver :=
  mkSolver (iterations s) (h s) (a s) (b s) (eps s) (k s) (d s) (G s)
    (MinvTrace s) (Fext s) (q s) (qdot s) (n s) (upper s) (lower s)
    (hasupper s) (haslower s) (i s) (j s) (vxlambda s) (vylambda s)
    (vzlambda s) (wxlambda s) v (wzlambda s) (debug s).

Definition set_wzlambda (s : Solver) (v : list float) : Solver :=
  mkSolver (iterations s) (h s) (a s) (b s) (eps s) (k s) (d s) (G s)
    (MinvTrace s) (Fext s) (q s) (qdot s) (n s) (upper s) (lower s)
    (hasupper s) (haslower s) (i s) (j s) (vxlambda s) (vylambda s)
    (vzlambda s) (wxlambda s) (wylambda s) v (debug s).

Definition set_debug (s : Solver) (v : bool) : Solver :=
  mkSolver (iterations s) (h s) (a s) (b s) (eps s) (k s) (d s) (G s)
    (MinvTrace s) (Fext s) (q s) (qdot s) (n s) (upper s) (lower s)
    (hasupper s) (haslower s) (i s) (j s) (vxlambda s) (vylambda s)
    (vzlambda s) (wxlambda s) (wylambda s) (wzlambda s) v.

(** ** Completion of a method call

    A call either returns a value or is abandoned by an uncaught
    [TypeError]; in both cases the object keeps the mutations made so far. *)

Inductive completion (A : Type) : Type :=
| Normal (v : A) (s : Solver)
| Throw (s : Solver).
Arguments Normal {A} v s.
Arguments Throw {A} s.

Definition final_state {A : Type} (r : completion A) : Solver :=
  match r with Normal _ s | Throw s => s end.

Definition returned {A : Type} (r : completion A) : option A :=
  match r with Normal v _ => Some v | Throw _ => None end.

(** ** [reset] (lines 76-99) *)

Definition zeros (m : nat) : list float := replicate m pzero.

Definition reset (s : Solver) (numbodies : nat) : Solver :=
  let s := set_G s [] in
  let s := set_MinvTrace s [] in
  let s := set_Fext s [] in
  let s := set_q s [] in
  let s := set_qdot s [] in
  let s := set_n s 0 in
  let s := set_upper s [] in
  let s := set_lower s [] in
  let s := set_hasupper s [] in
  let s := set_haslower s [] in
  let s := set_i s (PlainArray []) in
  let s := set_j s [] in
  let s := set_vxlambda s (zeros numbodies) in
  let s := set_vylambda s (zeros numbodies) in
  let s := set_vzlambda s (zeros numbodies) in
  let s := set_wxlambda s (zeros numbodies) in
  let s := set_wylambda s (zeros numbodies) in
  set_wzlambda s (zeros numbodies).

(** ** The constructor (lines 7-67)

    [iter] and [h] may be omitted ([None]); [x || y] takes [y] when [x] is
    falsy, which for a number means zero or NaN. *)

Definition falsy_number (v : float) : bool := is_zero v || is_nan v.

Definition new_Solver (a b eps k d : float) (iter : option Z) (h : option float)
  : Solver :=
  let iterations :=
    match iter with
    | Some it => if (it =? 0)%Z then 10%Z else it
    | None => 10%Z
    end in
  let h :=
    match h with
    | Some v => if falsy_number v then (of_Z 1 / of_Z 60)%js else v
    | None => (of_Z 1 / of_Z 60)%js
    end in
  let this :=
    mkSolver iterations h a b eps k d [] [] [] [] [] 0 [] [] [] []
      (PlainArray []) [] [] [] [] [] [] [] false in
  let this := reset this 0 in
  set_debug this false.

Section Methods.
Context `{StringCoercion} `{Vec3Methods}.

(** ** [addConstraint] (lines 116-147)

    One turn of the loop over the twelve slots pushes slot [slot] of each
    argument row; a row that is too short yields [undefined]. *)

Definition push_slot (G' MinvTrace' q' qdot' Fext' : list jsval)
    (s : Solver) (slot : nat) : Solver :=
  let s := set_q s (q s ++ [arr_get q' slot]) in
  let s := set_qdot s (qdot s ++ [arr_get qdot' slot]) in
  let s := set_MinvTrace s (MinvTrace s ++ [arr_get MinvTrace' slot]) in
  let s := set_G s (G s ++ [arr_get G' slot]) in
  set_Fext s (Fext s ++ [arr_get Fext' slot]).

Definition addConstraint (s : Solver) (G' MinvTrace' q' qdot' Fext' : list jsval)
    (lower' upper' : jsval) (body_i body_j : Z) : completion nat :=
  let s := fold_left (push_slot G' MinvTrace' q' qdot' Fext') (seq 0 12) s in
  let s := set_upper s (upper s ++ [upper']) in
  let s := set_hasupper s (hasupper s ++ [negb (isNaN upper')]) in
  let s := set_lower s (lower s ++ [lower']) in
  let s := set_haslower s (haslower s ++ [negb (isNaN lower')]) in
  match i s with
  | Int16Array _ => Throw s
  | PlainArray elts =>
      let s := set_i s (PlainArray (elts ++ [body_i])) in
      let s := set_j s (j s ++ [body_j]) in
      let s := set_n s (n s + 1) in
      Normal (n s - 1) s
  end.

(** ** [addNonPenetrationConstraint] (lines 165-216) *)

Definition nums (vs : list float) : list jsval := map VNum vs.

Definition addNonPenetrationConstraint (s : Solver) (i j : Z)
    (xi xj ni ri rj iMi iMj iIi iIj vi vj wi wj fi fj taui tauj : Vec3.t)
  : completion unit :=
  let rxn := cross ri ni in
  let u := vsub vj vi in
  let qvec := vsub (vadd xj rj) (vadd xi ri) in
  let q := dot qvec ni in
  if (q <? pzero)%js then
    match
      addConstraint s
        (nums [ (- Vec3.x ni)%js; (- Vec3.y ni)%js; (- Vec3.z ni)%js;
                (- Vec3.x rxn)%js; (- Vec3.y rxn)%js; (- Vec3.z rxn)%js;
                Vec3.x ni; Vec3.y ni; Vec3.z ni;
                Vec3.x rxn; Vec3.y rxn; Vec3.z rxn ])
        (nums [ Vec3.x iMi; Vec3.y iMi; Vec3.z iMi;
                Vec3.z iIi; Vec3.y iIi; Vec3.z iIi;
                Vec3.x iMj; Vec3.y iMj; Vec3.z iMj;
                Vec3.z iIj; Vec3.y iIj; Vec3.z iIj ])
        (nums [ (- Vec3.x qvec)%js; (- Vec3.y qvec)%js; (- Vec3.z qvec)%js;
                pzero; pzero; pzero;
                Vec3.x qvec; Vec3.y qvec; Vec3.z qvec;
                pzero; pzero; pzero ])
        (nums [ (- Vec3.x u)%js; (- Vec3.y u)%js; (- Vec3.z u)%js;
                pzero; pzero; pzero;
                Vec3.x u; Vec3.y u; Vec3.z u;
                pzero; pzero; pzero ])
        (nums [ Vec3.x fi; Vec3.y fi; Vec3.z fi;
                Vec3.x taui; Vec3.y taui; Vec3.z taui;
                Vec3.x fj; Vec3.y fj; Vec3.z fj;
                Vec3.x tauj; Vec3.y tauj; Vec3.z tauj ])
        (VNum pzero)
        (VStr "inf")
        i
        j
    with
    | Normal _ s' => Normal tt s'
    | Throw s' => Throw s'
    end
  else Normal tt s.

(** ** [solve] (lines 223-331)

    The local typed arrays of [solve]; [ulambda] is allocated but never
    used, so it is left out.  The local [G], a [Float32Array] copy of
    [this.G], is called [G32] here. *)

Record Scratch : Type := mkScratch {
  lambda : list float;
  dlambda : list float;
  B : list float;
  c : list float;
  precomp : list Z
}.

Definition set_lambda (w : Scratch) (v : list float) : Scratch :=
  mkScratch v (dlambda w) (B w) (c w) (precomp w).

Definition set_dlambda (w : Scratch) (v : list float) : Scratch :=
  mkScratch (lambda w) v (B w) (c w) (precomp w).

Definition set_B (w : Scratch) (v : list float) : Scratch :=
  mkScratch (lambda w) (dlambda w) v (c w) (precomp w).

Definition set_c (w : Scratch) (v : list float) : Scratch :=
  mkScratch (lambda w) (dlambda w) (B w) v (precomp w).

Definition set_precomp (w : Scratch) (v : list Z) : Scratch :=
  mkScratch (lambda w) (dlambda w) (B w) (c w) v.

(** A cell of a plain array used as an operand of arithmetic. *)
Definition cell (arr : list jsval) (idx : nat) : float := ToNumber (arr_get arr idx).

(** [new Float32Array(this.G)]. *)
Definition to_Float32Array (arr : list jsval) : list float :=
  map (fun v => fround (ToNumber v)) arr.

(** [!precomp[l]] is false exactly when the cell holds a non-zero number. *)
Definition precomp_done (p : list Z) (l : nat) : bool :=
  match p !! l with
  | Some v => negb (v =? 0)%Z
  | None => false
  end.

(** Lines 244-255: the four accumulators over the twelve slots. *)
Definition precompute_sums (s : Solver) (G32 : list float) (l : nat)
  : float * float * float * float :=
  let l12 := 12 * l in
  fold_left
    (fun acc slot =>
       let '(G_Minv_Gt, Gq, GW, GMinvf) := acc in
       let addi := l12 + slot in
       ((G_Minv_Gt + f32_get G32 addi * cell (MinvTrace s) addi * f32_get G32 addi)%js,
        (Gq + f32_get G32 addi * cell (q s) addi)%js,
        (GW + f32_get G32 addi * cell (qdot s) addi)%js,
        (GMinvf + f32_get G32 addi * cell (MinvTrace s) addi * cell (Fext s) addi)%js))
    (seq 0 12) (pzero, pzero, pzero, pzero).

(** Lines 242-268. *)
Definition precompute (s : Solver) (G32 : list float) (w : Scratch) (l : nat)
  : Scratch :=
  if precomp_done (precomp w) l then w
  else
    let '(G_Minv_Gt, Gq, GW, GMinvf) := precompute_sums s G32 l in
    let w := set_c w (f32_set (c w) l (of_Z 1 / (G_Minv_Gt + eps s))%js) in
    let w := set_B w (f32_set (B w) l
                        (- a s * Gq - b s * GW - h s * GMinvf)%js) in
    set_precomp w (<[ l := ToInt16 1 ]> (precomp w)).

(** Lines 270-284. *)
Definition Gulambda (s : Solver) (G32 : list float) (l : nat)
    (body_i body_j : option Z) : float :=
  let l12 := 12 * l in
  let Gu := pzero in
  let Gu := (Gu + f32_get G32 (0 + l12) * body_get (vxlambda s) body_i)%js in
  let Gu := (Gu + f32_get G32 (1 + l12) * body_get (vylambda s) body_i)%js in
  let Gu := (Gu + f32_get G32 (2 + l12) * body_get (vzlambda s) body_i)%js in
  let Gu := (Gu + f32_get G32 (3 + l12) * body_get (wxlambda s) body_i)%js in
  let Gu := (Gu + f32_get G32 (4 + l12) * body_get (wylambda s) body_i)%js in
  let Gu := (Gu + f32_get G32 (5 + l12) * body_get (wzlambda s) body_i)%js in
  let Gu := (Gu + f32_get G32 (6 + l12) * body_get (vxlambda s) body_j)%js in
  let Gu := (Gu + f32_get G32 (7 + l12) * body_get (vylambda s) body_j)%js in
  let Gu := (Gu + f32_get G32 (8 + l12) * body_get (vzlambda s) body_j)%js in
  let Gu := (Gu + f32_get G32 (9 + l12) * body_get (wxlambda s) body_j)%js in
  let Gu := (Gu + f32_get G32 (10 + l12) * body_get (wylambda s) body_j)%js in
  (Gu + f32_get G32 (11 + l12) * body_get (wzlambda s) body_j)%js.

(** Lines 286-289. *)
Definition update_lambda (s : Solver) (G32 : list float) (w : Scratch) (l : nat)
    (body_i body_j : option Z) : Scratch :=
  let Gu := Gulambda s G32 l body_i body_j in
  let w := set_dlambda w
             (f32_set (dlambda w) l
                (f32_get (c w) l
                 * (f32_get (B w) l - Gu - eps s * f32_get (lambda w) l))%js) in
  set_lambda w (f32_set (lambda w) l (f32_get (lambda w) l + f32_get (dlambda w) l)%js).

(** Lines 293-298. *)
Definition lower_fires (s : Solver) (w : Scratch) (l : nat) : bool :=
  flag_get (haslower s) l && (f32_get (lambda w) l <? cell (lower s) l)%js.

Definition clamp_lower (s : Solver) (w : Scratch) (l : nat) : Scratch :=
  if lower_fires s w l then
    let w := set_lambda w (f32_set (lambda w) l (cell (lower s) l)) in
    set_dlambda w (f32_set (dlambda w) l (cell (lower s) l - f32_get (lambda w) l)%js)
  else w.

(** Lines 299-304: the condition tests the array [this.hasupper] itself. *)
Definition upper_fires (s : Solver) (w : Scratch) (l : nat) : bool :=
  array_truthy (hasupper s) && (f32_get (lambda w) l >? cell (upper s) l)%js.

Definition clamp_upper (s : Solver) (w : Scratch) (l : nat) : Scratch :=
  if upper_fires s w l then
    let w := set_lambda w (f32_set (lambda w) l (cell (upper s) l)) in
    set_dlambda w (f32_set (dlambda w) l (cell (upper s) l - f32_get (lambda w) l)%js)
  else w.

(** Lines 307-318. *)
Definition propagate (s : Solver) (G32 : list float) (w : Scratch) (l : nat)
    (body_i body_j : option Z) : Solver :=
  let l12 := 12 * l in
  let dl := f32_get (dlambda w) l in
  let s := set_vxlambda s (body_add (vxlambda s) body_i
             (dl * cell (MinvTrace s) (l12 + 0) * f32_get G32 (l12 + 0))%js) in
  let s := set_vylambda s (body_add (vylambda s) body_i
             (dl * cell (MinvTrace s) (l12 + 1) * f32_get G32 (l12 + 1))%js) in
  let s := set_vzlambda s (body_add (vzlambda s) body_i
             (dl * cell (MinvTrace s) (l12 + 2) * f32_get G32 (l12 + 2))%js) in
  let s := set_wxlambda s (body_add (wxlambda s) body_i
             (dl * cell (MinvTrace s) (l12 + 3) * f32_get G32 (l12 + 3))%js) in
  let s := set_wylambda s (body_add (wylambda s) body_i
             (dl * cell (MinvTrace s) (l12 + 4) * f32_get G32 (l12 + 4))%js) in
  let s := set_wzlambda s (body_add (wzlambda s) body_i
             (dl * cell (MinvTrace s) (l12 + 5) * f32_get G32 (l12 + 5))%js) in
  let s := set_vxlambda s (body_add (vxlambda s) body_j
             (dl * cell (MinvTrace s) (l12 + 6) * f32_get G32 (l12 + 6))%js) in
  let s := set_vylambda s (body_add (vylambda s) body_j
             (dl * cell (MinvTrace s) (l12 + 7) * f32_get G32 (l12 + 7))%js) in
  let s := set_vzlambda s (body_add (vzlambda s) body_j
             (dl * cell (MinvTrace s) (l12 + 8) * f32_get G32 (l12 + 8))%js) in
  let s := set_wxlambda s (body_add (wxlambda s) body_j
             (dl * cell (MinvTrace s) (l12 + 9) * f32_get G32 (l12 + 9))%js) in
  let s := set_wylambda s (body_add (wylambda s) body_j
             (dl * cell (MinvTrace s) (l12 + 10) * f32_get G32 (l12 + 10))%js) in
  set_wzlambda s (body_add (wzlambda s) body_j
             (dl * cell (MinvTrace s) (l12 + 11) * f32_get G32 (l12 + 11))%js).

(** Lines 234-319: the body of the inner loop for constraint [l]. *)
Definition inner_body (G32 : list float) (sw : Solver * Scratch) (l : nat)
  : Solver * Scratch :=
  let '(s, w) := sw in
  let body_i := elements (i s) !! l in
  let body_j := j s !! l in
  let w := precompute s G32 w l in
  let w := update_lambda s G32 w l body_i body_j in
  let w := clamp_lower s w l in
  let w := clamp_upper s w l in
  (propagate s G32 w l body_i body_j, w).

(** One sweep over the [n] constraints. *)
Definition sweep (n : nat) (G32 : list float) (sw : Solver * Scratch)
  : Solver * Scratch :=
  fold_left (inner_body G32) (seq 0 n) sw.

(** Lines 224-232. *)
Definition solve_setup (s : Solver) : Solver * Scratch :=
  let s := set_i s (Int16Array (map ToInt16 (elements (i s)))) in
  (s, mkScratch (zeros (n s)) (zeros (n s)) (zeros (n s)) (zeros (n s))
        (replicate (n s) 0%Z)).

(** [solve] together with the final contents of its local arrays. *)
Definition solve_run (s : Solver) : Solver * Scratch :=
  let G32 := to_Float32Array (G s) in
  Nat.iter (Z.to_nat (iterations s)) (sweep (n s) G32) (solve_setup s).

Definition solve (s : Solver) : Solver := fst (solve_run s).

End Methods.

(** ** Vocabulary of the properties *)

Section Vocabulary.
Context `{StringCoercion} `{Vec3Methods}.

(** A sum over the twelve slots of constraint [l], accumulated from zero in
    slot order. *)
Definition slot_sum (term : nat -> float) (l : nat) : float :=
  fold_left (fun acc slot => (acc + term (12 * l + slot)%nat)%js) (seq 0 12) pzero.

Definition G_Minv_Gt_sum (s : Solver) (G32 : list float) : nat -> float :=
  slot_sum (fun k => (f32_get G32 k * cell (MinvTrace s) k * f32_get G32 k)%js).

Definition Gq_sum (s : Solver) (G32 : list float) : nat -> float :=
  slot_sum (fun k => (f32_get G32 k * cell (q s) k)%js).

Definition GW_sum (s : Solver) (G32 : list float) : nat -> float :=
  slot_sum (fun k => (f32_get G32 k * cell (qdot s) k)%js).

Definition GMinvf_sum (s : Solver) (G32 : list float) : nat -> float :=
  slot_sum (fun k => (f32_get G32 k * cell (MinvTrace s) k * cell (Fext s) k)%js).

(** The cached constants, as single-precision cells hold them. *)
Definition effectiveInverseMass (s : Solver) (G32 : list float) (l : nat) : float :=
  fround (of_Z 1 / (G_Minv_Gt_sum s G32 l + eps s))%js.

Definition biasTerm (s : Solver) (G32 : list float) (l : nat) : float :=
  fround (- a s * Gq_sum s G32 l - b s * GW_sum s G32 l - h s * GMinvf_sum s G32 l)%js.

(** The six velocity deltas of one body, and the dot product of two rows
    accumulated from zero. *)
Definition body_deltas (s : Solver) (body : option Z) : list float :=
  [ body_get (vxlambda s) body; body_get (vylambda s) body;
    body_get (vzlambda s) body; body_get (wxlambda s) body;
    body_get (wylambda s) body; body_get (wzlambda s) body ].

Definition jacobian_row (G32 : list float) (l : nat) : list float :=
  map (fun slot => f32_get G32 (12 * l + slot)) (seq 0 12).

Definition row_dot (u v : list float) : float :=
  fold_left (fun acc p => (acc + fst p * snd p)%js) (zip u v) pzero.

(** The state of the loops of [solve] on entry to the inner-loop body of
    constraint [l] in sweep [k], and on exit from it. *)
Definition state_at (s : Solver) (k l : nat) : Solver * Scratch :=
  let G32 := to_Float32Array (G s) in
  fold_left (inner_body G32) (seq 0 l)
    (Nat.iter k (sweep (n s) G32) (solve_setup s)).

Definition state_after (s : Solver) (k l : nat) : Solver * Scratch :=
  inner_body (to_Float32Array (G s)) (state_at s k l) l.

(** The six per-body delta arrays. *)
Definition deltas (s : Solver) : list (list float) :=
  [ vxlambda s; vylambda s; vzlambda s; wxlambda s; wylambda s; wzlambda s ].

(** Everything of the object but the six delta arrays. *)
Definition without_deltas (s : Solver) : Solver :=
  set_wzlambda (set_wylambda (set_wxlambda (set_vzlambda (set_vylambda
    (set_vxlambda s []) []) []) []) []) [].

(** The lockstep invariant of the constraint storage. *)
Definition lockstep (s : Solver) : Prop :=
  length (G s) = 12 * n s /\ length (MinvTrace s) = 12 * n s /\
  length (q s) = 12 * n s /\ length (qdot s) = 12 * n s /\
  length (Fext s) = 12 * n s /\
  length (lower s) = n s /\ length (upper s) = n s /\
  length (haslower s) = n s /\ length (hasupper s) = n s /\
  length (elements (i s)) = n s /\ length (j s) = n s.

(** ** Sequences of method calls *)

Record ConstraintArgs : Type := mkConstraintArgs {
  arg_G : list jsval;
  arg_MinvTrace : list jsval;
  arg_q : list jsval;
  arg_qdot : list jsval;
  arg_Fext : list jsval;
  arg_lower : jsval;
  arg_upper : jsval;
  arg_body_i : Z;
  arg_body_j : Z
}.

Record ContactArgs : Type := mkContactArgs {
  ct_i : Z; ct_j : Z;
  ct_xi : Vec3.t; ct_xj : Vec3.t; ct_ni : Vec3.t; ct_ri : Vec3.t; ct_rj : Vec3.t;
  ct_iMi : Vec3.t; ct_iMj : Vec3.t; ct_iIi : Vec3.t; ct_iIj : Vec3.t;
  ct_vi : Vec3.t; ct_vj : Vec3.t; ct_wi : Vec3.t; ct_wj : Vec3.t;
  ct_fi : Vec3.t; ct_fj : Vec3.t; ct_taui : Vec3.t; ct_tauj : Vec3.t
}.

Inductive Call : Type :=
| CallReset (numbodies : nat)
| CallAddConstraint (args : ConstraintArgs)
| CallAddNonPenetrationConstraint (args : ContactArgs)
| CallSolve.

Definition addConstraint_with (s : Solver) (p : ConstraintArgs) : completion nat :=
  addConstraint s (arg_G p) (arg_MinvTrace p) (arg_q p) (arg_qdot p) (arg_Fext p)
    (arg_lower p) (arg_upper p) (arg_body_i p) (arg_body_j p).

Definition addNonPenetrationConstraint_with (s : Solver) (p : ContactArgs)
  : completion unit :=
  addNonPenetrationConstraint s (ct_i p) (ct_j p) (ct_xi p) (ct_xj p) (ct_ni p)
    (ct_ri p) (ct_rj p) (ct_iMi p) (ct_iMj p) (ct_iIi p) (ct_iIj p) (ct_vi p)
    (ct_vj p) (ct_wi p) (ct_wj p) (ct_fi p) (ct_fj p) (ct_taui p) (ct_tauj p).

Definition call (s : Solver) (op : Call) : completion unit :=
  match op with
  | CallReset numbodies => Normal tt (reset s numbodies)
  | CallAddConstraint p =>
      match addConstraint_with s p with
      | Normal _ s' => Normal tt s'
      | Throw s' => Throw s'
      end
  | CallAddNonPenetrationConstraint p => addNonPenetrationConstraint_with s p
  | CallSolve => Normal tt (solve s)
  end.

(** A script of calls; an uncaught exception abandons the rest of it. *)
Fixpoint run (s : Solver) (ops : list Call) : completion unit :=
  match ops with
  | [] => Normal tt s
  | op :: rest =>
      match call s op with
      | Normal _ s' => run s' rest
      | Throw s' => Throw s'
      end
  end.

(** The calling order of one simulation step: constraints are added after
    [reset] and before [solve].  [solved] tells whether [solve] has run
    since the last [reset]. *)
Fixpoint in_step_order (solved : bool) (ops : list Call) : bool :=
  match ops with
  | [] => true
  | CallReset _ :: rest => in_step_order false rest
  | CallSolve :: rest => in_step_order true rest
  | CallAddConstraint _ :: rest
  | CallAddNonPenetrationConstraint _ :: rest =>
      negb solved && in_step_order solved rest
  end.

Definition is_add (op : Call) : bool :=
  match op with
  | CallAddConstraint _ | CallAddNonPenetrationConstraint _ => true
  | _ => false
  end.

(** A bound that a single-precision cell holds exactly. *)
Definition exact_bound (v : float) : Prop := is_finite v = true /\ is_float32 v.

(** A number that is not below zero: zero, positive or NaN. *)
Definition not_negative (v : float) : Prop := (v <? pzero)%js = false.

(** The twelve values that the loop of [addConstraint] pushes for one
    argument row. *)
Definition row12 (r : list jsval) : list jsval := map (arr_get r) (seq 0 12).

(** The object as [addConstraint] has it just before the push on [this.i]. *)
Definition pushed (s : Solver) (G' MinvTrace' q' qdot' Fext' : list jsval)
    (lower' upper' : jsval) : Solver :=
  set_haslower (set_lower (set_hasupper (set_upper
    (set_Fext (set_G (set_MinvTrace (set_qdot (set_q s (q s ++ row12 q'))
      (qdot s ++ row12 qdot')) (MinvTrace s ++ row12 MinvTrace'))
      (G s ++ row12 G')) (Fext s ++ row12 Fext'))
    (upper s ++ [upper'])) (hasupper s ++ [negb (isNaN upper')]))
    (lower s ++ [lower'])) (haslower s ++ [negb (isNaN lower')]).

(** The signed penetration depth [q = ((xj + rj) - (xi + ri)) . n] of a
    contact, the Jacobian row [[-n, -(ri x n), n, ri x n]] and the violation
    row [[-q, 0, 0, 0, q, 0, 0, 0]]. *)
Definition separation (p : ContactArgs) : Vec3.t :=
  vsub (vadd (ct_xj p) (ct_rj p)) (vadd (ct_xi p) (ct_ri p)).

Definition penetration_depth (p : ContactArgs) : float :=
  dot (separation p) (ct_ni p).

Definition contact_jacobian (p : ContactArgs) : list jsval :=
  let ni := ct_ni p in
  let rxn := cross (ct_ri p) ni in
  nums [ (- Vec3.x ni)%js; (- Vec3.y ni)%js; (- Vec3.z ni)%js;
         (- Vec3.x rxn)%js; (- Vec3.y rxn)%js; (- Vec3.z rxn)%js;
         Vec3.x ni; Vec3.y ni; Vec3.z ni;
         Vec3.x rxn; Vec3.y rxn; Vec3.z rxn ].

Definition contact_violation (p : ContactArgs) : list jsval :=
  let qvec := separation p in
  nums [ (- Vec3.x qvec)%js; (- Vec3.y qvec)%js; (- Vec3.z qvec)%js;
         pzero; pzero; pzero;
         Vec3.x qvec; Vec3.y qvec; Vec3.z qvec;
         pzero; pzero; pzero ].

(** The result of a call whose return value is dropped. *)
Definition discard {A : Type} (r : completion A) : completion unit :=
  match r with Normal _ s => Normal tt s | Throw s => Throw s end.

(** [this.i] is a plain array: [solve] has not run since the last [reset]. *)
Definition plain (s : Solver) : Prop := exists elts, i s = PlainArray elts.

(** The local arrays in sweep [k], constraint [l]: after line 289, before
    the clamps ([unclamped]), and after line 304 ([clamped]). *)
Definition unclamped (s : Solver) (k l : nat) : Scratch :=
  let G32 := to_Float32Array (G s) in
  let sw := state_at s k l in
  update_lambda (fst sw) G32 (precompute (fst sw) G32 (snd sw) l) l
    (elements (i (fst sw)) !! l) (j (fst sw) !! l).

Definition clamped (s : Solver) (k l : nat) : Scratch :=
  let sw := state_at s k l in
  clamp_upper (fst sw) (clamp_lower (fst sw) (unclamped s k l) l) l.

(** The object [sk] agrees with the object on which [solve] started, [s],
    on everything but the six delta arrays. *)
Definition frozen (s sk : Solver) : Prop :=
  without_deltas sk = without_deltas (fst (solve_setup s)).

(** All local arrays have length [m]. *)
Definition sized (m : nat) (w : Scratch) : Prop :=
  length (lambda w) = m /\ length (dlambda w) = m /\ length (B w) = m /\
  length (c w) = m /\ length (precomp w) = m.

(** Loop invariant of [solve] for the cached constants: in sweep [sweeps],
    on entry to constraint [l], the constraints already touched are flagged
    and their cells of [c] and [B] hold the constants. *)
Definition cache_inv (s : Solver) (sweeps l : nat) (sw : Solver * Scratch) : Prop :=
  frozen s (fst sw) /\ sized (n s) (snd sw) /\
  (forall l', l' < n s ->
     precomp_done (precomp (snd sw)) l' = negb (sweeps =? 0) || (l' <? l)) /\
  (forall l', precomp_done (precomp (snd sw)) l' = true ->
     f32_get (c (snd sw)) l' = effectiveInverseMass s (to_Float32Array (G s)) l' /\
     f32_get (B (snd sw)) l' = biasTerm s (to_Float32Array (G s)) l').

(** Loop invariant of [solve] for the impulse of constraint [l]. *)
Definition lambda_inv (s : Solver) (l : nat) (sw : Solver * Scratch) : Prop :=
  frozen s (fst sw) /\ not_negative (f32_get (lambda (snd sw)) l).

(** The loop state with [this.hasupper] replaced. *)
Definition with_hasupper (hu : list bool) (sw : Solver * Scratch) : Solver * Scratch :=
  (set_hasupper (fst sw) hu, snd sw).

End Vocabulary.

(** ** Sample objects

    A host in which, of all strings, only the spellings of the infinities
    denote numbers; every other string, ['inf'] among them, is read as NaN. *)

Definition sample_host : StringCoercion :=
  {| StringToNumber := fun str =>
       if String.eqb str "Infinity" then pinf
       else if String.eqb str "+Infinity" then pinf
       else if String.eqb str "-Infinity" then ninf
       else nan |}.

Definition one : float := of_Z 1.
Definition tenth : float := (of_Z 1 / of_Z 10)%js.

(** [new CANNON.Solver(0.1, 0.1, 1e-4, 0, 0)], reset for two bodies. *)
Definition sample_solver : Solver :=
  reset (new_Solver tenth tenth (of_Z 1 / of_Z 10000)%js pzero pzero None None) 2.

Definition vec (vx vy vz : Z) : Vec3.t := Vec3.mk (of_Z vx) (of_Z vy) (of_Z vz).

(** Two bodies on the x axis, body [0] at the origin and body [1] at
    [x = gap], with contact points at the centres and normal [(1, 0, 0)]:
    the penetration depth is [gap]. *)
Definition sample_contact (gap : Z) : ContactArgs :=
  mkContactArgs 0 1 (vec 0 0 0) (vec gap 0 0) (vec 1 0 0) (vec 0 0 0) (vec 0 0 0)
    (vec 1 1 1) (vec 1 1 1) (vec 1 1 1) (vec 1 1 1)
    (vec 0 0 0) (vec 0 0 0) (vec 0 0 0) (vec 0 0 0)
    (vec 0 0 0) (vec 0 0 0) (vec 0 0 0) (vec 0 0 0).

(** A constraint along the x axis between bodies [body_i] and [body_j]
    with unit inverse masses: [G = [-1,0,0,0,0,0, 1,0,0,0,0,0]],
    [q = [push,0,0,0,0,0, -push,0,0,0,0,0]], no velocity and no force.  A
    positive [push] makes the bias term positive, a negative one negative. *)
Definition axis_row (v : Z) : list jsval :=
  nums [ of_Z (- v); pzero; pzero; pzero; pzero; pzero;
         of_Z v; pzero; pzero; pzero; pzero; pzero ].

Definition sample_constraint (push : Z) (lower' upper' : jsval) (body_i body_j : Z)
  : ConstraintArgs :=
  mkConstraintArgs (axis_row 1) (nums (replicate 12 one)) (axis_row (- push))
    (nums (replicate 12 pzero)) (nums (replicate 12 pzero))
    lower' upper' body_i body_j.

(** The sample solver holding one constraint. *)
Definition sample_with (p : ConstraintArgs) : Solver :=
  final_state (@addConstraint_with sample_host sample_solver p).

(** A contact-like constraint (lower bound [0], upper bound ['inf']) that
    asks for a positive impulse. *)
Definition pushing_sample : Solver :=
  sample_with (sample_constraint 1 (VNum pzero) (VStr "inf") 0 1).

(** The same with the bias reversed, so that the lower clamp fires. *)
Definition pulling_sample : Solver :=
  sample_with (sample_constraint (-1) (VNum pzero) (VStr "inf") 0 1).

(** Lower bound [0.1], which single precision does not represent. *)
Definition inexact_bound_sample : Solver :=
  sample_with (sample_constraint (-1) (VNum tenth) (VStr "inf") 0 1).

(** Lower bound [0] and upper bound [-1]. *)
Definition crossed_bounds_sample : Solver :=
  sample_with (sample_constraint 1 (VNum pzero) (VNum (of_Z (-1))) 0 1).

(** Lower bound [0], and an infinite relative velocity in a slot whose
    Jacobian entry is zero. *)
Definition infinite_velocity_sample : Solver :=
  sample_with
    (mkConstraintArgs (axis_row 1) (nums (replicate 12 one)) (axis_row (-1))
       (nums [ pzero; pinf; pzero; pzero; pzero; pzero;
               pzero; pzero; pzero; pzero; pzero; pzero ])
       (nums (replicate 12 pzero)) (VNum pzero) (VStr "inf") 0 1).

(** A constraint on body [0] alone: [body_j = -1]; one sweep. *)
Definition one_body_sample : Solver :=
  set_iterations
    (sample_with (sample_constraint 1 (VNum pzero) (VStr "inf") 0 (-1))) 1.

(** A contact whose first position has a NaN coordinate: its penetration
    depth is NaN. *)
Definition nan_contact : ContactArgs :=
  mkContactArgs 0 1 (Vec3.mk nan pzero pzero) (vec 1 0 0) (vec 1 0 0)
    (vec 0 0 0) (vec 0 0 0)
    (vec 1 1 1) (vec 1 1 1) (vec 1 1 1) (vec 1 1 1)
    (vec 0 0 0) (vec 0 0 0) (vec 0 0 0) (vec 0 0 0)
    (vec 0 0 0) (vec 0 0 0) (vec 0 0 0) (vec 0 0 0).

(** The end-to-end scenario of the specification: bodies [0] and [1],
    [G = [-1,0,0,0,0,0, 1,0,0,0,0,0]], unit [MinvTrace],
    [q = [-1,0,0,0,0,0, 1,0,0,0,0,0]], [qdot] and [Fext] zero, [lower = 0],
    [upper = +Infinity], [a = b = 0.1], [eps = 1e-4], [h = 1/60] and ten
    iterations. *)
Definition scenario_sample : Solver :=
  sample_with
    (mkConstraintArgs (axis_row 1) (nums (replicate 12 one)) (axis_row 1)
       (nums (replicate 12 pzero)) (nums (replicate 12 pzero))
       (VNum pzero) (VNum pinf) 0 1).

(** ** Vocabulary of the further properties *)

(** Assignment to the SPOOK parameters [k] and [d]. *)
Definition set_k (s : Solver) (v : float) : Solver :=
  mkSolver (iterations s) (h s) (a s) (b s) (eps s) v (d s) (G s)
    (MinvTrace s) (Fext s) (q s) (qdot s) (n s) (upper s) (lower s)
    (hasupper s) (haslower s) (i s) (j s) (vxlambda s) (vylambda s)
    (vzlambda s) (wxlambda s) (wylambda s) (wzlambda s) (debug s).

Definition set_d (s : Solver) (v : float) : Solver :=
  mkSolver (iterations s) (h s) (a s) (b s) (eps s) (k s) v (G s)
    (MinvTrace s) (Fext s) (q s) (qdot s) (n s) (upper s) (lower s)
    (hasupper s) (haslower s) (i s) (j s) (vxlambda s) (vylambda s)
    (vzlambda s) (wxlambda s) (wylambda s) (wzlambda s) (debug s).

Definition set_kd (k' d' : float) (s : Solver) : Solver := set_d (set_k s k') d'.

(** The configuration of the object: what the constructor sets and no
    method assigns. *)
Definition params (s : Solver)
  : Z * float * float * float * float * float * float * bool :=
  (iterations s, h s, a s, b s, eps s, k s, d s, debug s).

(** A function applied to the object a call leaves behind. *)
Definition on_state {A : Type} (f : Solver -> Solver) (r : completion A)
  : completion A :=
  match r with
  | Normal v s => Normal v (f s)
  | Throw s => Throw (f s)
  end.

(** The loop state with [k] and [d] replaced. *)
Definition with_kd (k' d' : float) (sw : Solver * Scratch) : Solver * Scratch :=
  (set_kd k' d' (fst sw), snd sw).

Section MoreVocabulary.
Context `{StringCoercion} `{Vec3Methods}.

(** The arguments of a contact with the angular velocities and the x
    components of the inverse inertias replaced. *)
Definition unread_replaced (p : ContactArgs) (wi' wj' : Vec3.t) (iIix iIjx : float)
  : ContactArgs :=
  mkContactArgs (ct_i p) (ct_j p) (ct_xi p) (ct_xj p) (ct_ni p) (ct_ri p) (ct_rj p)
    (ct_iMi p) (ct_iMj p)
    (Vec3.mk iIix (Vec3.y (ct_iIi p)) (Vec3.z (ct_iIi p)))
    (Vec3.mk iIjx (Vec3.y (ct_iIj p)) (Vec3.z (ct_iIj p)))
    (ct_vi p) (ct_vj p) wi' wj' (ct_fi p) (ct_fj p) (ct_taui p) (ct_tauj p).

(** The rows [addNonPenetrationConstraint] builds besides the Jacobian and
    the violation. *)
Definition contact_mass_row (p : ContactArgs) : list jsval :=
  nums [ Vec3.x (ct_iMi p); Vec3.y (ct_iMi p); Vec3.z (ct_iMi p);
         Vec3.z (ct_iIi p); Vec3.y (ct_iIi p); Vec3.z (ct_iIi p);
         Vec3.x (ct_iMj p); Vec3.y (ct_iMj p); Vec3.z (ct_iMj p);
         Vec3.z (ct_iIj p); Vec3.y (ct_iIj p); Vec3.z (ct_iIj p) ].

Definition contact_velocity_row (p : ContactArgs) : list jsval :=
  let u := vsub (ct_vj p) (ct_vi p) in
  nums [ (- Vec3.x u)%js; (- Vec3.y u)%js; (- Vec3.z u)%js; pzero; pzero; pzero;
         Vec3.x u; Vec3.y u; Vec3.z u; pzero; pzero; pzero ].

Definition contact_force_row (p : ContactArgs) : list jsval :=
  nums [ Vec3.x (ct_fi p); Vec3.y (ct_fi p); Vec3.z (ct_fi p);
         Vec3.x (ct_taui p); Vec3.y (ct_taui p); Vec3.z (ct_taui p);
         Vec3.x (ct_fj p); Vec3.y (ct_fj p); Vec3.z (ct_fj p);
         Vec3.x (ct_tauj p); Vec3.y (ct_tauj p); Vec3.z (ct_tauj p) ].

(** Every stored constraint has the bounds of a contact: lower bound [0]
    with its flag set, upper bound ['inf']. *)
Definition contact_rows (s : Solver) : Prop :=
  forall l, l < n s ->
    flag_get (haslower s) l = true /\
    arr_get (lower s) l = VNum pzero /\ arr_get (upper s) l = VStr "inf".

Definition is_contact (op : Call) : bool :=
  match op with CallAddNonPenetrationConstraint _ => true | _ => false end.

(** The flags agree with the bounds they were computed from. *)
Definition flags_consistent (s : Solver) : Prop :=
  forall l, l < n s ->
    flag_get (haslower s) l = negb (isNaN (arr_get (lower s) l)) /\
    flag_get (hasupper s) l = negb (isNaN (arr_get (upper s) l)).

(** No constraint names body [body]: neither [this.i], as [solve] reads it
    through an [Int16Array], nor [this.j]. *)
Definition unnamed_body (s : Solver) (body : nat) : Prop :=
  (forall l z, elements (i s) !! l = Some z -> ToInt16 z <> Z.of_nat body) /\
  (forall l z, j s !! l = Some z -> z <> Z.of_nat body).

(** The impulse of constraint [l] respects its bounds. *)
Definition within_bounds (s : Solver) (l : nat) (w : Scratch) : Prop :=
  (f32_get (lambda w) l >? cell (upper s) l)%js = false /\
  (flag_get (haslower s) l = true ->
   (f32_get (lambda w) l <? cell (lower s) l)%js = false).

(** The twelve cells of constraint [l] in one of the row stores, and all
    that the object stores for constraint [l]. *)
Definition constraint_row (arr : list jsval) (l : nat) : list jsval :=
  map (fun slot => arr_get arr (12 * l + slot)) (seq 0 12).

Definition stored (s : Solver) (l : nat) :=
  (constraint_row (G s) l, constraint_row (MinvTrace s) l,
   constraint_row (q s) l, constraint_row (qdot s) l, constraint_row (Fext s) l,
   arr_get (lower s) l, arr_get (upper s) l,
   flag_get (haslower s) l, flag_get (hasupper s) l,
   elements (i s) !! l, j s !! l).

(** Bodies at rest: each of the six delta arrays has [nb] cells, all zero
    of either sign. *)
Definition zero_cells (nb : nat) (arr : list float) : Prop :=
  length arr = nb /\ Forall (fun v => is_zero v = true) arr.

Definition resting_bodies (nb : nat) (s : Solver) : Prop :=
  Forall (zero_cells nb) (deltas s).

Definition valid_body (nb : nat) (z : Z) : Prop := (0 <= z < Z.of_nat nb)%Z.

(** Constraint [l] asks for nothing: its bias term is zero, its constants
    and its rows are finite, its bodies exist and its bounds admit a zero
    impulse. *)
Definition at_rest (nb : nat) (s : Solver) (l : nat) : Prop :=
  let G32 := to_Float32Array (G s) in
  is_zero (biasTerm s G32 l) = true /\
  is_finite (effectiveInverseMass s G32 l) = true /\
  (forall slot, slot < 12 ->
     is_finite (f32_get G32 (12 * l + slot)) = true /\
     is_finite (cell (MinvTrace s) (12 * l + slot)) = true) /\
  (exists zi zj, elements (i s) !! l = Some zi /\ j s !! l = Some zj /\
     valid_body nb (ToInt16 zi) /\ valid_body nb zj) /\
  (flag_get (haslower s) l = true -> (pzero <? cell (lower s) l)%js = false) /\
  (cell (upper s) l <? pzero)%js = false.

(** Loop invariant of [solve] for a system at rest. *)
Definition rest_inv (nb : nat) (s : Solver) (sweeps l : nat) (sw : Solver * Scratch)
  : Prop :=
  cache_inv s sweeps l sw /\ resting_bodies nb (fst sw) /\
  forall l', l' < n s -> is_zero (f32_get (lambda (snd sw)) l') = true.

(** Some cell of constraint [l] in one of the five row stores is not a
    number: NaN, [undefined], or a string that denotes none. *)
Definition poisoned (s : Solver) (l : nat) : Prop :=
  exists slot, slot < 12 /\
    (is_nan (cell (G s) (12 * l + slot)) = true \/
     is_nan (cell (MinvTrace s) (12 * l + slot)) = true \/
     is_nan (cell (q s) (12 * l + slot)) = true \/
     is_nan (cell (qdot s) (12 * l + slot)) = true \/
     is_nan (cell (Fext s) (12 * l + slot)) = true).

(** Body [z] is one of the two bodies of constraint [l], as [solve] reads
    them. *)
Definition names_body (s : Solver) (l : nat) (z : Z) : Prop :=
  ToInt16 <$> (elements (i s) !! l) = Some z \/ j s !! l = Some z.

End MoreVocabulary.

(** The sample solver holding one constraint that is satisfied: its
    violation row is zero. *)
Definition resting_sample : Solver :=
  sample_with (sample_constraint 0 (VNum pzero) (VStr "inf") 0 1).

(** The sample solver holding one constraint whose force row was left
    out. *)
Definition forceless_sample : Solver :=
  sample_with
    (mkConstraintArgs (axis_row 1) (nums (replicate 12 one)) (axis_row 1)
       (nums (replicate 12 pzero)) [] (VNum pzero) (VStr "inf") 0 1).

(** * Properties *)

(** ** Facts about numbers *)

Lemma flt_zero_of_fle (v : float) : fle pzero v = true -> flt v pzero = false.
Proof. destruct v as [[]|[]| |[] m e]; cbn; congruence. Qed.

Lemma not_negative_cases (v : float) :
  not_negative v <-> is_nan v = true \/ fle pzero v = true.
Proof.
  unfold not_negative.
  destruct v as [[]|[]| |[] m e]; cbn; intuition congruence.
Qed.

Lemma fsub_diag (v : float) : is_finite v = true -> fsub v v = pzero.
Proof.
  destruct v as [[]|[]| |s m e]; cbn; try congruence; try reflexivity.
  intros _. rewrite Z.sub_diag. reflexivity.
Qed.

Lemma binary_round_aux_sign (prec emax : Z) (s : bool) (m e : Z) (l : location) :
  match binary_round_aux prec emax s m e l with
  | S754_zero s' | S754_infinity s' | S754_finite s' _ _ => s' = s
  | S754_nan => True
  end.
Proof.
  unfold binary_round_aux.
  destruct (shr_fexp prec emax m e l) as [mrs' e'].
  destruct (shr_fexp prec emax _ e' loc_Exact) as [mrs'' e''].
  destruct (shr_m mrs''); [reflexivity | | exact I].
  destruct (e'' <=? emax - prec)%Z; reflexivity.
Qed.

Lemma binary_round_sign (prec emax : Z) (s : bool) (m : positive) (e : Z) :
  match binary_round prec emax s m e with
  | S754_zero s' | S754_infinity s' | S754_finite s' _ _ => s' = s
  | S754_nan => True
  end.
Proof.
  unfold binary_round.
  destruct (shl_align m e _) as [mz ez]. apply binary_round_aux_sign.
Qed.

Lemma fround_not_negative (v : float) : not_negative v -> not_negative (fround v).
Proof.
  unfold not_negative.
  destruct v as [[]|[]| |s m e]; cbn; try congruence.
  destruct s; [congruence | intros _].
  pose proof (binary_round_sign 24 128 false m e) as H1.
  destruct (binary_round 24 128 false m e) as [s1|s1| |s1 m1 e1]; subst; try reflexivity.
  pose proof (binary_round_sign 53 1024 false m1 e1) as H2.
  destruct (binary_round 53 1024 false m1 e1) as [s2|s2| |s2 m2 e2]; subst; reflexivity.
Qed.

Lemma fmul_zero_finite (v w : float) :
  is_zero v = true -> is_finite w = true -> is_zero (fmul v w) = true.
Proof. destruct v, w; cbn; congruence. Qed.

Lemma fadd_zero_same (v t : float) :
  is_zero t = true -> same_number (fadd v t) v.
Proof.
  unfold same_number.
  destruct t as [st| | |]; cbn; try congruence. intros _.
  destruct v as [sv|sv| |sv m e]; cbn; auto.
  destruct sv, st; cbn; auto.
Qed.

Lemma fround_add_zero_same (v t : float) :
  is_float32 v -> is_zero t = true -> same_number (fround (fadd v t)) v.
Proof.
  unfold is_float32. intros Hv Ht.
  destruct (fadd_zero_same v t Ht) as [-> | [Hz1 Hz2]].
  - left. exact Hv.
  - right. split; [|exact Hz2].
    destruct (fadd v t); cbn in *; congruence.
Qed.

(** *** Rounding to single precision is idempotent *)

Section Rounding.
Local Open Scope Z_scope.

(** *** Digit counts and shifts *)

Lemma iter_pos_iter {A : Type} (f : A -> A) (p : positive) :
  forall x : A, SpecFloat.iter_pos f p x = Pos.iter f x p.
Proof.
  induction p as [p IH | p IH | ]; intros x; cbn [SpecFloat.iter_pos Pos.iter].
  - rewrite !IH, !Pos.iter_swap. reflexivity.
  - rewrite !IH. reflexivity.
  - reflexivity.
Qed.

Lemma digits2_pos_size (p : positive) : digits2_pos p = Pos.size p.
Proof. induction p as [p IH | p IH | ]; cbn; rewrite ?IH; reflexivity. Qed.

Lemma Zdigits2_nonneg (m : Z) : 0 <= Zdigits2 m.
Proof. destruct m; cbn; lia. Qed.

Lemma Zdigits2_log2 (p : positive) : Zdigits2 (Zpos p) = Z.log2 (Zpos p) + 1.
Proof.
  destruct p as [p | p | ]; cbn [Zdigits2 digits2_pos Z.log2];
    rewrite ?digits2_pos_size; lia.
Qed.

Lemma Zdigits2_mono (m m' : Z) : 0 <= m <= m' -> Zdigits2 m <= Zdigits2 m'.
Proof.
  intros [H0 Hle]. destruct m as [|p|p]; [apply Zdigits2_nonneg | | lia].
  destruct m' as [|p'|p']; try lia.
  rewrite !Zdigits2_log2. pose proof (Z.log2_le_mono (Zpos p) (Zpos p') Hle). lia.
Qed.

Lemma digits2_pos_shift (m d : positive) :
  Zpos (digits2_pos (Pos.iter xO m d)) = Zpos (digits2_pos m) + Zpos d.
Proof.
  induction d as [|d IH] using Pos.peano_ind.
  - cbn. lia.
  - rewrite Pos.iter_succ. cbn [digits2_pos]. lia.
Qed.

Lemma shr_1_digits (mrs : shr_record) :
  0 <= shr_m mrs ->
  0 <= shr_m (shr_1 mrs) /\
  Zdigits2 (shr_m (shr_1 mrs)) = Z.max 0 (Zdigits2 (shr_m mrs) - 1).
Proof.
  destruct mrs as [m r s]. cbn [shr_m]. intros Hm.
  destruct m as [|[p|p|]|p]; cbn [shr_1 shr_m Zdigits2 digits2_pos]; try lia.
Qed.

Lemma iter_shr_1_digits (mrs : shr_record) (p : positive) :
  0 <= shr_m mrs ->
  0 <= shr_m (SpecFloat.iter_pos shr_1 p mrs) /\
  Zdigits2 (shr_m (SpecFloat.iter_pos shr_1 p mrs)) = Z.max 0 (Zdigits2 (shr_m mrs) - Zpos p).
Proof.
  intros Hm. rewrite iter_pos_iter.
  induction p as [|p IH] using Pos.peano_ind.
  - cbn [Pos.iter]. apply shr_1_digits. exact Hm.
  - rewrite Pos.iter_succ. destruct IH as [IH0 IHd].
    destruct (shr_1_digits _ IH0) as [H0 Hd].
    split; [exact H0|]. rewrite Hd, IHd. lia.
Qed.

Lemma shr_digits (mrs : shr_record) (e sh : Z) :
  0 <= sh -> 0 <= shr_m mrs ->
  snd (shr mrs e sh) = e + sh /\
  0 <= shr_m (fst (shr mrs e sh)) /\
  Zdigits2 (shr_m (fst (shr mrs e sh))) = Z.max 0 (Zdigits2 (shr_m mrs) - sh).
Proof.
  intros Hsh Hm. pose proof (Zdigits2_nonneg (shr_m mrs)).
  destruct sh as [|p|p]; cbn [shr fst snd]; try lia.
  destruct (iter_shr_1_digits mrs p Hm) as [H0 Hd]. repeat split; [exact H0|exact Hd].
Qed.

Lemma iter_shr_1_trailing (m k : positive) :
  SpecFloat.iter_pos shr_1 k (Build_shr_record (Zpos (Pos.iter xO m k)) false false)
  = Build_shr_record (Zpos m) false false.
Proof.
  rewrite iter_pos_iter.
  induction k as [|k IH] using Pos.peano_ind.
  - reflexivity.
  - rewrite !Pos.iter_succ, <- Pos.iter_swap. cbn [shr_1 orb]. exact IH.
Qed.

Lemma round_nearest_even_bounds (m : Z) (l : location) :
  m <= round_nearest_even m l <= m + 1.
Proof.
  destruct l as [|[]]; cbn [round_nearest_even]; try lia.
  destruct (Z.even m); lia.
Qed.

Lemma shr_m_of_loc (m : Z) (l : location) : shr_m (shr_record_of_loc m l) = m.
Proof. destruct l as [|[]]; reflexivity. Qed.

(** *** The result of [binary_round] is canonical *)

Section Canonical.
Variables prec emax : Z.

Lemma fexp_mono (e e' : Z) : e <= e' -> fexp prec emax e <= fexp prec emax e'.
Proof. unfold fexp. lia. Qed.

Lemma shl_align_digits (mx : positive) (ex ex' : Z) :
  Zpos (digits2_pos (fst (shl_align mx ex ex'))) + snd (shl_align mx ex ex')
    = Zpos (digits2_pos mx) + ex /\
  snd (shl_align mx ex ex') <= ex'.
Proof.
  unfold shl_align. destruct (ex' - ex) as [|d|d] eqn:Hd; cbn [fst snd]; try lia.
  rewrite digits2_pos_shift. lia.
Qed.

Lemma binary_round_aux_bounded (s : bool) (mz : positive) (ez : Z) :
  ez <= fexp prec emax (Zpos (digits2_pos mz) + ez) ->
  match binary_round_aux prec emax s (Zpos mz) ez loc_Exact with
  | S754_finite _ m e => bounded prec emax m e = true
  | _ => True
  end.
Proof.
  intros Hez. unfold binary_round_aux, shr_fexp.
  set (F := fexp prec emax (Zdigits2 (Zpos mz) + ez)).
  assert (HF : 0 <= F - ez) by (unfold F; cbn [Zdigits2]; lia).
  pose proof (shr_digits (shr_record_of_loc (Zpos mz) loc_Exact) ez (F - ez) HF)
    as Hshr1.
  rewrite shr_m_of_loc in Hshr1. specialize (Hshr1 ltac:(lia)).
  destruct (shr (shr_record_of_loc (Zpos mz) loc_Exact) ez (F - ez)) as [mrs' e'].
  cbn [fst snd] in Hshr1. destruct Hshr1 as (He' & Hq0 & Hqd).
  set (m1 := round_nearest_even (shr_m mrs') (loc_of_shr_record mrs')).
  pose proof (round_nearest_even_bounds (shr_m mrs') (loc_of_shr_record mrs')) as Hm1.
  fold m1 in Hm1.
  pose proof (Zdigits2_mono (shr_m mrs') m1 ltac:(lia)) as Hmono.
  set (F2 := fexp prec emax (Zdigits2 m1 + e')).
  assert (HF2 : 0 <= F2 - e').
  { unfold F2. pose proof (fexp_mono (Zdigits2 (Zpos mz) + ez) (Zdigits2 m1 + e')) as Hfm.
    fold F in Hfm. lia. }
  pose proof (shr_digits (shr_record_of_loc m1 loc_Exact) e' (F2 - e') HF2) as Hshr2.
  rewrite shr_m_of_loc in Hshr2. specialize (Hshr2 ltac:(lia)).
  destruct (shr (shr_record_of_loc m1 loc_Exact) e' (F2 - e')) as [mrs'' e''].
  cbn [fst snd] in Hshr2. destruct Hshr2 as (He'' & Hr0 & Hrd).
  destruct (shr_m mrs'') as [|m''|m''] eqn:Hm''; [exact I | | exact I].
  destruct (e'' <=? emax - prec) eqn:Hle; [|exact I].
  unfold bounded, canonical_mantissa. rewrite Hle, andb_true_r.
  apply Z.eqb_eq. cbn [Zdigits2] in Hrd.
  replace (Zpos (digits2_pos m'') + e'') with (Zdigits2 m1 + e') by lia.
  fold F2. lia.
Qed.

Lemma binary_round_bounded (s : bool) (m : positive) (e : Z) :
  match binary_round prec emax s m e with
  | S754_finite _ m' e' => bounded prec emax m' e' = true
  | _ => True
  end.
Proof.
  unfold binary_round.
  pose proof (shl_align_digits m e (fexp prec emax (Zpos (digits2_pos m) + e)))
    as [Hd He].
  destruct (shl_align m e _) as [mz ez]. cbn [fst snd] in Hd, He.
  apply binary_round_aux_bounded. rewrite Hd. exact He.
Qed.

(** A canonical number is a fixed point of [binary_round], whatever the
    number of trailing zeros its mantissa is written with. *)
Lemma binary_round_scaled (s : bool) (m : positive) (e : Z) (k : positive) :
  bounded prec emax m e = true ->
  binary_round prec emax s (Pos.iter xO m k) (e - Zpos k) = S754_finite s m e.
Proof.
  unfold bounded, canonical_mantissa. intros Hb.
  apply andb_true_iff in Hb as [Hc He]. apply Z.eqb_eq in Hc.
  unfold binary_round.
  replace (Zpos (digits2_pos (Pos.iter xO m k)) + (e - Zpos k))
    with (Zpos (digits2_pos m) + e) by (rewrite digits2_pos_shift; lia).
  rewrite Hc. unfold shl_align.
  replace (e - (e - Zpos k)) with (Zpos k) by lia.
  unfold binary_round_aux, shr_fexp. cbn [Zdigits2].
  replace (Zpos (digits2_pos (Pos.iter xO m k)) + (e - Zpos k))
    with (Zpos (digits2_pos m) + e) by (rewrite digits2_pos_shift; lia).
  rewrite Hc.
  replace (e - (e - Zpos k)) with (Zpos k) by lia.
  cbn [shr shr_record_of_loc]. rewrite iter_shr_1_trailing.
  cbn [loc_of_shr_record shr_m round_nearest_even Zdigits2].
  replace (e - Zpos k + Zpos k) with e by lia.
  rewrite Hc, Z.sub_diag. cbn [shr shr_m]. rewrite He. reflexivity.
Qed.
End Canonical.

(** A number written with too few digits is padded with zeros. *)
Lemma binary_round_padded (prec emax : Z) (s : bool) (m : positive) (e : Z)
    (k : positive) :
  fexp prec emax (Zpos (digits2_pos m) + e) = e - Zpos k ->
  e - Zpos k <= emax - prec ->
  binary_round prec emax s m e = S754_finite s (Pos.iter xO m k) (e - Zpos k).
Proof.
  intros Hf He. unfold binary_round. rewrite Hf. unfold shl_align.
  replace (e - Zpos k - e) with (Zneg k) by lia.
  unfold binary_round_aux, shr_fexp. cbn [Zdigits2].
  replace (Zpos (digits2_pos (Pos.iter xO m k)) + (e - Zpos k))
    with (Zpos (digits2_pos m) + e) by (rewrite digits2_pos_shift; lia).
  rewrite Hf, Z.sub_diag.
  cbn [shr shr_record_of_loc loc_of_shr_record shr_m round_nearest_even Zdigits2].
  replace (Zpos (digits2_pos (Pos.iter xO m k)) + (e - Zpos k))
    with (Zpos (digits2_pos m) + e) by (rewrite digits2_pos_shift; lia).
  rewrite Hf, Z.sub_diag. cbn [shr shr_m].
  destruct (Z.leb_spec (e - Zpos k) (emax - prec)); [reflexivity | lia].
Qed.

(** Widening a binary32 number to binary64 and narrowing it again. *)
Lemma binary32_widen (s : bool) (m : positive) (e : Z) :
  bounded 24 128 m e = true ->
  exists k : positive,
    binary_round 53 1024 s m e = S754_finite s (Pos.iter xO m k) (e - Zpos k).
Proof.
  intros Hb. pose proof Hb as Hb'.
  unfold bounded, canonical_mantissa in Hb'.
  apply andb_true_iff in Hb' as [Hc He].
  apply Z.eqb_eq in Hc. apply Z.leb_le in He. unfold fexp, emin in Hc.
  destruct (53 - Zpos (digits2_pos m)) as [|k|k] eqn:Hk; try lia.
  exists k. apply binary_round_padded; [unfold fexp, emin|]; lia.
Qed.

Lemma fround_idempotent (v : float) : fround (fround v) = fround v.
Proof.
  destruct v as [s|s| |s m e]; try reflexivity.
  unfold fround at 2 3.
  pose proof (binary_round_bounded 24 128 s m e) as Hb.
  destruct (binary_round 24 128 s m e) as [s1|s1| |s1 m1 e1]; try reflexivity.
  destruct (binary32_widen s1 m1 e1 Hb) as [k Hk].
  rewrite Hk. unfold fround.
  rewrite (binary_round_scaled 24 128 s1 m1 e1 k Hb). exact Hk.
Qed.

Lemma is_float32_fround (v : float) : is_float32 (fround v).
Proof. apply fround_idempotent. Qed.

End Rounding.

(** ** The constraint accumulator *)

Ltac destruct_solver s :=
  destruct s as [f_iterations f_h f_a f_b f_eps f_k f_d f_G f_MinvTrace f_Fext
                 f_q f_qdot f_n f_upper f_lower f_hasupper f_haslower f_i f_j
                 f_vx f_vy f_vz f_wx f_wy f_wz f_debug].

(** Assignments to a literal object, reduced innermost first. *)
Ltac solver_red :=
  cbv [set_iterations set_G set_MinvTrace set_Fext set_q set_qdot set_n
       set_upper set_lower set_hasupper set_haslower set_i set_j
       set_vxlambda set_vylambda set_vzlambda set_wxlambda set_wylambda
       set_wzlambda set_debug
       iterations h a b eps k d G MinvTrace Fext q qdot n upper lower hasupper
       haslower i j vxlambda vylambda vzlambda wxlambda wylambda wzlambda debug].

Section Accumulator.
Context `{StringCoercion} `{Vec3Methods}.

Lemma push_slots (G' M' q' qd' F' : list jsval) (s : Solver) :
  fold_left (push_slot G' M' q' qd' F') (seq 0 12) s =
  set_Fext (set_G (set_MinvTrace (set_qdot (set_q s (q s ++ row12 q'))
    (qdot s ++ row12 qd')) (MinvTrace s ++ row12 M')) (G s ++ row12 G'))
    (Fext s ++ row12 F').
Proof.
  destruct_solver s. unfold row12.
  cbv [fold_left seq map push_slot
       set_G set_MinvTrace set_Fext set_q set_qdot
       iterations h a b eps k d G MinvTrace Fext q qdot n upper lower hasupper
       haslower i j vxlambda vylambda vzlambda wxlambda wylambda wzlambda debug].
  rewrite <- !app_assoc. reflexivity.
Qed.

Lemma addConstraint_unfold (s : Solver) (G' M' q' qd' F' : list jsval)
    (lo up : jsval) (bi bj : Z) :
  addConstraint s G' M' q' qd' F' lo up bi bj =
  match i s with
  | Int16Array _ => Throw (pushed s G' M' q' qd' F' lo up)
  | PlainArray elts =>
      Normal (n s)
        (set_n (set_j (set_i (pushed s G' M' q' qd' F' lo up)
                         (PlainArray (elts ++ [bi]))) (j s ++ [bj])) (n s + 1))
  end.
Proof.
  unfold addConstraint. rewrite push_slots.
  destruct_solver s. unfold pushed. solver_red.
  destruct f_i; [|reflexivity].
  f_equal. lia.
Qed.

Lemma length_row12 (r : list jsval) : length (row12 r) = 12.
Proof. reflexivity. Qed.

Lemma row12_nums12 (v0 v1 v2 v3 v4 v5 v6 v7 v8 v9 v10 v11 : float) :
  row12 (nums [v0; v1; v2; v3; v4; v5; v6; v7; v8; v9; v10; v11]) =
  nums [v0; v1; v2; v3; v4; v5; v6; v7; v8; v9; v10; v11].
Proof. reflexivity. Qed.

Lemma addNonPenetrationConstraint_unfold (s : Solver) (p : ContactArgs) :
  addNonPenetrationConstraint_with s p =
  if (penetration_depth p <? pzero)%js then
    discard (addConstraint s (contact_jacobian p)
      (nums [ Vec3.x (ct_iMi p); Vec3.y (ct_iMi p); Vec3.z (ct_iMi p);
              Vec3.z (ct_iIi p); Vec3.y (ct_iIi p); Vec3.z (ct_iIi p);
              Vec3.x (ct_iMj p); Vec3.y (ct_iMj p); Vec3.z (ct_iMj p);
              Vec3.z (ct_iIj p); Vec3.y (ct_iIj p); Vec3.z (ct_iIj p) ])
      (contact_violation p)
      (nums [ (- Vec3.x (vsub (ct_vj p) (ct_vi p)))%js;
              (- Vec3.y (vsub (ct_vj p) (ct_vi p)))%js;
              (- Vec3.z (vsub (ct_vj p) (ct_vi p)))%js;
              pzero; pzero; pzero;
              Vec3.x (vsub (ct_vj p) (ct_vi p));
              Vec3.y (vsub (ct_vj p) (ct_vi p));
              Vec3.z (vsub (ct_vj p) (ct_vi p));
              pzero; pzero; pzero ])
      (nums [ Vec3.x (ct_fi p); Vec3.y (ct_fi p); Vec3.z (ct_fi p);
              Vec3.x (ct_taui p); Vec3.y (ct_taui p); Vec3.z (ct_taui p);
              Vec3.x (ct_fj p); Vec3.y (ct_fj p); Vec3.z (ct_fj p);
              Vec3.x (ct_tauj p); Vec3.y (ct_tauj p); Vec3.z (ct_tauj p) ])
      (VNum pzero) (VStr "inf") (ct_i p) (ct_j p))
  else Normal tt s.
Proof.
  unfold addNonPenetrationConstraint_with, addNonPenetrationConstraint,
    penetration_depth, separation, contact_jacobian, contact_violation, discard.
  cbv zeta. destruct (flt _ pzero); reflexivity.
Qed.

(** C2. A call of [addNonPenetrationConstraint] whose signed penetration
    depth [q = ((xj + rj) - (xi + ri)) . n] satisfies [q >= 0] returns
    normally and leaves the whole solver object as it was: [n] and every
    array are unchanged. *)
Theorem addNonPenetrationConstraint_skips_separated (s : Solver) (p : ContactArgs) :
  fle pzero (penetration_depth p) = true ->
  addNonPenetrationConstraint_with s p = Normal tt s.
Proof.
  intros Hq. rewrite addNonPenetrationConstraint_unfold.
  rewrite (flt_zero_of_fle _ Hq). reflexivity.
Qed.


Lemma row12_contact_jacobian (p : ContactArgs) :
  row12 (contact_jacobian p) = contact_jacobian p.
Proof. reflexivity. Qed.

Lemma row12_contact_violation (p : ContactArgs) :
  row12 (contact_violation p) = contact_violation p.
Proof. reflexivity. Qed.

Lemma gt_nan (lam : float) : (lam >? nan)%js = false.
Proof. reflexivity. Qed.

(** The fields of the object that [addConstraint] leaves behind, whether it
    returns or throws. *)
Lemma addConstraint_final (s : Solver) (G' M' q' qd' F' : list jsval)
    (lo up : jsval) (bi bj : Z) :
  let s' := final_state (addConstraint s G' M' q' qd' F' lo up bi bj) in
  G s' = G s ++ row12 G' /\ MinvTrace s' = MinvTrace s ++ row12 M' /\
  q s' = q s ++ row12 q' /\ qdot s' = qdot s ++ row12 qd' /\
  Fext s' = Fext s ++ row12 F' /\
  lower s' = lower s ++ [lo] /\ upper s' = upper s ++ [up] /\
  haslower s' = haslower s ++ [negb (isNaN lo)] /\
  hasupper s' = hasupper s ++ [negb (isNaN up)] /\
  deltas s' = deltas s /\ iterations s' = iterations s.
Proof.
  rewrite addConstraint_unfold.
  destruct_solver s. unfold pushed, deltas. solver_red.
  destruct f_i; cbv [final_state]; repeat split; reflexivity.
Qed.

Lemma final_state_discard {A : Type} (r : completion A) :
  final_state (discard r) = final_state r.
Proof. destruct r; reflexivity. Qed.

(** C4 (amended). When the penetration depth is negative,
    [addNonPenetrationConstraint] passes to [addConstraint] the Jacobian row
    [[-n, -(ri x n), n, ri x n]] (the same [ri x n] in both angular blocks),
    the violation row [[-q, 0,0,0, q, 0,0,0]], the lower bound [0] and, as
    upper bound, the string ['inf'] rather than the number +Infinity.  These
    are what the object stores, whether or not the call returns.  The string
    is not numeric: the flag recorded for the upper bound is [false], and no
    impulse compares greater than it. *)
Theorem addNonPenetrationConstraint_rows (s : Solver) (p : ContactArgs) :
  (penetration_depth p <? pzero)%js = true ->
  let s' := final_state (addNonPenetrationConstraint_with s p) in
  (exists M' qd' F',
     addNonPenetrationConstraint_with s p =
     discard (addConstraint s (contact_jacobian p) M' (contact_violation p) qd' F'
                (VNum pzero) (VStr "inf") (ct_i p) (ct_j p))) /\
  G s' = G s ++ contact_jacobian p /\
  q s' = q s ++ contact_violation p /\
  lower s' = lower s ++ [VNum pzero] /\
  upper s' = upper s ++ [VStr "inf"] /\
  haslower s' = haslower s ++ [true] /\
  (StringToNumber "inf" = nan ->
   hasupper s' = hasupper s ++ [false] /\
   forall lam : float, (lam >? ToNumber (VStr "inf"))%js = false).
Proof.
  intros Hq s'. subst s'.
  rewrite addNonPenetrationConstraint_unfold, Hq.
  split; [eauto|].
  rewrite final_state_discard.
  match goal with
  | |- context [addConstraint s ?g ?m ?v ?w ?f ?lo ?up ?bi ?bj] =>
      destruct (addConstraint_final s g m v w f lo up bi bj)
        as (HG & _ & Hq' & _ & _ & Hlo & Hup & Hhl & Hhu & _)
  end.
  rewrite row12_contact_jacobian in HG. rewrite row12_contact_violation in Hq'.
  repeat (split; [assumption|]).
  intros Hinf. split.
  - rewrite Hhu. unfold isNaN. cbn [ToNumber]. rewrite Hinf. reflexivity.
  - intros lam. cbn [ToNumber]. rewrite Hinf. apply gt_nan.
Qed.

(** C6 (amended). A call of [addConstraint] made while [this.i] is still a
    plain array (after [reset], before [solve]) returns normally, increments
    [n] by exactly one, returns the new constraint's index [n - 1], and
    records as [hasLower] and [hasUpper] whether the bound argument is not
    NaN once coerced to a number: the flag is [true] for every number but
    NaN, the infinities included, and [false] for NaN and [undefined]. *)
Theorem addConstraint_increments_n (s : Solver) (G' M' q' qd' F' : list jsval)
    (lo up : jsval) (bi bj : Z) (elts : list Z) :
  i s = PlainArray elts ->
  exists s',
    addConstraint s G' M' q' qd' F' lo up bi bj = Normal (n s' - 1) s' /\
    n s' = n s + 1 /\
    haslower s' = haslower s ++ [negb (is_nan (ToNumber lo))] /\
    hasupper s' = hasupper s ++ [negb (is_nan (ToNumber up))] /\
    (forall v : float, negb (isNaN (VNum v)) = negb (is_nan v)) /\
    negb (isNaN (VNum pinf)) = true /\ negb (isNaN (VNum ninf)) = true /\
    negb (isNaN (VNum nan)) = false /\ negb (isNaN VUndef) = false.
Proof.
  intros Hi. rewrite addConstraint_unfold, Hi.
  eexists. split; [|split; [|split; [|split]]].
  - f_equal. destruct_solver s. unfold pushed. solver_red. lia.
  - destruct_solver s. reflexivity.
  - destruct_solver s. reflexivity.
  - destruct_solver s. reflexivity.
  - repeat split.
Qed.

End Accumulator.

Lemma addNonPenetrationConstraint_skips_separated_witness :
  fle pzero (@penetration_depth std_vec3 (sample_contact 3)) = true /\
  @addNonPenetrationConstraint_with sample_host std_vec3 sample_solver (sample_contact 3)
  = Normal tt sample_solver.
Proof.
  split; [vm_compute; reflexivity|].
  apply (@addNonPenetrationConstraint_skips_separated sample_host std_vec3).
  vm_compute; reflexivity.
Defined.

Lemma addNonPenetrationConstraint_rows_witness :
  (@penetration_depth std_vec3 (sample_contact (-3)) <? pzero)%js = true /\
  upper (final_state (@addNonPenetrationConstraint_with sample_host std_vec3
                        sample_solver (sample_contact (-3)))) = [VStr "inf"] /\
  hasupper (final_state (@addNonPenetrationConstraint_with sample_host std_vec3
                           sample_solver (sample_contact (-3)))) = [false].
Proof.
  assert (Hq : (@penetration_depth std_vec3 (sample_contact (-3)) <? pzero)%js = true)
    by (vm_compute; reflexivity).
  destruct (@addNonPenetrationConstraint_rows sample_host std_vec3 sample_solver
              (sample_contact (-3)) Hq) as (_ & _ & _ & _ & Hup & _ & Hflag).
  split; [exact Hq|]. split; [exact Hup|].
  exact (proj1 (Hflag eq_refl)).
Defined.

(** C4, counterexample: the upper bound that reaches the storage is the
    string ['inf'], not the number +Infinity, and the flag recorded for it
    is [false], whereas [addConstraint] records [true] for +Infinity. *)
Lemma addNonPenetrationConstraint_upper_is_not_infinity :
  upper (final_state (@addNonPenetrationConstraint_with sample_host std_vec3
                        sample_solver (sample_contact (-3)))) <> [VNum pinf] /\
  hasupper (final_state (@addNonPenetrationConstraint_with sample_host std_vec3
                           sample_solver (sample_contact (-3)))) = [false] /\
  hasupper (final_state (@addConstraint_with sample_host sample_solver
                           (sample_constraint 1 (VNum pzero) (VNum pinf) 0 1))) = [true].
Proof.
  split; [|split]; vm_compute; [discriminate | reflexivity | reflexivity].
Qed.

Lemma addConstraint_increments_n_witness :
  exists s',
    @addConstraint sample_host sample_solver (axis_row 1) (axis_row 1) (axis_row 1)
      (axis_row 0) (axis_row 0) (VNum pzero) (VNum pinf) 0 1 = Normal (n s' - 1) s' /\
    n s' = 1.
Proof.
  destruct (@addConstraint_increments_n sample_host sample_solver (axis_row 1)
              (axis_row 1) (axis_row 1) (axis_row 0) (axis_row 0) (VNum pzero)
              (VNum pinf) 0 1 [] eq_refl) as (s' & Hcall & Hn & _).
  exists s'. split; [exact Hcall | exact Hn].
Defined.

(** C6, counterexample: infinite bounds are not finite, yet both flags are
    recorded as [true]; and a call made after [solve] does not return and
    leaves [n] as it was. *)
Lemma addConstraint_flags_and_throw :
  (is_finite ninf = false /\ is_finite pinf = false /\
   haslower (final_state (@addConstraint_with sample_host sample_solver
               (sample_constraint 1 (VNum ninf) (VNum pinf) 0 1))) = [true] /\
   hasupper (final_state (@addConstraint_with sample_host sample_solver
               (sample_constraint 1 (VNum ninf) (VNum pinf) 0 1))) = [true]) /\
  (returned (@addConstraint_with sample_host (@solve sample_host sample_solver)
               (sample_constraint 1 (VNum pzero) (VNum pinf) 0 1)) = None /\
   n (final_state (@addConstraint_with sample_host (@solve sample_host sample_solver)
               (sample_constraint 1 (VNum pzero) (VNum pinf) 0 1))) = 0).
Proof. vm_compute. repeat split. Qed.

(** ** The loops of [solve] *)

Section Loops.
Context `{StringCoercion}.

Lemma state_at_0 (s : Solver) (k : nat) :
  state_at s k 0 = Nat.iter k (sweep (n s) (to_Float32Array (G s))) (solve_setup s).
Proof. reflexivity. Qed.

Lemma state_at_S (s : Solver) (k l : nat) :
  state_at s k (S l) = state_after s k l.
Proof.
  unfold state_after, state_at. rewrite seq_S, fold_left_app. reflexivity.
Qed.

Lemma state_at_next_sweep (s : Solver) (k : nat) :
  state_at s (S k) 0 = state_at s k (n s).
Proof. reflexivity. Qed.

Lemma solve_run_state_at (s : Solver) :
  solve_run s = state_at s (Z.to_nat (iterations s)) 0.
Proof. reflexivity. Qed.

(** Induction over the iterations of the two nested loops. *)
Lemma solve_loop_ind (s : Solver) (P : nat -> nat -> Solver * Scratch -> Prop) :
  P 0 0 (solve_setup s) ->
  (forall k l sw, l < n s -> P k l sw ->
     P k (S l) (inner_body (to_Float32Array (G s)) sw l)) ->
  (forall k sw, P k (n s) sw -> P (S k) 0 sw) ->
  forall k l, l <= n s -> P k l (state_at s k l).
Proof.
  intros Hinit Hbody Hnext.
  assert (Hrow : forall k, P k 0 (state_at s k 0) ->
                 forall l, l <= n s -> P k l (state_at s k l)).
  { intros k H0 l. induction l as [|l IH]; intros Hl; [exact H0|].
    rewrite state_at_S. apply Hbody; [lia|]. apply IH. lia. }
  intros sweeps. induction sweeps as [|sweeps IHk]; intros l Hl.
  - apply Hrow; [exact Hinit | exact Hl].
  - apply Hrow; [|exact Hl].
    rewrite state_at_next_sweep. apply Hnext. apply IHk. lia.
Qed.

Lemma propagate_frame (s : Solver) (G32 : list float) (w : Scratch) (l : nat)
    (bi bj : option Z) :
  without_deltas (propagate s G32 w l bi bj) = without_deltas s.
Proof.
  destruct_solver s.
  cbv [propagate without_deltas
       set_vxlambda set_vylambda set_vzlambda set_wxlambda set_wylambda
       set_wzlambda
       iterations h a b eps k d G MinvTrace Fext q qdot n upper lower hasupper
       haslower i j vxlambda vylambda vzlambda wxlambda wylambda wzlambda debug].
  reflexivity.
Qed.

Lemma inner_body_frame (G32 : list float) (sw : Solver * Scratch) (l : nat) :
  without_deltas (fst (inner_body G32 sw l)) = without_deltas (fst sw).
Proof.
  destruct sw as [s w]. unfold inner_body. cbn [fst].
  apply propagate_frame.
Qed.

Lemma state_at_frame (s : Solver) (k l : nat) :
  l <= n s ->
  without_deltas (fst (state_at s k l)) = without_deltas (fst (solve_setup s)).
Proof.
  apply (solve_loop_ind s (fun _ _ sw =>
           without_deltas (fst sw) = without_deltas (fst (solve_setup s)))).
  - reflexivity.
  - intros k0 l0 sw _ IH. rewrite inner_body_frame. exact IH.
  - intros k0 sw IH. exact IH.
Qed.

Lemma solve_frame (s : Solver) :
  without_deltas (solve s) = without_deltas (fst (solve_setup s)).
Proof.
  unfold solve. rewrite solve_run_state_at. apply state_at_frame. lia.
Qed.
End Loops.

(** ** Sequences of calls *)

Section Steps.
Context `{StringCoercion} `{Vec3Methods}.

Lemma lockstep_reset (s : Solver) (numbodies : nat) :
  lockstep (reset s numbodies) /\ plain (reset s numbodies).
Proof.
  destruct_solver s. split; [repeat split|]. exists []. reflexivity.
Qed.

Lemma lockstep_addConstraint (s : Solver) (G' M' q' qd' F' : list jsval)
    (lo up : jsval) (bi bj : Z) :
  lockstep s -> plain s ->
  exists idx s', addConstraint s G' M' q' qd' F' lo up bi bj = Normal idx s' /\
                 lockstep s' /\ plain s'.
Proof.
  intros HL [elts Hi].
  rewrite addConstraint_unfold, Hi.
  do 2 eexists. split; [reflexivity|].
  destruct_solver s. unfold lockstep, plain, pushed in *. revert HL Hi. solver_red.
  cbv [elements]. intros HL ->.
  rewrite !length_app, !length_row12. cbn [length].
  split; [lia | eauto].
Qed.

Lemma lockstep_addNonPenetrationConstraint (s : Solver) (p : ContactArgs) :
  lockstep s -> plain s ->
  exists s', addNonPenetrationConstraint_with s p = Normal tt s' /\
             lockstep s' /\ plain s'.
Proof.
  intros HL HP. rewrite addNonPenetrationConstraint_unfold.
  destruct (flt _ pzero); [|eauto].
  match goal with
  | |- context [addConstraint s ?g ?m ?v ?w ?f ?lo ?up ?bi ?bj] =>
      destruct (lockstep_addConstraint s g m v w f lo up bi bj HL HP)
        as (idx & s' & Hcall & HL' & HP')
  end.
  rewrite Hcall. cbn [discard]. eauto.
Qed.

Lemma lockstep_without_deltas (s s' : Solver) :
  without_deltas s' = without_deltas s -> lockstep s -> lockstep s'.
Proof.
  destruct_solver s.
  destruct s' as [g_iterations g_h g_a g_b g_eps g_k g_d g_G g_MinvTrace g_Fext
                  g_q g_qdot g_n g_upper g_lower g_hasupper g_haslower g_i g_j
                  g_vx g_vy g_vz g_wx g_wy g_wz g_debug].
  unfold without_deltas, lockstep. solver_red.
  intros Heq. injection Heq as -> -> -> -> -> -> -> -> -> -> -> -> -> -> -> -> -> -> -> ->.
  tauto.
Qed.

Lemma lockstep_solve (s : Solver) : lockstep s -> lockstep (solve s).
Proof.
  intros HL. apply (lockstep_without_deltas (fst (solve_setup s))).
  - apply solve_frame.
  - destruct_solver s. unfold lockstep, solve_setup in *. revert HL. solver_red.
    cbv [fst elements]. destruct f_i; rewrite length_map; tauto.
Qed.

Lemma run_in_step_order (ops : list Call) :
  forall (solved : bool) (s : Solver),
    lockstep s -> (solved = false -> plain s) ->
    in_step_order solved ops = true ->
    exists s', run s ops = Normal tt s' /\ lockstep s'.
Proof.
  induction ops as [|op ops IH]; intros solved s HL HP Hord.
  - exists s. split; [reflexivity | exact HL].
  - destruct op as [numbodies | p | p | ]; cbn [run call]; cbn [in_step_order] in Hord.
    + destruct (lockstep_reset s numbodies) as [HL' HP'].
      apply (IH false); auto.
    + apply andb_true_iff in Hord as [Hs Hord].
      apply negb_true_iff in Hs. subst solved.
      unfold addConstraint_with.
      destruct (lockstep_addConstraint s (arg_G p) (arg_MinvTrace p) (arg_q p)
                  (arg_qdot p) (arg_Fext p) (arg_lower p) (arg_upper p)
                  (arg_body_i p) (arg_body_j p) HL (HP eq_refl))
        as (idx & s' & -> & HL' & HP').
      apply (IH false); auto.
    + apply andb_true_iff in Hord as [Hs Hord].
      apply negb_true_iff in Hs. subst solved.
      destruct (lockstep_addNonPenetrationConstraint s p HL (HP eq_refl))
        as (s' & -> & HL' & HP').
      apply (IH false); auto.
    + apply (IH true); [apply lockstep_solve; exact HL | discriminate | exact Hord].
Qed.

Lemma adds_in_step_order (ops : list Call) :
  forallb is_add ops = true -> in_step_order false ops = true.
Proof.
  induction ops as [|[ | | | ] ops IH]; cbn; intros Hadds; try discriminate; auto.
Qed.

(** C7 (amended). After [reset(bodyCount)] and any sequence of calls of
    [addConstraint] and [addNonPenetrationConstraint], each of the flat
    arrays [G], [MinvTrace], [q], [qdot] and [Fext] has length exactly
    [12 * n], and [lower], [upper], [haslower], [hasupper], [i] and [j] have
    length [n].  More generally every call of a script returns and the
    invariant holds at its end when the script keeps the calling order of a
    step: constraints are added only before [solve] or after a later
    [reset]. *)
Theorem lockstep_in_step_order (s0 : Solver) (numbodies : nat) (ops : list Call) :
  (forallb is_add ops = true \/ in_step_order false ops = true) ->
  exists s', run (reset s0 numbodies) ops = Normal tt s' /\ lockstep s'.
Proof.
  intros Hops.
  assert (Hord : in_step_order false ops = true)
    by (destruct Hops as [Hadds | Hord]; [apply adds_in_step_order|]; assumption).
  destruct (lockstep_reset s0 numbodies) as [HL HP].
  apply (run_in_step_order ops false); auto.
Qed.

Lemma reset_deltas (s : Solver) (numbodies : nat) :
  deltas (reset s numbodies) = replicate 6 (zeros numbodies) /\
  iterations (reset s numbodies) = iterations s.
Proof. destruct_solver s. split; reflexivity. Qed.

Lemma call_add_keeps_deltas (s : Solver) (op : Call) :
  is_add op = true ->
  deltas (final_state (call s op)) = deltas s /\
  iterations (final_state (call s op)) = iterations s.
Proof.
  destruct op as [numbodies | p | p | ]; cbn [is_add call]; try discriminate; intros _.
  - unfold addConstraint_with.
    match goal with
    | |- context [addConstraint s ?g ?m ?v ?w ?f ?lo ?up ?bi ?bj] =>
        destruct (addConstraint_final s g m v w f lo up bi bj)
          as (_ & _ & _ & _ & _ & _ & _ & _ & _ & Hd & Hit);
        destruct (addConstraint s g m v w f lo up bi bj)
    end; cbn [final_state] in *; auto.
  - rewrite addNonPenetrationConstraint_unfold.
    destruct (flt _ pzero); [|cbn [final_state]; auto].
    rewrite final_state_discard.
    match goal with
    | |- context [addConstraint s ?g ?m ?v ?w ?f ?lo ?up ?bi ?bj] =>
        destruct (addConstraint_final s g m v w f lo up bi bj)
          as (_ & _ & _ & _ & _ & _ & _ & _ & _ & Hd & Hit)
    end; auto.
Qed.

Lemma run_adds_keep_deltas (ops : list Call) :
  forall s : Solver,
    forallb is_add ops = true ->
    deltas (final_state (run s ops)) = deltas s /\
    iterations (final_state (run s ops)) = iterations s.
Proof.
  induction ops as [|op ops IH]; intros s Hadds; [split; reflexivity|].
  cbn [forallb] in Hadds. apply andb_true_iff in Hadds as [Hop Hadds].
  destruct (call_add_keeps_deltas s op Hop) as [Hd Hit].
  cbn [run]. destruct (call s op) as [[] s' | s']; cbn [final_state] in Hd, Hit.
  - destruct (IH s' Hadds) as [Hd' Hit']. split; congruence.
  - cbn [final_state]. auto.
Qed.

Lemma solve_no_sweep (s : Solver) :
  iterations s = 0%Z -> solve_run s = solve_setup s.
Proof. intros Hit. unfold solve_run. rewrite Hit. reflexivity. Qed.

Lemma solve_setup_deltas (s : Solver) : deltas (fst (solve_setup s)) = deltas s.
Proof. destruct_solver s. reflexivity. Qed.

(** C8. With [iterations] equal to [0], [solve] performs no sweep: it
    returns the object as its setup left it, and after [reset(numbodies)]
    and any sequence of constraint additions each of the six per-body delta
    arrays still holds [numbodies] zeros. *)
Theorem solve_zero_iterations (s0 : Solver) (numbodies : nat) (ops : list Call) :
  iterations s0 = 0%Z ->
  forallb is_add ops = true ->
  let s := final_state (run (reset s0 numbodies) ops) in
  solve_run s = solve_setup s /\
  deltas (solve s) = replicate 6 (zeros numbodies).
Proof.
  intros Hit Hadds s.
  destruct (reset_deltas s0 numbodies) as [Hd0 Hit0].
  destruct (run_adds_keep_deltas ops (reset s0 numbodies) Hadds) as [Hd Hit'].
  fold s in Hd, Hit'.
  assert (Hs : iterations s = 0%Z) by congruence.
  split; [apply solve_no_sweep; exact Hs|].
  unfold solve. rewrite (solve_no_sweep s Hs), solve_setup_deltas. congruence.
Qed.
End Steps.

Lemma lockstep_in_step_order_witness :
  exists s',
    @run sample_host std_vec3 (reset sample_solver 2)
      [CallAddConstraint (sample_constraint 1 (VNum pzero) (VNum pinf) 0 1);
       CallAddNonPenetrationConstraint (sample_contact (-3));
       CallSolve; CallReset 2] = Normal tt s' /\ lockstep s'.
Proof.
  apply (@lockstep_in_step_order sample_host std_vec3).
  right. vm_compute. reflexivity.
Defined.

(** C7, counterexample: [addConstraint] called after [solve] appends to the
    flat arrays and then throws, since [this.i] is by then an [Int16Array];
    [G] has twelve entries while [n] is still [0]. *)
Lemma lockstep_lost_by_add_after_solve :
  exists s',
    @run sample_host std_vec3 (reset sample_solver 2)
      [CallSolve; CallAddConstraint (sample_constraint 1 (VNum pzero) (VNum pinf) 0 1)]
    = Throw s' /\
    length (G s') = 12 /\ n s' = 0 /\ ~ lockstep s'.
Proof.
  eexists. split; [vm_compute; reflexivity|].
  split; [reflexivity|]. split; [reflexivity|].
  intros [HG _]. vm_compute in HG. discriminate.
Qed.

Lemma solve_zero_iterations_witness :
  deltas (@solve sample_host
            (final_state (@run sample_host std_vec3
               (reset (set_iterations sample_solver 0) 2)
               [CallAddConstraint (sample_constraint 1 (VNum pzero) (VNum pinf) 0 1);
                CallAddNonPenetrationConstraint (sample_contact (-3))])))
  = replicate 6 (zeros 2).
Proof.
  apply (@solve_zero_iterations sample_host std_vec3 (set_iterations sample_solver 0) 2);
    vm_compute; reflexivity.
Defined.

(** ** The inner loop of [solve] *)

(** The pieces of the inner-loop body applied to a literal object. *)
Ltac solve_red :=
  cbv [propagate update_lambda Gulambda clamp_lower clamp_upper lower_fires
       upper_fires array_truthy precompute precompute_sums fold_left seq
       set_iterations set_G set_MinvTrace set_Fext set_q set_qdot set_n
       set_upper set_lower set_hasupper set_haslower set_i set_j
       set_vxlambda set_vylambda set_vzlambda set_wxlambda set_wylambda
       set_wzlambda set_debug
       iterations h a b eps k d G MinvTrace Fext q qdot n upper lower hasupper
       haslower i j vxlambda vylambda vzlambda wxlambda wylambda wzlambda debug].

(** *** Typed-array cells *)

Lemma f32_get_set_eq (arr : list float) (l : nat) (v : float) :
  l < length arr -> f32_get (f32_set arr l v) l = fround v.
Proof.
  intros Hl. unfold f32_get, f32_set.
  rewrite list_lookup_insert_eq by exact Hl. reflexivity.
Qed.

Lemma f32_get_set_ne (arr : list float) (l l' : nat) (v : float) :
  l <> l' -> f32_get (f32_set arr l v) l' = f32_get arr l'.
Proof.
  intros Hl. unfold f32_get, f32_set.
  rewrite list_lookup_insert_ne by exact Hl. reflexivity.
Qed.

Lemma f32_get_out (arr : list float) (l : nat) :
  length arr <= l -> f32_get arr l = nan.
Proof.
  intros Hl. unfold f32_get. rewrite lookup_ge_None_2 by exact Hl. reflexivity.
Qed.

Lemma length_f32_set (arr : list float) (l : nat) (v : float) :
  length (f32_set arr l v) = length arr.
Proof. apply length_insert. Qed.

Lemma f32_get_zeros (m l : nat) : l < m -> f32_get (zeros m) l = pzero.
Proof.
  intros Hl. unfold f32_get, zeros.
  rewrite lookup_replicate_2 by exact Hl. reflexivity.
Qed.

(** *** The constraint storage is read-only in [solve] *)

Section SolveFrame.
Context `{StringCoercion}.

Lemma frozen_fields (s sk : Solver) :
  frozen s sk ->
  G sk = G s /\ MinvTrace sk = MinvTrace s /\ Fext sk = Fext s /\
  q sk = q s /\ qdot sk = qdot s /\
  lower sk = lower s /\ upper sk = upper s /\
  haslower sk = haslower s /\ hasupper sk = hasupper s /\
  i sk = Int16Array (map ToInt16 (elements (i s))) /\ j sk = j s /\
  eps sk = eps s /\ a sk = a s /\ b sk = b s /\ h sk = h s.
Proof.
  unfold frozen. destruct_solver s.
  destruct sk as [g_iterations g_h g_a g_b g_eps g_k g_d g_G g_MinvTrace g_Fext
                  g_q g_qdot g_n g_upper g_lower g_hasupper g_haslower g_i g_j
                  g_vx g_vy g_vz g_wx g_wy g_wz g_debug].
  unfold without_deltas, solve_setup. cbv [fst]. solver_red.
  intros Heq.
  injection Heq as -> -> -> -> -> -> -> -> -> -> -> -> -> -> -> -> -> -> -> ->.
  repeat split.
Qed.

Lemma state_at_frozen (s : Solver) (sweeps l : nat) :
  l <= n s -> frozen s (fst (state_at s sweeps l)).
Proof. apply state_at_frame. Qed.

(** *** The four sums and the cached constants *)

Lemma precompute_sums_spec (s : Solver) (G32 : list float) (l : nat) :
  precompute_sums s G32 l =
  (G_Minv_Gt_sum s G32 l, Gq_sum s G32 l, GW_sum s G32 l, GMinvf_sum s G32 l).
Proof.
  cbv [precompute_sums G_Minv_Gt_sum Gq_sum GW_sum GMinvf_sum slot_sum fold_left seq].
  reflexivity.
Qed.

Lemma sums_frozen (s sk : Solver) (G32 : list float) (l : nat) :
  frozen s sk ->
  G_Minv_Gt_sum sk G32 l = G_Minv_Gt_sum s G32 l /\
  Gq_sum sk G32 l = Gq_sum s G32 l /\
  GW_sum sk G32 l = GW_sum s G32 l /\
  GMinvf_sum sk G32 l = GMinvf_sum s G32 l.
Proof.
  intros Hf.
  destruct (frozen_fields s sk Hf) as (_ & HM & HF & Hq & Hqd & _).
  unfold G_Minv_Gt_sum, Gq_sum, GW_sum, GMinvf_sum.
  rewrite HM, HF, Hq, Hqd. repeat split.
Qed.

Lemma precompute_done (s : Solver) (G32 : list float) (w : Scratch) (l : nat) :
  precomp_done (precomp w) l = true -> precompute s G32 w l = w.
Proof. intros Hd. unfold precompute. rewrite Hd. reflexivity. Qed.

Lemma precompute_first (s : Solver) (G32 : list float) (w : Scratch) (l : nat) :
  precomp_done (precomp w) l = false ->
  precompute s G32 w l =
  mkScratch (lambda w) (dlambda w)
    (f32_set (B w) l (- a s * Gq_sum s G32 l - b s * GW_sum s G32 l
                      - h s * GMinvf_sum s G32 l)%js)
    (f32_set (c w) l (of_Z 1 / (G_Minv_Gt_sum s G32 l + eps s))%js)
    (<[ l := 1%Z ]> (precomp w)).
Proof.
  intros Hd. unfold precompute. rewrite Hd, precompute_sums_spec. reflexivity.
Qed.

Lemma precomp_done_insert (p : list Z) (l l' : nat) :
  l < length p ->
  precomp_done (<[ l := 1%Z ]> p) l' = (l =? l') || precomp_done p l'.
Proof.
  intros Hl. unfold precomp_done.
  destruct (Nat.eqb_spec l l') as [<- | Hne].
  - rewrite list_lookup_insert_eq by exact Hl. reflexivity.
  - rewrite list_lookup_insert_ne by exact Hne. reflexivity.
Qed.

Lemma precomp_done_zeros (m l : nat) : precomp_done (replicate m 0%Z) l = false.
Proof.
  unfold precomp_done. destruct (replicate m 0%Z !! l) as [v|] eqn:Hv; [|reflexivity].
  apply lookup_replicate in Hv as [-> _]. reflexivity.
Qed.

(** The steps after the precomputation leave [B], [c] and [precomp] alone. *)
Lemma update_lambda_cache (s : Solver) G32 w l bi bj :
  B (update_lambda s G32 w l bi bj) = B w /\
  c (update_lambda s G32 w l bi bj) = c w /\
  precomp (update_lambda s G32 w l bi bj) = precomp w.
Proof. repeat split. Qed.

Lemma clamp_lower_cache (s : Solver) w l :
  B (clamp_lower s w l) = B w /\ c (clamp_lower s w l) = c w /\
  precomp (clamp_lower s w l) = precomp w.
Proof. unfold clamp_lower. destruct (lower_fires s w l); repeat split. Qed.

Lemma clamp_upper_cache (s : Solver) w l :
  B (clamp_upper s w l) = B w /\ c (clamp_upper s w l) = c w /\
  precomp (clamp_upper s w l) = precomp w.
Proof. unfold clamp_upper. destruct (upper_fires s w l); repeat split. Qed.

Lemma precompute_sized (s : Solver) G32 w l m :
  sized m w -> sized m (precompute s G32 w l).
Proof.
  intros (H1 & H2 & H3 & H4 & H5). unfold precompute.
  destruct (precomp_done (precomp w) l); [repeat split; assumption|].
  destruct (precompute_sums s G32 l) as [[[s1 s2] s3] s4].
  unfold sized. cbn. rewrite !length_f32_set, length_insert. auto.
Qed.

Lemma update_lambda_sized (s : Solver) G32 w l bi bj m :
  sized m w -> sized m (update_lambda s G32 w l bi bj).
Proof.
  intros (H1 & H2 & H3 & H4 & H5). unfold update_lambda, sized. cbn.
  rewrite !length_f32_set. auto.
Qed.

Lemma clamp_lower_sized (s : Solver) w l m :
  sized m w -> sized m (clamp_lower s w l).
Proof.
  intros (H1 & H2 & H3 & H4 & H5). unfold clamp_lower.
  destruct (lower_fires s w l); unfold sized; cbn; rewrite ?length_f32_set; auto.
Qed.

Lemma clamp_upper_sized (s : Solver) w l m :
  sized m w -> sized m (clamp_upper s w l).
Proof.
  intros (H1 & H2 & H3 & H4 & H5). unfold clamp_upper.
  destruct (upper_fires s w l); unfold sized; cbn; rewrite ?length_f32_set; auto.
Qed.

Lemma state_after_unfold (s : Solver) (sweeps l : nat) :
  state_after s sweeps l =
  (propagate (fst (state_at s sweeps l)) (to_Float32Array (G s)) (clamped s sweeps l) l
     (elements (i (fst (state_at s sweeps l))) !! l) (j (fst (state_at s sweeps l)) !! l),
   clamped s sweeps l).
Proof.
  unfold state_after, clamped, unclamped.
  destruct (state_at s sweeps l) as [sk w]. reflexivity.
Qed.

End SolveFrame.

(** ** The upper-bound flag *)

Section HasUpper.
Context `{StringCoercion}.

Ltac by_solver_fields s := destruct_solver s; solve_red; reflexivity.

Lemma precompute_hasupper (s : Solver) (hu : list bool) G32 w l :
  precompute (set_hasupper s hu) G32 w l = precompute s G32 w l.
Proof. by_solver_fields s. Qed.

Lemma update_lambda_hasupper (s : Solver) (hu : list bool) G32 w l bi bj :
  update_lambda (set_hasupper s hu) G32 w l bi bj = update_lambda s G32 w l bi bj.
Proof. by_solver_fields s. Qed.

Lemma clamp_lower_hasupper (s : Solver) (hu : list bool) w l :
  clamp_lower (set_hasupper s hu) w l = clamp_lower s w l.
Proof. by_solver_fields s. Qed.

Lemma clamp_upper_hasupper (s : Solver) (hu : list bool) w l :
  clamp_upper (set_hasupper s hu) w l = clamp_upper s w l.
Proof. by_solver_fields s. Qed.

Lemma propagate_hasupper (s : Solver) (hu : list bool) G32 w l bi bj :
  propagate (set_hasupper s hu) G32 w l bi bj =
  set_hasupper (propagate s G32 w l bi bj) hu.
Proof. by_solver_fields s. Qed.

Lemma inner_body_hasupper (hu : list bool) (G32 : list float)
    (sw : Solver * Scratch) (l : nat) :
  inner_body G32 (with_hasupper hu sw) l = with_hasupper hu (inner_body G32 sw l).
Proof.
  destruct sw as [s w]. unfold inner_body, with_hasupper. cbn [fst snd].
  rewrite precompute_hasupper, update_lambda_hasupper, clamp_lower_hasupper,
    clamp_upper_hasupper, propagate_hasupper.
  replace (i (set_hasupper s hu)) with (i s) by (destruct_solver s; reflexivity).
  replace (j (set_hasupper s hu)) with (j s) by (destruct_solver s; reflexivity).
  reflexivity.
Qed.

Lemma fold_inner_body_hasupper (hu : list bool) (G32 : list float) (ls : list nat) :
  forall sw, fold_left (inner_body G32) ls (with_hasupper hu sw) =
             with_hasupper hu (fold_left (inner_body G32) ls sw).
Proof.
  induction ls as [|l ls IH]; intros sw; [reflexivity|].
  cbn [fold_left]. rewrite inner_body_hasupper. apply IH.
Qed.

Lemma iter_sweep_hasupper (hu : list bool) (G32 : list float) (m sweeps : nat)
    (sw : Solver * Scratch) :
  Nat.iter sweeps (sweep m G32) (with_hasupper hu sw) =
  with_hasupper hu (Nat.iter sweeps (sweep m G32) sw).
Proof.
  induction sweeps as [|sweeps IH]; [reflexivity|].
  rewrite !Nat.iter_succ, IH. apply fold_inner_body_hasupper.
Qed.

Lemma solve_run_hasupper (s : Solver) (hu : list bool) :
  solve_run (set_hasupper s hu) = with_hasupper hu (solve_run s).
Proof.
  unfold solve_run.
  replace (solve_setup (set_hasupper s hu)) with (with_hasupper hu (solve_setup s))
    by (destruct_solver s; reflexivity).
  replace (G (set_hasupper s hu)) with (G s) by (destruct_solver s; reflexivity).
  replace (n (set_hasupper s hu)) with (n s) by (destruct_solver s; reflexivity).
  replace (iterations (set_hasupper s hu)) with (iterations s)
    by (destruct_solver s; reflexivity).
  apply iter_sweep_hasupper.
Qed.

(** C3. The condition of the upper clamp tests the array [this.hasupper]
    itself, which is truthy, so the clamp fires exactly when
    [lambda[l] > upper[l]]; and [solve] computes the same deltas and the same
    impulses whatever flags [hasupper] holds. *)
Theorem upper_clamp_ignores_hasupper (s : Solver) (hu : list bool) :
  (forall (w : Scratch) (l : nat),
     upper_fires s w l = (f32_get (lambda w) l >? cell (upper s) l)%js) /\
  solve (set_hasupper s hu) = set_hasupper (solve s) hu /\
  snd (solve_run (set_hasupper s hu)) = snd (solve_run s).
Proof.
  split; [reflexivity|].
  unfold solve. rewrite solve_run_hasupper. split; reflexivity.
Qed.
End HasUpper.

(** ** The cached constants and the impulse update *)

Section Cache.
Context `{StringCoercion}.

Lemma Gulambda_spec (s : Solver) (G32 : list float) (l : nat) (bi bj : option Z) :
  Gulambda s G32 l bi bj =
  row_dot (jacobian_row G32 l) (body_deltas s bi ++ body_deltas s bj).
Proof.
  cbv [Gulambda row_dot jacobian_row body_deltas zip zip_with fold_left map seq app fst snd].
  rewrite !(Nat.add_comm _ (12 * l)). reflexivity.
Qed.

Lemma precompute_lambda (s : Solver) (G32 : list float) (w : Scratch) (l : nat) :
  lambda (precompute s G32 w l) = lambda w /\
  dlambda (precompute s G32 w l) = dlambda w.
Proof.
  unfold precompute. destruct (precomp_done (precomp w) l); [split; reflexivity|].
  destruct (precompute_sums s G32 l) as [[[s1 s2] s3] s4]. split; reflexivity.
Qed.

Lemma cache_inv_setup (s : Solver) : cache_inv s 0 0 (solve_setup s).
Proof.
  split; [reflexivity|]. split; [|split].
  - destruct_solver s. unfold sized, solve_setup, zeros. cbn.
    rewrite !length_replicate. auto.
  - intros l' _. unfold solve_setup. cbn [snd precomp].
    replace (n (set_i s _)) with (n s) by (destruct_solver s; reflexivity).
    rewrite precomp_done_zeros. reflexivity.
  - intros l'. unfold solve_setup. cbn [snd precomp].
    replace (n (set_i s _)) with (n s) by (destruct_solver s; reflexivity).
    rewrite precomp_done_zeros. discriminate.
Qed.

Lemma cache_inv_precompute (s : Solver) (sweeps l : nat) (sk : Solver) (w : Scratch) :
  l < n s -> cache_inv s sweeps l (sk, w) ->
  cache_inv s sweeps (S l) (sk, precompute sk (to_Float32Array (G s)) w l) /\
  (precomp_done (precomp w) l = negb (sweeps =? 0)).
Proof.
  intros Hl (Hf & Hs & Hd & Hc). cbn [fst snd] in *.
  assert (Hdl : precomp_done (precomp w) l = negb (sweeps =? 0)).
  { rewrite (Hd l Hl), Nat.ltb_irrefl, orb_false_r. reflexivity. }
  split; [|exact Hdl].
  split; [exact Hf|]. split; [apply precompute_sized; exact Hs|]. cbn [fst snd].
  destruct (precomp_done (precomp w) l) eqn:Hdone.
  - rewrite precompute_done by exact Hdone. split; [|exact Hc].
    intros l' Hl'. rewrite (Hd l' Hl'), <- Hdl. reflexivity.
  - rewrite precompute_first by exact Hdone. cbn [precomp c B].
    destruct Hs as (_ & _ & HB & Hcl & Hp).
    assert (H0 : (sweeps =? 0) = true) by (destruct (sweeps =? 0); [reflexivity|discriminate]).
    split.
    + intros l' Hl'. rewrite precomp_done_insert by lia.
      rewrite (Hd l' Hl'), H0. cbn [negb orb].
      destruct (Nat.eqb_spec l l'), (Nat.ltb_spec l' l), (Nat.ltb_spec l' (S l));
        try reflexivity; lia.
    + intros l'. rewrite precomp_done_insert by lia.
      destruct (Nat.eqb_spec l l') as [<- | Hne]; cbn [orb].
      * intros _. rewrite !f32_get_set_eq by lia.
        destruct (sums_frozen s sk (to_Float32Array (G s)) l Hf) as (-> & -> & -> & ->).
        destruct (frozen_fields s sk Hf)
          as (_ & _ & _ & _ & _ & _ & _ & _ & _ & _ & _ & -> & -> & -> & ->).
        unfold effectiveInverseMass, biasTerm. split; reflexivity.
      * intros Hdone'. rewrite !f32_get_set_ne by exact Hne. apply Hc. exact Hdone'.
Qed.

Lemma cache_inv_rest (s : Solver) (sweeps l : nat) (sk sk' : Solver) (w w' : Scratch) :
  cache_inv s sweeps l (sk, w) ->
  frozen s sk' -> sized (n s) w' ->
  B w' = B w -> c w' = c w -> precomp w' = precomp w ->
  cache_inv s sweeps l (sk', w').
Proof.
  intros (Hf & Hs & Hd & Hc) Hf' Hs' HB Hcc Hp. cbn [fst snd] in *.
  split; [exact Hf'|]. split; [exact Hs'|]. cbn [fst snd].
  rewrite HB, Hcc, Hp. split; assumption.
Qed.

Lemma cache_inv_body (s : Solver) (sweeps l : nat) (sw : Solver * Scratch) :
  l < n s -> cache_inv s sweeps l sw ->
  cache_inv s sweeps (S l) (inner_body (to_Float32Array (G s)) sw l).
Proof.
  intros Hl Hinv. destruct sw as [sk w].
  destruct (cache_inv_precompute s sweeps l sk w Hl Hinv) as [Hinv1 _].
  unfold inner_body.
  set (G32 := to_Float32Array (G s)) in *.
  set (w1 := precompute sk G32 w l) in *.
  set (bi := elements (i sk) !! l). set (bj := j sk !! l).
  set (w2 := update_lambda sk G32 w1 l bi bj).
  set (w3 := clamp_lower sk w2 l).
  set (w4 := clamp_upper sk w3 l).
  destruct (update_lambda_cache sk G32 w1 l bi bj) as (HB2 & Hc2 & Hp2).
  destruct (clamp_lower_cache sk w2 l) as (HB3 & Hc3 & Hp3).
  destruct (clamp_upper_cache sk w3 l) as (HB4 & Hc4 & Hp4).
  fold w2 in HB2, Hc2, Hp2. fold w3 in HB3, Hc3, Hp3. fold w4 in HB4, Hc4, Hp4.
  apply (cache_inv_rest s sweeps (S l) sk _ w1 w4 Hinv1).
  - unfold frozen. rewrite propagate_frame. apply Hinv1.
  - apply clamp_upper_sized, clamp_lower_sized, update_lambda_sized. apply Hinv1.
  - congruence.
  - congruence.
  - congruence.
Qed.

Lemma cache_inv_state_at (s : Solver) (sweeps l : nat) :
  l <= n s -> cache_inv s sweeps l (state_at s sweeps l).
Proof.
  apply (solve_loop_ind s (cache_inv s)).
  - apply cache_inv_setup.
  - intros sweeps0 l0 sw Hl0. apply cache_inv_body. exact Hl0.
  - intros sweeps0 sw (Hf & Hs & Hd & Hc).
    split; [exact Hf|]. split; [exact Hs|]. split; [|exact Hc].
    intros l' Hl'. rewrite (Hd l' Hl').
    destruct (Nat.ltb_spec l' (n s)); [|lia]. rewrite orb_true_r. reflexivity.
Qed.

(** C1. In sweep [sweeps] of [solve], on reaching constraint [l]: the
    constraint is touched for the first time exactly in sweep [0]; then
    [G_Minv_Gt], [Gq], [GW] and [GMinvf] are computed as sums over its
    twelve slots and the single-precision cells [c[l]] and [B[l]] receive
    [1/(G_Minv_Gt + eps)] and [-a*Gq - b*GW - h*GMinvf]; in later sweeps the
    precomputation changes nothing and the cells still hold these values.
    In every sweep [dlambda[l]] is set to [c[l] * (B[l] - Gu - eps*lambda[l])]
    and [lambda[l]] is incremented by it, where [Gu] is the dot product of
    the constraint's Jacobian row with the current velocity deltas of the
    bodies [i[l]] and [j[l]]; the clamps follow.  Each store into a typed
    array rounds to single precision ([fround]). *)
Theorem solve_iteration (s : Solver) (sweeps l : nat) :
  l < n s ->
  let G32 := to_Float32Array (G s) in
  let sw := state_at s sweeps l in
  let body_i := elements (i (fst sw)) !! l in
  let body_j := j (fst sw) !! l in
  let w1 := precompute (fst sw) G32 (snd sw) l in
  let w2 := unclamped s sweeps l in
  let Gu := row_dot (jacobian_row G32 l)
              (body_deltas (fst sw) body_i ++ body_deltas (fst sw) body_j) in
  precomp_done (precomp (snd sw)) l = negb (sweeps =? 0) /\
  (precomp_done (precomp (snd sw)) l = true -> w1 = snd sw) /\
  f32_get (c w1) l = effectiveInverseMass s G32 l /\
  f32_get (B w1) l = biasTerm s G32 l /\
  body_i = ToInt16 <$> (elements (i s) !! l) /\ body_j = j s !! l /\
  f32_get (dlambda w2) l =
    fround (f32_get (c w1) l
            * (f32_get (B w1) l - Gu - eps s * f32_get (lambda (snd sw)) l))%js /\
  f32_get (lambda w2) l =
    fround (f32_get (lambda (snd sw)) l + f32_get (dlambda w2) l)%js /\
  snd (state_after s sweeps l) =
    clamp_upper (fst sw) (clamp_lower (fst sw) w2 l) l.
Proof.
  intros Hl G32 sw body_i body_j w1 w2 Gu.
  pose proof (cache_inv_state_at s sweeps l (Nat.lt_le_incl _ _ Hl)) as Hinv.
  fold sw in Hinv. 
  assert (Hsw : sw = (fst sw, snd sw)) by (destruct sw; reflexivity).
  rewrite Hsw in Hinv.
  destruct (cache_inv_precompute s sweeps l (fst sw) (snd sw) Hl Hinv)
    as [(Hf & Hs1 & Hd1 & Hc1) Hdl].
  cbn [fst snd] in Hf, Hs1, Hd1, Hc1. fold G32 w1 in Hs1, Hd1, Hc1.
  destruct (frozen_fields s (fst sw) Hf)
    as (_ & _ & _ & _ & _ & _ & _ & _ & _ & Hi & Hj & Heps & _).
  assert (Hdone1 : precomp_done (precomp w1) l = true).
  { rewrite (Hd1 l Hl). destruct (Nat.ltb_spec l (S l)); [|lia].
    apply orb_true_r. }
  destruct (Hc1 l Hdone1) as [HcE HbE].
  destruct Hs1 as (Hlen1 & Hlen2 & _).
  split; [exact Hdl|].
  split; [intros Hdone; apply precompute_done; exact Hdone|].
  split; [exact HcE|]. split; [exact HbE|].
  split; [unfold body_i; rewrite Hi; cbn [elements]; apply list_lookup_fmap|].
  split; [unfold body_j; rewrite Hj; reflexivity|].
  assert (Hw2 : w2 = update_lambda (fst sw) G32 w1 l body_i body_j) by reflexivity.
  destruct (precompute_lambda (fst sw) G32 (snd sw) l) as [Hlam _]. fold w1 in Hlam.
  split; [|split].
  - rewrite Hw2. unfold update_lambda. cbn [dlambda set_lambda set_dlambda].
    rewrite f32_get_set_eq by lia. rewrite Gulambda_spec, Heps, Hlam. reflexivity.
  - rewrite Hw2. unfold update_lambda. cbn [lambda dlambda set_lambda set_dlambda].
    rewrite f32_get_set_eq by (rewrite ?length_f32_set; lia).
    rewrite Hlam. reflexivity.
  - rewrite state_after_unfold. reflexivity.
Qed.
End Cache.

(** ** Bound enforcement *)

Section Bounds.
Context `{StringCoercion}.

Lemma not_negative_nan : not_negative nan.
Proof. reflexivity. Qed.

Lemma not_negative_zero (v : float) : is_zero v = true -> not_negative v.
Proof. destruct v as [[]| | |]; cbn; (discriminate || reflexivity). Qed.

Lemma fround_zero (v : float) : is_zero v = true -> fround v = v.
Proof. destruct v; cbn; (discriminate || reflexivity). Qed.

Lemma flt_zero_sign (v z : float) : is_zero z = true -> flt v z = flt v pzero.
Proof.
  destruct z as [sz| | |]; cbn; try discriminate. intros _.
  destruct v as [[]|[]| |[] m e]; reflexivity.
Qed.

(** A cell after a store at the same index: the rounded value, or nothing
    at all when the index is out of range. *)
Lemma f32_get_set_cases (arr : list float) (l : nat) (v : float) :
  f32_get (f32_set arr l v) l = fround v \/ f32_get (f32_set arr l v) l = nan.
Proof.
  destruct (Nat.lt_ge_cases l (length arr)) as [Hl | Hl].
  - left. apply f32_get_set_eq. exact Hl.
  - right. apply f32_get_out. rewrite length_f32_set. exact Hl.
Qed.

Lemma update_lambda_other (s : Solver) G32 w l l' bi bj :
  l <> l' ->
  f32_get (lambda (update_lambda s G32 w l bi bj)) l' = f32_get (lambda w) l'.
Proof.
  intros Hne. unfold update_lambda. cbn [lambda set_lambda set_dlambda].
  apply f32_get_set_ne. exact Hne.
Qed.

Lemma clamp_lower_other (s : Solver) w l l' :
  l <> l' -> f32_get (lambda (clamp_lower s w l)) l' = f32_get (lambda w) l'.
Proof.
  intros Hne. unfold clamp_lower. destruct (lower_fires s w l); [|reflexivity].
  cbn [lambda set_lambda set_dlambda]. apply f32_get_set_ne. exact Hne.
Qed.

Lemma clamp_upper_other (s : Solver) w l l' :
  l <> l' -> f32_get (lambda (clamp_upper s w l)) l' = f32_get (lambda w) l'.
Proof.
  intros Hne. unfold clamp_upper. destruct (upper_fires s w l); [|reflexivity].
  cbn [lambda set_lambda set_dlambda]. apply f32_get_set_ne. exact Hne.
Qed.

Lemma clamp_lower_not_negative (s : Solver) w l :
  flag_get (haslower s) l = true -> is_zero (cell (lower s) l) = true ->
  not_negative (f32_get (lambda (clamp_lower s w l)) l).
Proof.
  intros Hflag Hzero. unfold clamp_lower, lower_fires. rewrite Hflag. cbn [andb].
  destruct (flt (f32_get (lambda w) l) (cell (lower s) l)) eqn:Hlt.
  - cbn [lambda set_lambda set_dlambda].
    destruct (f32_get_set_cases (lambda w) l (cell (lower s) l)) as [-> | ->].
    + rewrite fround_zero by exact Hzero. apply not_negative_zero. exact Hzero.
    + apply not_negative_nan.
  - unfold not_negative. rewrite <- (flt_zero_sign _ _ Hzero). exact Hlt.
Qed.

Lemma clamp_upper_not_negative (s : Solver) w l :
  not_negative (cell (upper s) l) ->
  not_negative (f32_get (lambda w) l) ->
  not_negative (f32_get (lambda (clamp_upper s w l)) l).
Proof.
  intros Hup Hlam. unfold clamp_upper. destruct (upper_fires s w l); [|exact Hlam].
  cbn [lambda set_lambda set_dlambda].
  destruct (f32_get_set_cases (lambda w) l (cell (upper s) l)) as [-> | ->].
  - apply fround_not_negative. exact Hup.
  - apply not_negative_nan.
Qed.

Section OneConstraint.
Variables (s : Solver) (l : nat).
Hypothesis Hflag : flag_get (haslower s) l = true.
Hypothesis Hlower : is_zero (cell (lower s) l) = true.
Hypothesis Hupper : not_negative (cell (upper s) l).

Lemma lambda_inv_body (sw : Solver * Scratch) (l' : nat) :
  lambda_inv s l sw -> lambda_inv s l (inner_body (to_Float32Array (G s)) sw l').
Proof.
  intros [Hf Hlam]. destruct sw as [sk w]. cbn [fst snd] in *.
  unfold inner_body, lambda_inv. cbn [fst snd].
  split; [unfold frozen; rewrite propagate_frame; exact Hf|].
  destruct (frozen_fields s sk Hf)
    as (_ & _ & _ & _ & _ & Hlo & Hup & Hhl & _).
  destruct (Nat.eq_dec l' l) as [-> | Hne].
  - apply clamp_upper_not_negative; [rewrite Hup; exact Hupper|].
    apply clamp_lower_not_negative; [rewrite Hhl; exact Hflag|rewrite Hlo; exact Hlower].
  - rewrite clamp_upper_other, clamp_lower_other, update_lambda_other by exact Hne.
    destruct (precompute_lambda sk (to_Float32Array (G s)) w l') as [-> _].
    exact Hlam.
Qed.

Lemma lambda_inv_state_at (sweeps l' : nat) :
  l' <= n s -> lambda_inv s l (state_at s sweeps l').
Proof.
  apply (solve_loop_ind s (fun _ _ => lambda_inv s l)).
  - split; [reflexivity|]. unfold solve_setup. cbn [snd lambda].
    unfold f32_get, zeros.
    destruct (replicate _ pzero !! l) as [v|] eqn:Hv; [|apply not_negative_nan].
    apply lookup_replicate in Hv as [-> _]. reflexivity.
  - intros _ l0 sw _. apply lambda_inv_body.
  - intros _ sw Hinv. exact Hinv.
Qed.
End OneConstraint.

(** C5 (amended). For a constraint [l] whose lower flag is set, whose lower
    bound is zero and whose upper bound is not below zero (NaN and the
    string ['inf'] included), [lambda[l]] is never below zero at the end of
    an inner-loop body nor when [solve] returns: it is [>= 0], or it is NaN
    when the arithmetic produced one. *)
Theorem lambda_never_negative (s : Solver) (l sweeps l' : nat) :
  flag_get (haslower s) l = true ->
  is_zero (cell (lower s) l) = true ->
  (cell (upper s) l <? pzero)%js = false ->
  l' < n s ->
  let after_body := f32_get (lambda (snd (state_after s sweeps l'))) l in
  let at_return := f32_get (lambda (snd (solve_run s))) l in
  (is_nan after_body = true \/ fle pzero after_body = true) /\
  (is_nan at_return = true \/ fle pzero at_return = true).
Proof.
  intros Hflag Hlower Hupper Hl' after_body at_return.
  split; apply not_negative_cases.
  - unfold after_body. rewrite <- state_at_S.
    apply (lambda_inv_state_at s l Hflag Hlower Hupper sweeps (S l')). lia.
  - unfold at_return. rewrite solve_run_state_at.
    apply (lambda_inv_state_at s l Hflag Hlower Hupper). lia.
Qed.
End Bounds.

(** ** The increment after a clamp *)

Lemma same_number_refl (v : float) : same_number v v.
Proof. left. reflexivity. Qed.

Lemma same_number_trans (u v w : float) :
  same_number u v -> same_number v w -> same_number u w.
Proof.
  intros [-> | [Hu Hv]] [-> | [Hv' Hw]]; unfold same_number; auto.
Qed.

Lemma is_float32_fround_add_zero (v t : float) :
  is_float32 v -> is_zero t = true -> is_float32 (fround (fadd v t)).
Proof.
  unfold is_float32. intros Hv Ht.
  destruct (fadd_zero_same v t Ht) as [-> | [Hz _]].
  - rewrite Hv. exact Hv.
  - rewrite (fround_zero _ Hz). apply fround_zero. exact Hz.
Qed.

(** Adding a zero to a cell of a typed array of single-precision values. *)
Lemma body_add_zero (arr : list float) (body : option Z) (t : float) :
  Forall is_float32 arr -> is_zero t = true ->
  Forall2 same_number (body_add arr body t) arr /\
  Forall is_float32 (body_add arr body t).
Proof.
  intros Harr Ht.
  assert (Hsame : Forall2 same_number arr arr).
  { apply Forall_Forall2_diag, Forall_forall. intros v _. apply same_number_refl. }
  unfold body_add, body_set, body_get.
  destruct body as [z|]; [|auto].
  destruct (0 <=? z)%Z; [|auto].
  unfold f32_set, f32_get.
  destruct (arr !! Z.to_nat z) as [v|] eqn:Hv.
  - cbn [default].
    pose proof (Forall_lookup_1 _ _ _ _ Harr Hv) as Hv32.
    split.
    + rewrite <- (list_insert_id arr (Z.to_nat z) v Hv) at 2.
      apply Forall2_insert; [exact Hsame|].
      apply fround_add_zero_same; assumption.
    + apply Forall_insert; [exact Harr|].
      apply is_float32_fround_add_zero; assumption.
  - rewrite list_insert_ge by (apply lookup_ge_None; exact Hv). auto.
Qed.

Lemma body_add_zero_twice (arr : list float) (bi bj : option Z) (t t' : float) :
  Forall is_float32 arr -> is_zero t = true -> is_zero t' = true ->
  Forall2 same_number (body_add (body_add arr bi t) bj t') arr.
Proof.
  intros Harr Ht Ht'.
  destruct (body_add_zero arr bi t Harr Ht) as [H1 H1'].
  destruct (body_add_zero (body_add arr bi t) bj t' H1' Ht') as [H2 _].
  eapply Forall2_trans; [|exact H2|exact H1].
  intros u v w. apply same_number_trans.
Qed.

Section Clamp.
Context `{StringCoercion}.

Lemma propagate_deltas (s : Solver) (G32 : list float) (w : Scratch) (l : nat)
    (bi bj : option Z) :
  let term slot :=
    (f32_get (dlambda w) l * cell (MinvTrace s) (12 * l + slot)
     * f32_get G32 (12 * l + slot))%js in
  deltas (propagate s G32 w l bi bj) =
  [ body_add (body_add (vxlambda s) bi (term 0)) bj (term 6);
    body_add (body_add (vylambda s) bi (term 1)) bj (term 7);
    body_add (body_add (vzlambda s) bi (term 2)) bj (term 8);
    body_add (body_add (wxlambda s) bi (term 3)) bj (term 9);
    body_add (body_add (wylambda s) bi (term 4)) bj (term 10);
    body_add (body_add (wzlambda s) bi (term 5)) bj (term 11) ].
Proof. destruct_solver s. unfold deltas. solve_red. reflexivity. Qed.

Lemma propagate_zero (s : Solver) (G32 : list float) (w : Scratch) (l : nat)
    (bi bj : option Z) :
  is_zero (f32_get (dlambda w) l) = true ->
  (forall slot, slot < 12 ->
     is_finite (cell (MinvTrace s) (12 * l + slot)) = true /\
     is_finite (f32_get G32 (12 * l + slot)) = true) ->
  Forall (Forall is_float32) (deltas s) ->
  Forall2 (Forall2 same_number) (deltas (propagate s G32 w l bi bj)) (deltas s).
Proof.
  intros Hdl Hfin H32. rewrite propagate_deltas. cbv zeta.
  assert (Hterm : forall slot, slot < 12 ->
            is_zero (f32_get (dlambda w) l * cell (MinvTrace s) (12 * l + slot)
                     * f32_get G32 (12 * l + slot))%js = true).
  { intros slot Hslot. destruct (Hfin slot Hslot) as [HM HG].
    apply fmul_zero_finite; [|exact HG]. apply fmul_zero_finite; assumption. }
  unfold deltas in *.
  repeat match goal with
         | Hall : Forall _ (_ :: _) |- _ => apply Forall_cons in Hall as [? Hall]
         end.
  repeat (constructor; [apply body_add_zero_twice;
                        [assumption | apply Hterm; lia | apply Hterm; lia]|]).
  constructor.
Qed.

Lemma float32_body_add (arr : list float) (body : option Z) (t : float) :
  Forall is_float32 arr -> Forall is_float32 (body_add arr body t).
Proof.
  intros Harr. unfold body_add, body_set.
  destruct body as [z|]; [|exact Harr].
  destruct (0 <=? z)%Z; [|exact Harr].
  apply Forall_insert; [exact Harr | apply is_float32_fround].
Qed.

(** The cells of the delta arrays stay single-precision numbers. *)
Lemma float32_propagate (s : Solver) (G32 : list float) (w : Scratch) (l : nat)
    (bi bj : option Z) :
  Forall (Forall is_float32) (deltas s) ->
  Forall (Forall is_float32) (deltas (propagate s G32 w l bi bj)).
Proof.
  intros H32. rewrite propagate_deltas. cbv zeta. unfold deltas in H32.
  repeat match goal with
         | Hall : Forall _ (_ :: _) |- _ => apply Forall_cons in Hall as [? Hall]
         end.
  repeat (constructor; [apply float32_body_add, float32_body_add; assumption|]).
  constructor.
Qed.

Lemma float32_state_at (s : Solver) (sweeps l : nat) :
  l <= n s ->
  Forall (Forall is_float32) (deltas s) ->
  Forall (Forall is_float32) (deltas (fst (state_at s sweeps l))).
Proof.
  intros Hl H32. revert sweeps l Hl.
  apply (solve_loop_ind s (fun _ _ sw => Forall (Forall is_float32) (deltas (fst sw)))).
  - rewrite solve_setup_deltas. exact H32.
  - intros _ l0 [sk w] _ IH. unfold inner_body. cbn [fst] in *.
    apply float32_propagate. exact IH.
  - intros _ sw IH. exact IH.
Qed.

Lemma clamp_lower_fired (s : Solver) (w : Scratch) (l : nat) :
  l < length (lambda w) -> l < length (dlambda w) ->
  lower_fires s w l = true -> exact_bound (cell (lower s) l) ->
  f32_get (lambda (clamp_lower s w l)) l = cell (lower s) l /\
  f32_get (dlambda (clamp_lower s w l)) l = pzero.
Proof.
  intros Hl1 Hl2 Hfire [Hfin H32]. unfold clamp_lower. rewrite Hfire.
  cbn [lambda dlambda set_lambda set_dlambda].
  rewrite !f32_get_set_eq by (rewrite ?length_f32_set; lia).
  rewrite H32, (fsub_diag _ Hfin). split; reflexivity.
Qed.

Lemma clamp_upper_fired (s : Solver) (w : Scratch) (l : nat) :
  l < length (lambda w) -> l < length (dlambda w) ->
  upper_fires s w l = true -> exact_bound (cell (upper s) l) ->
  f32_get (lambda (clamp_upper s w l)) l = cell (upper s) l /\
  f32_get (dlambda (clamp_upper s w l)) l = pzero.
Proof.
  intros Hl1 Hl2 Hfire [Hfin H32]. unfold clamp_upper. rewrite Hfire.
  cbn [lambda dlambda set_lambda set_dlambda].
  rewrite !f32_get_set_eq by (rewrite ?length_f32_set; lia).
  rewrite H32, (fsub_diag _ Hfin). split; reflexivity.
Qed.

Lemma unclamped_sized (s : Solver) (sweeps l : nat) :
  l < n s -> sized (n s) (unclamped s sweeps l).
Proof.
  intros Hl. unfold unclamped.
  apply update_lambda_sized, precompute_sized.
  apply (cache_inv_state_at s sweeps l). lia.
Qed.

(** C10 (amended). When a clamp fires for constraint [l] and every bound
    that fires is a finite number that single precision represents exactly
    (such as [0]), [lambda[l]] ends up as the bound of the last clamp that
    fired and [dlambda[l]], recomputed as that bound minus the overwritten
    [lambda[l]], is exactly [+0].  If moreover the twelve [MinvTrace] and
    Jacobian entries of the constraint are finite, the propagation adds a
    zero to each cell it touches, so every delta array keeps its values (up
    to the sign of a zero), provided the delta arrays held single-precision
    numbers when [solve] was called, as they do after [reset]. *)
Theorem clamp_cancels_increment (s : Solver) (sweeps l : nat) :
  l < n s ->
  let G32 := to_Float32Array (G s) in
  let sw := state_at s sweeps l in
  let w2 := unclamped s sweeps l in
  let w3 := clamp_lower (fst sw) w2 l in
  let fired_lower := lower_fires (fst sw) w2 l in
  let fired_upper := upper_fires (fst sw) w3 l in
  let w4 := snd (state_after s sweeps l) in
  fired_lower || fired_upper = true ->
  (fired_lower = true -> exact_bound (cell (lower s) l)) ->
  (fired_upper = true -> exact_bound (cell (upper s) l)) ->
  f32_get (lambda w4) l
    = (if fired_upper then cell (upper s) l else cell (lower s) l) /\
  f32_get (dlambda w4) l = pzero /\
  ((forall slot, slot < 12 ->
      is_finite (cell (MinvTrace s) (12 * l + slot)) = true /\
      is_finite (f32_get G32 (12 * l + slot)) = true) ->
   Forall (Forall is_float32) (deltas s) ->
   Forall2 (Forall2 same_number)
     (deltas (fst (state_after s sweeps l))) (deltas (fst sw))).
Proof.
  intros Hl G32 sw w2 w3 fired_lower fired_upper w4 Hfired Hlo Hup.
  assert (Hf : frozen s (fst sw)) by (apply state_at_frozen; lia).
  destruct (frozen_fields s (fst sw) Hf)
    as (_ & HM & _ & _ & _ & Hlow & Hupp & _).
  pose proof (unclamped_sized s sweeps l Hl) as Hs2. fold w2 in Hs2.
  pose proof (clamp_lower_sized (fst sw) w2 l (n s) Hs2) as Hs3. fold w3 in Hs3.
  assert (Hw4 : w4 = clamp_upper (fst sw) w3 l).
  { unfold w4. rewrite state_after_unfold. reflexivity. }
  assert (Hcl : f32_get (lambda w4) l
                  = (if fired_upper then cell (upper s) l else cell (lower s) l) /\
                f32_get (dlambda w4) l = pzero).
  { rewrite Hw4. destruct fired_upper eqn:Hfu.
    - rewrite <- Hupp.
      apply clamp_upper_fired;
        [destruct Hs3 as (-> & _); exact Hl | destruct Hs3 as (_ & -> & _); exact Hl
        | exact Hfu | rewrite Hupp; apply Hup; reflexivity].
    - unfold clamp_upper. fold fired_upper. rewrite Hfu.
      rewrite orb_false_r in Hfired. rewrite <- Hlow.
      apply clamp_lower_fired;
        [destruct Hs2 as (-> & _); exact Hl | destruct Hs2 as (_ & -> & _); exact Hl
        | exact Hfired | rewrite Hlow; apply Hlo; exact Hfired]. }
  destruct Hcl as [Hlam Hdl].
  split; [exact Hlam|]. split; [exact Hdl|].
  intros Hfin H32. rewrite state_after_unfold. cbn [fst].
  apply propagate_zero; [| |apply float32_state_at; [lia | exact H32]].
  - fold sw. replace (clamped s sweeps l) with w4
      by (unfold w4; rewrite state_after_unfold; reflexivity).
    rewrite Hdl. reflexivity.
  - fold sw. rewrite HM. exact Hfin.
Qed.
End Clamp.

(** ** The properties on the sample objects *)

Lemma solve_iteration_witness :
  0 < n pushing_sample /\
  precomp_done (precomp (snd (@state_at sample_host pushing_sample 1 0))) 0 = true /\
  f32_get (c (@precompute sample_host (fst (@state_at sample_host pushing_sample 1 0))
                (@to_Float32Array sample_host (G pushing_sample))
                (snd (@state_at sample_host pushing_sample 1 0)) 0)) 0
  = @effectiveInverseMass sample_host pushing_sample
      (@to_Float32Array sample_host (G pushing_sample)) 0.
Proof.
  assert (Hl : 0 < n pushing_sample) by (vm_compute; lia).
  pose proof (@solve_iteration sample_host pushing_sample 1 0 Hl) as Hit.
  cbv zeta in Hit. destruct Hit as (Hdone & _ & Hc & _).
  split; [exact Hl|]. split; [exact Hdone | exact Hc].
Defined.

Lemma upper_clamp_ignores_hasupper_witness :
  @solve sample_host (set_hasupper crossed_bounds_sample [false])
  = set_hasupper (@solve sample_host crossed_bounds_sample) [false] /\
  lambda (snd (@solve_run sample_host (set_hasupper crossed_bounds_sample [false])))
  = [of_Z (-1)].
Proof.
  split.
  - apply (@upper_clamp_ignores_hasupper sample_host).
  - vm_compute. reflexivity.
Defined.

Lemma lambda_never_negative_witness :
  fle pzero (f32_get (lambda (snd (@state_after sample_host pushing_sample 0 0))) 0) = true /\
  fle pzero (f32_get (lambda (snd (@solve_run sample_host pushing_sample))) 0) = true.
Proof.
  assert (Hflag : flag_get (haslower pushing_sample) 0 = true) by (vm_compute; reflexivity).
  assert (Hlower : is_zero (@cell sample_host (lower pushing_sample) 0) = true)
    by (vm_compute; reflexivity).
  assert (Hupper : (@cell sample_host (upper pushing_sample) 0 <? pzero)%js = false)
    by (vm_compute; reflexivity).
  assert (Hl : 0 < n pushing_sample) by (vm_compute; lia).
  pose proof (@lambda_never_negative sample_host pushing_sample 0 0 0
                Hflag Hlower Hupper Hl) as Hlam.
  cbv zeta in Hlam. destruct Hlam as [Hbody Hret].
  split.
  - destruct Hbody as [Hnan | Hpos]; [vm_compute in Hnan; discriminate | exact Hpos].
  - destruct Hret as [Hnan | Hpos]; [vm_compute in Hnan; discriminate | exact Hpos].
Defined.

(** C5, counterexample: with lower bound [0] and upper bound [-1] the upper
    clamp leaves the impulse at [-1]; with lower bound [0] and an infinite
    relative velocity the impulse is NaN, which is not [>= 0] either. *)
Lemma lambda_negative_or_nan :
  (flag_get (haslower crossed_bounds_sample) 0 = true /\
   lower crossed_bounds_sample = [VNum pzero] /\
   lambda (snd (@state_after sample_host crossed_bounds_sample 0 0)) = [of_Z (-1)] /\
   lambda (snd (@solve_run sample_host crossed_bounds_sample)) = [of_Z (-1)] /\
   (of_Z (-1) <? pzero)%js = true) /\
  (flag_get (haslower infinite_velocity_sample) 0 = true /\
   lower infinite_velocity_sample = [VNum pzero] /\
   lambda (snd (@solve_run sample_host infinite_velocity_sample)) = [nan] /\
   fle pzero nan = false).
Proof. vm_compute. repeat split. Qed.

(** C9, the failing input: one constraint with [body_i = 0], [body_j = -1]
    and one sweep.  The read of the delta arrays at index [-1] yields
    [undefined], so the impulse and all six deltas of body [0] become NaN. *)
Lemma solve_one_body_constraint :
  j one_body_sample = [(-1)%Z] /\
  body_get (vxlambda one_body_sample) (Some (-1)%Z) = nan /\
  @Gulambda one_body_sample (@to_Float32Array sample_host (G one_body_sample)) 0
    (Some 0%Z) (Some (-1)%Z) = nan /\
  lambda (snd (@solve_run sample_host one_body_sample)) = [nan] /\
  deltas (@solve sample_host one_body_sample) = replicate 6 [nan; pzero].
Proof. vm_compute. repeat split. Qed.

Lemma clamp_cancels_increment_witness :
  f32_get (dlambda (snd (@state_after sample_host pulling_sample 0 0))) 0 = pzero /\
  Forall2 (Forall2 same_number)
    (deltas (fst (@state_after sample_host pulling_sample 0 0)))
    (deltas (fst (@state_at sample_host pulling_sample 0 0))).
Proof.
  assert (Hl : 0 < n pulling_sample) by (vm_compute; lia).
  pose proof (@clamp_cancels_increment sample_host pulling_sample 0 0 Hl) as Hcl.
  cbv zeta in Hcl.
  destruct Hcl as (_ & Hdl & Hdeltas).
  - vm_compute. reflexivity.
  - intros _. split; vm_compute; reflexivity.
  - intros Hfu. vm_compute in Hfu. discriminate.
  - split; [exact Hdl|]. apply Hdeltas.
    + intros slot Hslot.
      do 12 (destruct slot as [|slot]; [split; vm_compute; reflexivity|]). lia.
    + match goal with
      | |- Forall _ ?ds =>
          replace ds with (replicate 6 (zeros 2)) by (vm_compute; reflexivity)
      end.
      cbv [replicate zeros]. repeat constructor.
Defined.

(** C10, counterexample: the lower bound [0.1] is not a single-precision
    number.  The lower clamp fires, the impulse becomes the rounded bound,
    the recomputed increment is the rounding error, not zero, and the
    x velocity deltas of both bodies change. *)
Lemma clamp_leaves_rounding_error :
  @lower_fires sample_host (fst (@state_at sample_host inexact_bound_sample 0 0))
    (@unclamped sample_host inexact_bound_sample 0 0) 0 = true /\
  f32_get (lambda (snd (@state_after sample_host inexact_bound_sample 0 0))) 0
    = fround tenth /\
  f32_get (dlambda (snd (@state_after sample_host inexact_bound_sample 0 0))) 0
    = fround (tenth - fround tenth)%js /\
  f32_get (dlambda (snd (@state_after sample_host inexact_bound_sample 0 0))) 0
    <> pzero /\
  vxlambda (fst (@state_at sample_host inexact_bound_sample 0 0)) = [pzero; pzero] /\
  vxlambda (fst (@state_after sample_host inexact_bound_sample 0 0))
    <> [pzero; pzero].
Proof. vm_compute. repeat split; discriminate. Qed.


(** ** Further properties *)

(** X1. The constructor replaces an omitted or zero [iter] by [10] and keeps
    any other value, so no constructor call yields [iterations = 0]; the new
    object holds no constraint and no body, and [debug] is off. *)
Theorem new_Solver_defaults (a' b' eps' k' d' : float) (iter : option Z)
    (h' : option float) :
  let s := new_Solver a' b' eps' k' d' iter h' in
  iterations s <> 0%Z /\
  (iter = None \/ iter = Some 0%Z -> iterations s = 10%Z) /\
  (forall it, iter = Some it -> it <> 0%Z -> iterations s = it) /\
  (h' = None -> h s = (of_Z 1 / of_Z 60)%js) /\
  n s = 0 /\ lockstep s /\ plain s /\ deltas s = replicate 6 [] /\
  debug s = false /\
  a s = a' /\ b s = b' /\ eps s = eps' /\ k s = k' /\ d s = d'.
Proof.
  intros s. subst s. unfold new_Solver.
  repeat split; cbn; try reflexivity.
  - destruct iter as [it|]; [|discriminate].
    destruct (Z.eqb_spec it 0); [discriminate | assumption].
  - intros [-> | ->]; reflexivity.
  - intros it -> Hit. destruct (Z.eqb_spec it 0); [contradiction | reflexivity].
  - intros ->. reflexivity.
  - exists []. reflexivity.
Qed.

Section Further.
Context `{StringCoercion} `{Vec3Methods}.

(** X2. [solve] changes nothing of the object but the six delta arrays and
    [this.i], which it replaces by an [Int16Array] of the same indices
    reduced to sixteen bits; each delta array keeps its length and its
    cells stay single-precision numbers. *)
Theorem solve_changes_deltas_only (s : Solver) :
  without_deltas (solve s)
    = without_deltas (set_i s (Int16Array (map ToInt16 (elements (i s))))) /\
  map length (deltas (solve s)) = map length (deltas s) /\
  (Forall (Forall is_float32) (deltas s) ->
   Forall (Forall is_float32) (deltas (solve s))).
Proof.
  split; [apply solve_frame|]. split.
  - unfold solve. rewrite solve_run_state_at.
    apply (solve_loop_ind s (fun _ _ sw =>
             map length (deltas (fst sw)) = map length (deltas s))); [| | |lia].
    + rewrite solve_setup_deltas. reflexivity.
    + intros _ l0 [sk w] _ IH. unfold inner_body. cbn [fst] in *.
      rewrite propagate_deltas. cbv zeta. rewrite <- IH. unfold deltas, body_add, body_set.
      cbn [map].
      repeat match goal with
             | |- context [match ?b with Some _ => _ | None => _ end] => destruct b
             | |- context [if ?b then _ else _] => destruct b
             end;
        unfold f32_set; rewrite ?length_insert; reflexivity.
    + intros _ sw IH. exact IH.
  - intros H32. unfold solve. rewrite solve_run_state_at.
    apply float32_state_at; [lia | exact H32].
Qed.

(** X3. A penetration depth that is NaN is not below zero either:
    [addNonPenetrationConstraint] then adds nothing. *)
Theorem addNonPenetrationConstraint_skips_nan (s : Solver) (p : ContactArgs) :
  is_nan (penetration_depth p) = true ->
  addNonPenetrationConstraint_with s p = Normal tt s.
Proof.
  intros Hq. rewrite addNonPenetrationConstraint_unfold.
  destruct (penetration_depth p); try discriminate. reflexivity.
Qed.

(** X4. Without constraints the sweeps are empty: [solve] leaves the delta
    arrays as they are whatever the iteration count. *)
Theorem solve_without_constraints (s : Solver) :
  n s = 0 -> solve_run s = solve_setup s /\ deltas (solve s) = deltas s.
Proof.
  intros Hn.
  assert (Hrun : solve_run s = solve_setup s).
  { unfold solve_run. rewrite Hn.
    induction (Z.to_nat (iterations s)) as [|m IH]; [reflexivity|].
    rewrite Nat.iter_succ, IH. reflexivity. }
  split; [exact Hrun|]. unfold solve. rewrite Hrun. apply solve_setup_deltas.
Qed.

End Further.

Lemma solve_changes_deltas_only_witness :
  Forall (Forall is_float32) (deltas (@solve sample_host pushing_sample)).
Proof.
  apply (@solve_changes_deltas_only sample_host pushing_sample).
  replace (deltas pushing_sample) with (replicate 6 (zeros 2))
    by (vm_compute; reflexivity).
  cbv [replicate zeros]. repeat constructor.
Defined.

Lemma addNonPenetrationConstraint_skips_nan_witness :
  is_nan (@penetration_depth std_vec3 nan_contact) = true /\
  @addNonPenetrationConstraint_with sample_host std_vec3 sample_solver nan_contact
  = Normal tt sample_solver.
Proof.
  split; [vm_compute; reflexivity|].
  apply (@addNonPenetrationConstraint_skips_nan sample_host std_vec3).
  vm_compute; reflexivity.
Defined.

Lemma solve_without_constraints_witness :
  deltas (@solve sample_host sample_solver) = deltas sample_solver.
Proof.
  apply (@solve_without_constraints sample_host sample_solver). reflexivity.
Defined.

(** The end-to-end scenario of the specification, run: the bias term is
    negative, so the impulse is clamped to [0] in every sweep and all
    velocity deltas stay zero.  With the violation row reversed the impulse
    is positive and the x deltas of the two bodies are opposite and of equal
    magnitude. *)
Theorem end_to_end_scenario :
  iterations scenario_sample = 10%Z /\
  lambda (snd (@solve_run sample_host scenario_sample)) = [pzero] /\
  deltas (@solve sample_host scenario_sample) = replicate 6 [pzero; pzero] /\
  exists v : float,
    (pzero <? v)%js = true /\
    lambda (snd (@solve_run sample_host pushing_sample)) = [v] /\
    vxlambda (@solve sample_host pushing_sample) = [fneg v; v].
Proof.
  split; [reflexivity|]. split; [vm_compute; reflexivity|].
  split; [vm_compute; reflexivity|].
  eexists. split; [|split]; [|vm_compute; reflexivity|vm_compute; reflexivity].
  vm_compute. reflexivity.
Qed.

Lemma fadd_nan_r (v : float) : fadd v nan = nan.
Proof. destruct v; reflexivity. Qed.

Lemma fmul_nan_r (v : float) : fmul v nan = nan.
Proof. destruct v; reflexivity. Qed.

Lemma fsub_nan_r (v : float) : fsub v nan = nan.
Proof. destruct v; reflexivity. Qed.

Lemma flt_nan_r (v : float) : flt v nan = false.
Proof. destruct v; reflexivity. Qed.

Section MissingBody.
Context `{StringCoercion}.

Lemma body_get_negative (arr : list float) (z : Z) :
  (z < 0)%Z -> body_get arr (Some z) = nan.
Proof.
  intros Hz. unfold body_get. destruct (Z.leb_spec 0 z); [lia | reflexivity].
Qed.

Lemma Gulambda_negative_body (s : Solver) (G32 : list float) (l : nat)
    (bi : option Z) (z : Z) :
  (z < 0)%Z -> Gulambda s G32 l bi (Some z) = nan.
Proof.
  intros Hz. unfold Gulambda. cbv zeta.
  rewrite (body_get_negative (wzlambda s) z Hz), fmul_nan_r. apply fadd_nan_r.
Qed.

(** X5. A constraint whose second body index is negative (the documented
    [-1] for "no second body" included) reads [undefined] from the delta
    arrays: in every sweep its increment and its impulse become NaN, and
    neither clamp fires on a NaN. *)
Theorem negative_body_index_gives_nan (s : Solver) (sweeps l : nat) (z : Z) :
  l < n s -> j s !! l = Some z -> (z < 0)%Z ->
  f32_get (dlambda (snd (state_after s sweeps l))) l = nan /\
  f32_get (lambda (snd (state_after s sweeps l))) l = nan.
Proof.
  intros Hl Hj Hz.
  assert (Hf : frozen s (fst (state_at s sweeps l))) by (apply state_at_frozen; lia).
  destruct (frozen_fields s _ Hf) as (_ & _ & _ & _ & _ & _ & _ & _ & _ & _ & Hj' & _).
  pose proof (cache_inv_state_at s sweeps l (Nat.lt_le_incl _ _ Hl)) as (_ & Hs & _).
  pose proof (precompute_sized (fst (state_at s sweeps l)) (to_Float32Array (G s))
                (snd (state_at s sweeps l)) l (n s) Hs) as (Hl1 & Hl2 & _).
  rewrite state_after_unfold. cbn [snd]. unfold clamped, unclamped.
  rewrite Hj', Hj.
  set (sk := fst (state_at s sweeps l)) in *.
  remember (precompute sk (to_Float32Array (G s)) (snd (state_at s sweeps l)) l)
    as w1 eqn:Hw1.
  clear Hw1.
  set (bi := elements (i sk) !! l).
  assert (Hw2 : f32_get (dlambda (update_lambda sk (to_Float32Array (G s)) w1 l bi (Some z))) l = nan /\
                f32_get (lambda (update_lambda sk (to_Float32Array (G s)) w1 l bi (Some z))) l = nan).
  { unfold update_lambda. cbn [lambda dlambda set_lambda set_dlambda].
    rewrite !f32_get_set_eq by (rewrite ?length_f32_set; lia).
    rewrite Gulambda_negative_body by exact Hz.
    rewrite fsub_nan_r. cbn [fsub SFsub]. rewrite fmul_nan_r. cbn [fround].
    rewrite fadd_nan_r. split; reflexivity. }
  remember (update_lambda sk (to_Float32Array (G s)) w1 l bi (Some z)) as w2 eqn:Ew2.
  clear Ew2. destruct Hw2 as [Hd2 Hlam2].
  assert (Hlo : clamp_lower sk w2 l = w2).
  { unfold clamp_lower, lower_fires. rewrite Hlam2.
    destruct (flag_get (haslower sk) l); reflexivity. }
  rewrite Hlo.
  assert (Hup : clamp_upper sk w2 l = w2).
  { unfold clamp_upper, upper_fires. rewrite Hlam2, flt_nan_r, andb_false_r. reflexivity. }
  rewrite Hup. split; assumption.
Qed.
End MissingBody.

Lemma negative_body_index_gives_nan_witness :
  f32_get (lambda (snd (@state_after sample_host one_body_sample 0 0))) 0 = nan.
Proof.
  apply (@negative_body_index_gives_nan sample_host one_body_sample 0 0 (-1)%Z);
    [vm_compute; lia | reflexivity | lia].
Defined.

(** ** What the methods leave alone *)

Ltac destruct_solver' s :=
  destruct s as [g_iterations g_h g_a g_b g_eps g_k g_d g_G g_MinvTrace g_Fext
                 g_q g_qdot g_n g_upper g_lower g_hasupper g_haslower g_i g_j
                 g_vx g_vy g_vz g_wx g_wy g_wz g_debug].

(** Reduction of the pieces of [solve] on a literal object, with the
    assignments to [k] and [d]. *)
Ltac solve_red_kd :=
  cbv [propagate update_lambda Gulambda clamp_lower clamp_upper lower_fires
       upper_fires array_truthy precompute precompute_sums fold_left seq
       set_kd set_k set_d solve_setup fst snd
       set_iterations set_G set_MinvTrace set_Fext set_q set_qdot set_n
       set_upper set_lower set_hasupper set_haslower set_i set_j
       set_vxlambda set_vylambda set_vzlambda set_wxlambda set_wylambda
       set_wzlambda set_debug
       iterations h a b eps k d G MinvTrace Fext q qdot n upper lower hasupper
       haslower i j vxlambda vylambda vzlambda wxlambda wylambda wzlambda debug].

Ltac by_fields_kd s := destruct_solver s; solve_red_kd; reflexivity.

Section Unused.
Context `{StringCoercion} `{Vec3Methods}.

Lemma params_without_deltas (s s' : Solver) :
  without_deltas s' = without_deltas s -> params s' = params s.
Proof.
  destruct_solver s. destruct_solver' s'.
  unfold without_deltas, params. solver_red.
  intros Heq.
  injection Heq as -> -> -> -> -> -> -> -> -> -> -> -> -> -> -> -> -> -> -> ->.
  reflexivity.
Qed.

Lemma params_reset (s s' : Solver) (numbodies : nat) :
  params s' = params s -> reset s' numbodies = reset s numbodies.
Proof.
  destruct_solver s. destruct_solver' s'. unfold params, reset. solver_red.
  intros Heq. injection Heq as -> -> -> -> -> -> -> ->. reflexivity.
Qed.

Lemma params_call (s : Solver) (op : Call) :
  params (final_state (call s op)) = params s.
Proof.
  destruct op as [numbodies | p | p | ]; cbn [call].
  - destruct_solver s. reflexivity.
  - unfold addConstraint_with. rewrite addConstraint_unfold.
    destruct_solver s. unfold pushed, params. solver_red.
    destruct f_i; reflexivity.
  - rewrite addNonPenetrationConstraint_unfold.
    destruct (flt _ pzero); [|reflexivity].
    rewrite final_state_discard, addConstraint_unfold.
    destruct_solver s. unfold pushed, params. solver_red.
    destruct f_i; reflexivity.
  - cbn [final_state].
    rewrite (params_without_deltas (fst (solve_setup s)) (solve s) (solve_frame s)).
    destruct_solver s. reflexivity.
Qed.

Lemma params_run (ops : list Call) :
  forall s : Solver, params (final_state (run s ops)) = params s.
Proof.
  induction ops as [|op ops IH]; intros s; [reflexivity|].
  cbn [run]. pose proof (params_call s op) as Hop.
  destruct (call s op) as [[] s' | s']; cbn [final_state] in *.
  - rewrite IH. exact Hop.
  - exact Hop.
Qed.

(** X6. Nothing persists across steps: whatever calls were made on the
    object, including ones that threw, [reset] gives the same object as
    it would have given before them, and the parameters set by the
    constructor are unchanged. *)
Theorem reset_forgets (s : Solver) (ops : list Call) (numbodies : nat) :
  reset (final_state (run s ops)) numbodies = reset s numbodies /\
  params (final_state (run s ops)) = params s.
Proof.
  split; [apply params_reset|]; apply params_run.
Qed.

(** *** The parameters [k] and [d] *)

Lemma precompute_kd (s : Solver) k' d' G32 w l :
  precompute (set_kd k' d' s) G32 w l = precompute s G32 w l.
Proof. by_fields_kd s. Qed.

Lemma update_lambda_kd (s : Solver) k' d' G32 w l bi bj :
  update_lambda (set_kd k' d' s) G32 w l bi bj = update_lambda s G32 w l bi bj.
Proof. by_fields_kd s. Qed.

Lemma clamp_lower_kd (s : Solver) k' d' w l :
  clamp_lower (set_kd k' d' s) w l = clamp_lower s w l.
Proof. by_fields_kd s. Qed.

Lemma clamp_upper_kd (s : Solver) k' d' w l :
  clamp_upper (set_kd k' d' s) w l = clamp_upper s w l.
Proof. by_fields_kd s. Qed.

Lemma propagate_kd (s : Solver) k' d' G32 w l bi bj :
  propagate (set_kd k' d' s) G32 w l bi bj =
  set_kd k' d' (propagate s G32 w l bi bj).
Proof. by_fields_kd s. Qed.

Lemma inner_body_kd (k' d' : float) (G32 : list float)
    (sw : Solver * Scratch) (l : nat) :
  inner_body G32 (with_kd k' d' sw) l = with_kd k' d' (inner_body G32 sw l).
Proof.
  destruct sw as [s w]. unfold inner_body, with_kd. cbn [fst snd].
  rewrite precompute_kd, update_lambda_kd, clamp_lower_kd, clamp_upper_kd,
    propagate_kd.
  replace (i (set_kd k' d' s)) with (i s) by (destruct_solver s; reflexivity).
  replace (j (set_kd k' d' s)) with (j s) by (destruct_solver s; reflexivity).
  reflexivity.
Qed.

Lemma fold_inner_body_kd (k' d' : float) (G32 : list float) (ls : list nat) :
  forall sw, fold_left (inner_body G32) ls (with_kd k' d' sw) =
             with_kd k' d' (fold_left (inner_body G32) ls sw).
Proof.
  induction ls as [|l ls IH]; intros sw; [reflexivity|].
  cbn [fold_left]. rewrite inner_body_kd. apply IH.
Qed.

Lemma solve_run_kd (s : Solver) (k' d' : float) :
  solve_run (set_kd k' d' s) = with_kd k' d' (solve_run s).
Proof.
  unfold solve_run.
  replace (solve_setup (set_kd k' d' s)) with (with_kd k' d' (solve_setup s))
    by (destruct_solver s; reflexivity).
  replace (G (set_kd k' d' s)) with (G s) by (destruct_solver s; reflexivity).
  replace (n (set_kd k' d' s)) with (n s) by (destruct_solver s; reflexivity).
  replace (iterations (set_kd k' d' s)) with (iterations s)
    by (destruct_solver s; reflexivity).
  induction (Z.to_nat (iterations s)) as [|m IH]; [reflexivity|].
  rewrite !Nat.iter_succ, IH. apply fold_inner_body_kd.
Qed.

Lemma addConstraint_kd (s : Solver) (k' d' : float) (G' M' q' qd' F' : list jsval)
    (lo up : jsval) (bi bj : Z) :
  addConstraint (set_kd k' d' s) G' M' q' qd' F' lo up bi bj =
  on_state (set_kd k' d') (addConstraint s G' M' q' qd' F' lo up bi bj).
Proof.
  rewrite !addConstraint_unfold.
  destruct_solver s. unfold pushed, set_kd, set_k, set_d. solver_red.
  destruct f_i; reflexivity.
Qed.

Lemma call_kd (s : Solver) (k' d' : float) (op : Call) :
  call (set_kd k' d' s) op = on_state (set_kd k' d') (call s op).
Proof.
  destruct op as [numbodies | p | p | ]; cbn [call].
  - cbn [on_state]. apply (f_equal (Normal tt)). destruct_solver s. reflexivity.
  - unfold addConstraint_with. rewrite addConstraint_kd.
    destruct (addConstraint s _ _ _ _ _ _ _ _ _); reflexivity.
  - rewrite !addNonPenetrationConstraint_unfold.
    destruct (flt _ pzero); [|reflexivity].
    rewrite addConstraint_kd.
    destruct (addConstraint s _ _ _ _ _ _ _ _ _); reflexivity.
  - cbn [on_state]. apply (f_equal (Normal tt)).
    unfold solve. rewrite solve_run_kd. reflexivity.
Qed.

(** X7. The spring constant [k] and the damping [d] are stored and never
    read: a script of calls run with other values ends in the same
    completion, up to the two fields themselves, and [solve] computes the
    same impulses. *)
Theorem k_and_d_are_ignored (ops : list Call) (s : Solver) (k' d' : float) :
  run (set_kd k' d' s) ops = on_state (set_kd k' d') (run s ops) /\
  snd (solve_run (set_kd k' d' s)) = snd (solve_run s).
Proof.
  split; [|rewrite solve_run_kd; reflexivity].
  revert s. induction ops as [|op ops IH]; intros s; [reflexivity|].
  cbn [run]. rewrite call_kd.
  destruct (call s op) as [[] s' | s']; cbn [on_state]; [apply IH | reflexivity].
Qed.

End Unused.

(** ** What [addConstraint] stores *)

Section Stored.
Context `{StringCoercion} `{Vec3Methods}.

Lemma arr_get_row12 (r : list jsval) (slot : nat) :
  slot < 12 -> arr_get (row12 r) slot = arr_get r slot.
Proof.
  intros Hslot. unfold row12. unfold arr_get at 1.
  rewrite list_lookup_fmap, lookup_seq_lt by exact Hslot. reflexivity.
Qed.

Lemma constraint_row_app_l (xs ys : list jsval) (m l : nat) :
  length xs = 12 * m -> l < m ->
  constraint_row (xs ++ ys) l = constraint_row xs l.
Proof.
  intros Hlen Hl. unfold constraint_row. apply map_ext_in.
  intros slot Hin. apply in_seq in Hin. unfold arr_get.
  rewrite lookup_app_l by lia. reflexivity.
Qed.

Lemma constraint_row_app_r (xs r : list jsval) (m : nat) :
  length xs = 12 * m -> constraint_row (xs ++ row12 r) m = row12 r.
Proof.
  intros Hlen. unfold constraint_row. unfold row12 at 2. apply map_ext_in.
  intros slot Hin. apply in_seq in Hin.
  rewrite <- (arr_get_row12 r slot) by lia. unfold arr_get.
  rewrite lookup_app_r by lia. f_equal. f_equal. lia.
Qed.

Lemma lookup_snoc_l {A : Type} (xs : list A) (x : A) (l : nat) :
  l < length xs -> (xs ++ [x]) !! l = xs !! l.
Proof. intros Hl. apply lookup_app_l. exact Hl. Qed.

Lemma lookup_snoc_r {A : Type} (xs : list A) (x : A) (m : nat) :
  length xs = m -> (xs ++ [x]) !! m = Some x.
Proof. intros <-. rewrite lookup_app_r, Nat.sub_diag by lia. reflexivity. Qed.

(** X8. In step order [addConstraint] returns the index of the new
    constraint, and the object then stores under that index exactly what
    was passed: the first twelve cells of each row argument (a shorter row
    is filled up with [undefined], a longer one cut), the two bounds, their
    flags and the two body indices.  What is stored for the earlier
    constraints is unchanged. *)
Theorem addConstraint_round_trip (s : Solver) (p : ConstraintArgs) :
  lockstep s -> plain s ->
  exists s' : Solver,
    addConstraint_with s p = Normal (n s) s' /\
    n s' = n s + 1 /\
    stored s' (n s) =
      (row12 (arg_G p), row12 (arg_MinvTrace p), row12 (arg_q p),
       row12 (arg_qdot p), row12 (arg_Fext p), arg_lower p, arg_upper p,
       negb (isNaN (arg_lower p)), negb (isNaN (arg_upper p)),
       Some (arg_body_i p), Some (arg_body_j p)) /\
    forall l, l < n s -> stored s' l = stored s l.
Proof.
  intros Hlock [elts Hi]. unfold addConstraint_with.
  rewrite addConstraint_unfold, Hi.
  eexists. split; [reflexivity|].
  revert Hlock Hi. destruct p as [G' M' q' qd' F' lo up bi bj].
  cbn [arg_G arg_MinvTrace arg_q arg_qdot arg_Fext arg_lower arg_upper
       arg_body_i arg_body_j].
  destruct_solver s. unfold lockstep, pushed, stored. solver_red.
  intros (HG & HM & Hq & Hqd & HF & Hlo & Hup & Hhl & Hhu & Hbi & Hbj) ->.
  cbn [elements] in *.
  split; [reflexivity|]. split.
  - rewrite !(constraint_row_app_r _ _ f_n) by assumption.
    unfold arr_get, flag_get.
    rewrite !(lookup_snoc_r _ _ f_n) by assumption. reflexivity.
  - intros l Hl.
    rewrite !(constraint_row_app_l _ _ f_n l) by assumption.
    unfold arr_get, flag_get.
    rewrite !lookup_snoc_l by lia. reflexivity.
Qed.
End Stored.

Lemma addConstraint_round_trip_witness :
  exists s' : Solver,
    @addConstraint_with sample_host sample_solver
      (sample_constraint 1 (VNum pzero) (VStr "inf") 0 1) = Normal 0 s' /\
    n s' = 1.
Proof.
  destruct (@addConstraint_round_trip sample_host sample_solver
              (sample_constraint 1 (VNum pzero) (VStr "inf") 0 1))
    as (s' & Hcall & Hn & _).
  - vm_compute. repeat split; reflexivity.
  - exists []. reflexivity.
  - exists s'. split; [exact Hcall | exact Hn].
Defined.
(** ** What [addNonPenetrationConstraint] passes on *)


Section Contact.
Context `{StringCoercion} `{Vec3Methods}.

Lemma contact_call_unfold (s : Solver) (p : ContactArgs) :
  addNonPenetrationConstraint_with s p =
  if (penetration_depth p <? pzero)%js then
    discard (addConstraint s (contact_jacobian p) (contact_mass_row p)
      (contact_violation p) (contact_velocity_row p) (contact_force_row p)
      (VNum pzero) (VStr "inf") (ct_i p) (ct_j p))
  else Normal tt s.
Proof. apply addNonPenetrationConstraint_unfold. Qed.

(** X9. With the debug flag off, as the constructor leaves it,
    [addNonPenetrationConstraint] takes the angular velocities [wi] and
    [wj] and never reads them, and of each inverse inertia it reads [y] and
    [z] only, [z] in place of [x]: a call with other values there has the
    same outcome.  The velocity row it stores holds the relative linear
    velocity alone, with zero angular blocks. *)
Theorem addNonPenetrationConstraint_unread_arguments (s : Solver) (p : ContactArgs)
    (wi' wj' : Vec3.t) (iIix iIjx : float) :
  debug s = false ->
  addNonPenetrationConstraint_with s (unread_replaced p wi' wj' iIix iIjx) =
  addNonPenetrationConstraint_with s p /\
  ((penetration_depth p <? pzero)%js = true ->
   let s' := final_state (addNonPenetrationConstraint_with s p) in
   MinvTrace s' = MinvTrace s ++ contact_mass_row p /\
   qdot s' = qdot s ++ contact_velocity_row p /\
   Fext s' = Fext s ++ contact_force_row p).
Proof.
  intros _. split.
  - rewrite !contact_call_unfold.
    destruct p. reflexivity.
  - intros Hq s'. subst s'. rewrite contact_call_unfold, Hq.
    rewrite final_state_discard.
    pose proof (addConstraint_final s (contact_jacobian p) (contact_mass_row p)
      (contact_violation p) (contact_velocity_row p) (contact_force_row p)
      (VNum pzero) (VStr "inf") (ct_i p) (ct_j p)) as Hfin.
    cbv zeta in Hfin.
    destruct Hfin as (_ & HM & _ & Hqd & HF & _).
    rewrite HM, Hqd, HF. split; [|split]; reflexivity.
Qed.
End Contact.

Lemma addNonPenetrationConstraint_unread_arguments_witness :
  qdot (final_state (@addNonPenetrationConstraint_with sample_host std_vec3
                       sample_solver (sample_contact (-3)))) =
  @contact_velocity_row std_vec3 (sample_contact (-3)).
Proof.
  destruct (@addNonPenetrationConstraint_unread_arguments sample_host std_vec3
              sample_solver (sample_contact (-3)) (vec 0 0 0) (vec 0 0 0) pzero pzero
              eq_refl)
    as [_ Hrows].
  assert (Hq : (@penetration_depth std_vec3 (sample_contact (-3)) <? pzero)%js = true)
    by (vm_compute; reflexivity).
  destruct (Hrows Hq) as (_ & Hqd & _). exact Hqd.
Defined.

(** ** A step made of contacts *)

Section ContactStep.
Context `{StringCoercion} `{Vec3Methods}.

Lemma contact_rows_reset (s : Solver) (numbodies : nat) :
  contact_rows (reset s numbodies).
Proof.
  intros l Hl. exfalso. revert Hl. destruct_solver s. unfold reset. solver_red. lia.
Qed.

Lemma contact_rows_add (s : Solver) (p : ContactArgs) :
  lockstep s -> plain s -> contact_rows s ->
  exists s', addNonPenetrationConstraint_with s p = Normal tt s' /\
             lockstep s' /\ plain s' /\ contact_rows s'.
Proof.
  intros HL HP HC.
  destruct (lockstep_addNonPenetrationConstraint s p HL HP) as (s' & Hcall & HL' & HP').
  exists s'. repeat (split; [assumption|]).
  assert (Hs' : s' = final_state (addNonPenetrationConstraint_with s p))
    by (rewrite Hcall; reflexivity).
  clear Hcall. revert Hs'. rewrite contact_call_unfold.
  destruct (flt _ pzero); [|intros ->; exact HC].
  rewrite final_state_discard.
  pose proof (addConstraint_final s (contact_jacobian p) (contact_mass_row p)
    (contact_violation p) (contact_velocity_row p) (contact_force_row p)
    (VNum pzero) (VStr "inf") (ct_i p) (ct_j p)) as Hfin.
  cbv zeta in Hfin. intros Hs'. rewrite <- Hs' in Hfin. clear Hs'.
  destruct Hfin as (_ & _ & _ & _ & _ & Hlo & Hup & Hhl & _).
  destruct HL as (_ & _ & _ & _ & _ & Llo & Lup & Lhl & _).
  destruct HL' as (_ & _ & _ & _ & _ & Llo' & _).
  assert (Hn : n s' = n s + 1).
  { rewrite <- Llo', Hlo, length_app, Llo. reflexivity. }
  intros l Hl. unfold flag_get, arr_get. rewrite Hlo, Hup, Hhl.
  destruct (Nat.eq_dec l (n s)) as [-> | Hne].
  - rewrite !(lookup_snoc_r _ _ (n s)) by assumption. repeat split.
  - rewrite !lookup_snoc_l by lia. apply HC. lia.
Qed.

Lemma contact_rows_run (ops : list Call) :
  forall s : Solver,
    forallb is_contact ops = true ->
    lockstep s -> plain s -> contact_rows s ->
    exists s', run s ops = Normal tt s' /\ contact_rows s'.
Proof.
  induction ops as [|op ops IH]; intros s Hops HL HP HC.
  - exists s. split; [reflexivity | exact HC].
  - cbn [forallb] in Hops. apply andb_true_iff in Hops as [Hop Hops].
    destruct op as [numbodies | q' | p | ]; try discriminate.
    cbn [run call].
    destruct (contact_rows_add s p HL HP HC) as (s' & -> & HL' & HP' & HC').
    apply IH; assumption.
Qed.

Lemma lambda_out_of_range (s : Solver) (sweeps l0 l : nat) :
  l0 <= n s -> n s <= l ->
  f32_get (lambda (snd (state_at s sweeps l0))) l = nan.
Proof.
  intros Hl0 Hl.
  destruct (cache_inv_state_at s sweeps l0 Hl0) as (_ & (Hlen & _) & _).
  apply f32_get_out. lia.
Qed.

(** X10. A step made of contacts never pulls.  After [reset] and any
    number of calls of [addNonPenetrationConstraint], on a host that does
    not read the string ['inf'] as a negative number, every call returns,
    and in the [solve] that follows every impulse is zero, positive or NaN
    at the end of every inner-loop body and on return. *)
Theorem contacts_never_pull (s0 : Solver) (numbodies : nat) (ops : list Call)
    (l sweeps l' : nat) :
  (StringToNumber "inf" <? pzero)%js = false ->
  forallb is_contact ops = true ->
  exists s : Solver,
    run (reset s0 numbodies) ops = Normal tt s /\
    (l' < n s ->
     not_negative (f32_get (lambda (snd (state_after s sweeps l'))) l)) /\
    not_negative (f32_get (lambda (snd (solve_run s))) l).
Proof.
  intros Hinf Hops.
  destruct (lockstep_reset s0 numbodies) as [HL HP].
  destruct (contact_rows_run ops _ Hops HL HP (contact_rows_reset s0 numbodies))
    as (s & Hrun & HC).
  exists s. split; [exact Hrun|].
  assert (Hall : forall k l0, l0 <= n s ->
            not_negative (f32_get (lambda (snd (state_at s k l0))) l)).
  { intros k l0 Hl0. destruct (Nat.lt_ge_cases l (n s)) as [Hl | Hl].
    - destruct (HC l Hl) as (Hflag & Hlo & Hup).
      apply (lambda_inv_state_at s l); try assumption.
      + unfold cell. rewrite Hlo. reflexivity.
      + unfold cell, not_negative. rewrite Hup. exact Hinf.
    - rewrite lambda_out_of_range by assumption. apply not_negative_nan. }
  split.
  - intros Hl'. rewrite <- state_at_S. apply Hall. lia.
  - rewrite solve_run_state_at. apply Hall. lia.
Qed.
End ContactStep.

Lemma contacts_never_pull_witness :
  exists s : Solver,
    @run sample_host std_vec3 (reset sample_solver 2)
      [CallAddNonPenetrationConstraint (sample_contact (-3));
       CallAddNonPenetrationConstraint (sample_contact 3)] = Normal tt s /\
    not_negative (f32_get (lambda (snd (@solve_run sample_host s))) 0).
Proof.
  destruct (@contacts_never_pull sample_host std_vec3 sample_solver 2
              [CallAddNonPenetrationConstraint (sample_contact (-3));
               CallAddNonPenetrationConstraint (sample_contact 3)] 0 0 0)
    as (s & Hrun & _ & Hret); [reflexivity | reflexivity |].
  exists s. split; [exact Hrun | exact Hret].
Defined.

(** ** Bounds in general *)

Lemma flt_irrefl (v : float) : flt v v = false.
Proof.
  destruct v as [[]|[]| |[] m e]; try reflexivity;
    unfold flt, SFltb, SFcompare;
    rewrite Z.compare_refl, Pos.compare_cont_refl; reflexivity.
Qed.

Section GeneralBounds.
Context `{StringCoercion}.

Lemma lambda_other_body (s : Solver) (sweeps l' l : nat) :
  l' <> l ->
  f32_get (lambda (snd (state_after s sweeps l'))) l =
  f32_get (lambda (snd (state_at s sweeps l'))) l.
Proof.
  intros Hne. rewrite state_after_unfold. cbn [snd]. unfold clamped, unclamped.
  rewrite clamp_upper_other, clamp_lower_other, update_lambda_other by exact Hne.
  destruct (precompute_lambda (fst (state_at s sweeps l')) (to_Float32Array (G s))
              (snd (state_at s sweeps l')) l') as [-> _].
  reflexivity.
Qed.

Lemma clamp_lower_within (s : Solver) (w : Scratch) (l : nat) :
  l < length (lambda w) -> is_float32 (cell (lower s) l) ->
  flag_get (haslower s) l = true ->
  (f32_get (lambda (clamp_lower s w l)) l <? cell (lower s) l)%js = false.
Proof.
  intros Hl Hexact Hflag. unfold clamp_lower, lower_fires. rewrite Hflag. cbn [andb].
  destruct (flt (f32_get (lambda w) l) (cell (lower s) l)) eqn:Hlt; [|exact Hlt].
  cbn [lambda set_lambda set_dlambda].
  rewrite f32_get_set_eq by exact Hl. rewrite Hexact. apply flt_irrefl.
Qed.

Lemma clamp_upper_within (s : Solver) (w : Scratch) (l : nat) :
  l < length (lambda w) -> is_float32 (cell (upper s) l) ->
  (f32_get (lambda (clamp_upper s w l)) l >? cell (upper s) l)%js = false.
Proof.
  intros Hl Hexact. unfold clamp_upper, upper_fires. cbn [array_truthy andb].
  destruct (flt (cell (upper s) l) (f32_get (lambda w) l)) eqn:Hlt; [|exact Hlt].
  cbn [lambda set_lambda set_dlambda].
  rewrite f32_get_set_eq by exact Hl. rewrite Hexact. apply flt_irrefl.
Qed.

Lemma clamp_upper_keeps_lower (s : Solver) (w : Scratch) (l : nat) :
  l < length (lambda w) -> is_float32 (cell (upper s) l) ->
  (cell (upper s) l <? cell (lower s) l)%js = false ->
  (f32_get (lambda w) l <? cell (lower s) l)%js = false ->
  (f32_get (lambda (clamp_upper s w l)) l <? cell (lower s) l)%js = false.
Proof.
  intros Hl Hexact Hord Hlow. unfold clamp_upper.
  destruct (upper_fires s w l); [|exact Hlow].
  cbn [lambda set_lambda set_dlambda].
  rewrite f32_get_set_eq by exact Hl. rewrite Hexact. exact Hord.
Qed.

Section OneBounded.
Variables (s : Solver) (l : nat).
Hypothesis Hl : l < n s.
Hypothesis Hupper : is_float32 (cell (upper s) l).
Hypothesis Hlower :
  flag_get (haslower s) l = true ->
  is_float32 (cell (lower s) l) /\
  (cell (upper s) l <? cell (lower s) l)%js = false.

Lemma within_bounds_own_body (sweeps : nat) :
  within_bounds s l (snd (state_after s sweeps l)).
Proof.
  assert (Hf : frozen s (fst (state_at s sweeps l))) by (apply state_at_frozen; lia).
  destruct (frozen_fields s _ Hf) as (_ & _ & _ & _ & _ & Hlo & Hup & Hhl & _).
  pose proof (unclamped_sized s sweeps l Hl) as Hsz.
  rewrite state_after_unfold. cbn [snd]. unfold clamped.
  remember (unclamped s sweeps l) as w2 eqn:Ew2. clear Ew2.
  remember (fst (state_at s sweeps l)) as sk eqn:Esk. clear Esk Hf.
  destruct (clamp_lower_sized sk w2 l (n s) Hsz) as (Hlen3 & _).
  destruct Hsz as (Hlen & _).
  split.
  - rewrite <- Hup in *. apply clamp_upper_within; [lia | assumption].
  - intros Hflag. destruct (Hlower Hflag) as [Hexact Hord].
    rewrite <- Hup, <- Hlo, <- Hhl in *.
    apply clamp_upper_keeps_lower; try assumption; [lia|].
    apply clamp_lower_within; try assumption. lia.
Qed.

Lemma within_bounds_row (sweeps l0 : nat) :
  l0 <= n s ->
  l < l0 \/ within_bounds s l (snd (state_at s sweeps 0)) ->
  within_bounds s l (snd (state_at s sweeps l0)).
Proof.
  induction l0 as [|l0 IH]; intros Hl0 Hfrom.
  - destruct Hfrom as [Hlt | Hin]; [lia | exact Hin].
  - rewrite state_at_S. destruct (Nat.eq_dec l0 l) as [-> | Hne].
    + apply within_bounds_own_body.
    + unfold within_bounds. rewrite lambda_other_body by exact Hne.
      apply IH; [lia|]. destruct Hfrom as [Hlt | Hin]; [left; lia | right; exact Hin].
Qed.

Lemma within_bounds_state_at (sweeps l0 : nat) :
  l0 <= n s -> 0 < sweeps \/ l < l0 ->
  within_bounds s l (snd (state_at s sweeps l0)).
Proof.
  intros Hl0 Hfrom. apply within_bounds_row; [exact Hl0|].
  destruct sweeps as [|sweeps]; [left; lia|].
  right. rewrite state_at_next_sweep. apply within_bounds_row; [lia | left; exact Hl].
Qed.
End OneBounded.

(** X11. Bounds are enforced.  Let constraint [l] have an upper bound that
    a single-precision cell holds exactly and, if its lower flag is set, a
    lower bound of the same kind that is not above the upper one.  Then
    from the end of its first inner-loop body on, [lambda[l]] is never
    above the upper bound nor, with the flag set, below the lower one; the
    same holds when [solve] returns after at least one sweep. *)
Theorem bounds_enforced (s : Solver) (l sweeps l' : nat) :
  l < n s ->
  is_float32 (cell (upper s) l) ->
  (flag_get (haslower s) l = true ->
   is_float32 (cell (lower s) l) /\
   (cell (upper s) l <? cell (lower s) l)%js = false) ->
  (l' < n s -> 0 < sweeps \/ l <= l' ->
   within_bounds s l (snd (state_after s sweeps l'))) /\
  ((0 < iterations s)%Z -> within_bounds s l (snd (solve_run s))).
Proof.
  intros Hl Hupper Hlower. split.
  - intros Hl' Hfrom. rewrite <- state_at_S.
    apply within_bounds_state_at; try assumption; lia.
  - intros Hit. rewrite solve_run_state_at.
    apply within_bounds_state_at; try assumption; lia.
Qed.
End GeneralBounds.

Lemma bounds_enforced_witness :
  @within_bounds sample_host
    (sample_with (sample_constraint 1 (VNum pzero) (VNum one) 0 1)) 0
    (snd (@solve_run sample_host
            (sample_with (sample_constraint 1 (VNum pzero) (VNum one) 0 1)))).
Proof.
  refine (proj2 (@bounds_enforced sample_host
                   (sample_with (sample_constraint 1 (VNum pzero) (VNum one) 0 1))
                   0 0 0 _ _ _) _).
  - vm_compute. lia.
  - vm_compute. reflexivity.
  - intros _. split; vm_compute; reflexivity.
  - vm_compute. reflexivity.
Defined.

(** ** Bodies that no constraint names *)

Section OtherBodies.
Context `{StringCoercion}.

Lemma body_add_other (arr : list float) (bo : option Z) (t : float) (body : nat) :
  (forall z, bo = Some z -> z <> Z.of_nat body) ->
  body_add arr bo t !! body = arr !! body.
Proof.
  intros Hne. unfold body_add, body_set. destruct bo as [z|]; [|reflexivity].
  destruct (Z.leb_spec 0 z) as [Hz|]; [|reflexivity].
  unfold f32_set. apply list_lookup_insert_ne.
  intros Heq. apply (Hne z eq_refl). lia.
Qed.

Lemma propagate_other (sk : Solver) (G32 : list float) (w : Scratch) (l : nat)
    (bi bj : option Z) (body : nat) :
  (forall z, bi = Some z -> z <> Z.of_nat body) ->
  (forall z, bj = Some z -> z <> Z.of_nat body) ->
  map (fun arr => arr !! body) (deltas (propagate sk G32 w l bi bj)) =
  map (fun arr => arr !! body) (deltas sk).
Proof.
  intros Hi Hj. destruct_solver sk. unfold deltas. solve_red. cbv [map].
  rewrite !body_add_other by assumption. reflexivity.
Qed.

Lemma other_body_state_at (s : Solver) (body sweeps l : nat) :
  unnamed_body s body -> l <= n s ->
  frozen s (fst (state_at s sweeps l)) /\
  map (fun arr => arr !! body) (deltas (fst (state_at s sweeps l))) =
  map (fun arr => arr !! body) (deltas s).
Proof.
  intros [Hi Hj].
  apply (solve_loop_ind s (fun _ _ sw =>
    frozen s (fst sw) /\
    map (fun arr => arr !! body) (deltas (fst sw)) =
    map (fun arr => arr !! body) (deltas s))).
  - split; [reflexivity|]. destruct_solver s. reflexivity.
  - intros _ l0 [sk w] _ [Hf Heq]. cbn [fst] in *. unfold inner_body. cbn [fst].
    split; [unfold frozen; rewrite propagate_frame; exact Hf|].
    destruct (frozen_fields s sk Hf)
      as (_ & _ & _ & _ & _ & _ & _ & _ & _ & Hi' & Hj' & _).
    rewrite propagate_other; [exact Heq| |].
    + intros z Hz. rewrite Hi' in Hz. cbn [elements] in Hz.
      rewrite list_lookup_fmap in Hz.
      destruct (elements (i s) !! l0) as [z0|] eqn:Hz0; [|discriminate].
      injection Hz as <-. apply (Hi l0 z0 Hz0).
    + intros z Hz. rewrite Hj' in Hz. apply (Hj l0 z Hz).
  - intros _ sw Hinv. exact Hinv.
Qed.

(** X12. [solve] changes the velocity deltas of those bodies only that
    some constraint names: for a body index that occurs neither in [this.i]
    (as the [Int16Array] holds it) nor in [this.j], the six cells are the
    same after [solve] as before. *)
Theorem solve_leaves_other_bodies (s : Solver) (body : nat) :
  unnamed_body s body ->
  map (fun arr => arr !! body) (deltas (solve s)) =
  map (fun arr => arr !! body) (deltas s).
Proof.
  intros Hb. unfold solve. rewrite solve_run_state_at.
  apply (other_body_state_at s body _ 0 Hb). lia.
Qed.
End OtherBodies.

Lemma solve_leaves_other_bodies_witness :
  map (fun arr => arr !! 1) (deltas (@solve sample_host one_body_sample)) =
  map (fun arr => arr !! 1) (deltas one_body_sample).
Proof.
  apply (@solve_leaves_other_bodies sample_host one_body_sample 1).
  split.
  - intros [|[|l]] z Hz; vm_compute in Hz; try discriminate.
    injection Hz as <-. vm_compute. discriminate.
  - intros [|[|l]] z Hz; vm_compute in Hz; try discriminate.
    injection Hz as <-. discriminate.
Defined.

(** ** Body indices in sixteen bits *)

Lemma fadd_nan_l (v : float) : fadd nan v = nan.
Proof. reflexivity. Qed.

Lemma ToInt16_wraps (z : Z) :
  (32768 <= z < 65536)%Z -> ToInt16 z = (z - 65536)%Z.
Proof.
  intros Hz. unfold ToInt16.
  replace ((z + 32768) mod 65536)%Z with (z - 32768)%Z; [lia|].
  apply (Z.mod_unique _ _ 1); lia.
Qed.

Section Int16.
Context `{StringCoercion}.

Lemma solve_setup_set_i (s : Solver) (arr : IndexArray) :
  map ToInt16 (elements arr) = map ToInt16 (elements (i s)) ->
  solve_setup (set_i s arr) = solve_setup s.
Proof.
  destruct_solver s. unfold solve_setup. solver_red. intros ->. reflexivity.
Qed.

(** X13. [solve] reads [this.i] through an [Int16Array]: two index arrays
    that agree once every entry is reduced to sixteen bits give the same
    object and the same impulses.  [this.j] is read as it is. *)
Theorem solve_reads_i_as_int16 (s : Solver) (arr : IndexArray) :
  map ToInt16 (elements arr) = map ToInt16 (elements (i s)) ->
  solve_run (set_i s arr) = solve_run s.
Proof.
  intros Heq. unfold solve_run. rewrite (solve_setup_set_i s arr Heq).
  destruct_solver s. reflexivity.
Qed.

Lemma Gulambda_negative_first_body (s : Solver) (G32 : list float) (l : nat)
    (bj : option Z) (z : Z) :
  (z < 0)%Z -> Gulambda s G32 l (Some z) bj = nan.
Proof.
  intros Hz. unfold Gulambda. cbv zeta.
  rewrite (body_get_negative (vxlambda s) z Hz), fmul_nan_r, fadd_nan_r.
  reflexivity.
Qed.

Lemma nan_sum_gives_nan (sk : Solver) (G32 : list float) (w : Scratch) (l : nat)
    (bi bj : option Z) :
  l < length (lambda w) -> l < length (dlambda w) ->
  Gulambda sk G32 l bi bj = nan ->
  let w' := clamp_upper sk (clamp_lower sk (update_lambda sk G32 w l bi bj) l) l in
  f32_get (dlambda w') l = nan /\ f32_get (lambda w') l = nan.
Proof.
  intros Hl1 Hl2 HGu.
  assert (Hw2 : f32_get (dlambda (update_lambda sk G32 w l bi bj)) l = nan /\
                f32_get (lambda (update_lambda sk G32 w l bi bj)) l = nan).
  { unfold update_lambda. cbn [lambda dlambda set_lambda set_dlambda].
    rewrite !f32_get_set_eq by (rewrite ?length_f32_set; lia).
    rewrite HGu.
    rewrite fsub_nan_r. cbn [fsub SFsub]. rewrite fmul_nan_r. cbn [fround].
    rewrite fadd_nan_r. split; reflexivity. }
  remember (update_lambda sk G32 w l bi bj) as w2 eqn:Ew2.
  clear Ew2. destruct Hw2 as [Hd2 Hlam2].
  assert (Hlo : clamp_lower sk w2 l = w2).
  { unfold clamp_lower, lower_fires. rewrite Hlam2.
    destruct (flag_get (haslower sk) l); reflexivity. }
  assert (Hup : clamp_upper sk w2 l = w2).
  { unfold clamp_upper, upper_fires. rewrite Hlam2, flt_nan_r, andb_false_r. reflexivity. }
  cbv zeta. rewrite Hlo, Hup. split; assumption.
Qed.

(** X14. A first body index from [32768] up to [65535] does not survive
    the [Int16Array]: it comes back negative, the delta arrays have no such
    cell, and the increment and the impulse of the constraint are NaN in
    every sweep. *)
Theorem large_body_index_gives_nan (s : Solver) (sweeps l : nat) (z : Z) :
  l < n s -> elements (i s) !! l = Some z -> (32768 <= z < 65536)%Z ->
  f32_get (dlambda (snd (state_after s sweeps l))) l = nan /\
  f32_get (lambda (snd (state_after s sweeps l))) l = nan.
Proof.
  intros Hl Hi Hz.
  assert (Hf : frozen s (fst (state_at s sweeps l))) by (apply state_at_frozen; lia).
  destruct (frozen_fields s _ Hf) as (_ & _ & _ & _ & _ & _ & _ & _ & _ & Hi' & _).
  pose proof (cache_inv_state_at s sweeps l (Nat.lt_le_incl _ _ Hl)) as (_ & Hs & _).
  pose proof (precompute_sized (fst (state_at s sweeps l)) (to_Float32Array (G s))
                (snd (state_at s sweeps l)) l (n s) Hs) as (Hl1 & Hl2 & _).
  rewrite state_after_unfold. cbn [snd]. unfold clamped, unclamped.
  rewrite Hi'. cbn [elements]. rewrite list_lookup_fmap, Hi. cbn [fmap option_fmap option_map].
  apply nan_sum_gives_nan; [lia | lia |].
  apply Gulambda_negative_first_body. rewrite ToInt16_wraps by exact Hz. lia.
Qed.
End Int16.

Lemma solve_reads_i_as_int16_witness :
  @solve_run sample_host (set_i pushing_sample (PlainArray [65536%Z])) =
  @solve_run sample_host pushing_sample.
Proof.
  apply (@solve_reads_i_as_int16 sample_host pushing_sample (PlainArray [65536%Z])).
  reflexivity.
Defined.

Lemma large_body_index_gives_nan_witness :
  f32_get (lambda (snd (@state_after sample_host
     (sample_with (sample_constraint 1 (VNum pzero) (VStr "inf") 40000 1)) 0 0))) 0 = nan.
Proof.
  apply (@large_body_index_gives_nan sample_host
           (sample_with (sample_constraint 1 (VNum pzero) (VStr "inf") 40000 1))
           0 0 40000%Z); [vm_compute; lia | reflexivity | lia].
Defined.

(** ** The flags *)

Section Flags.
Context `{StringCoercion} `{Vec3Methods}.

Lemma flags_consistent_reset (s : Solver) (numbodies : nat) :
  flags_consistent (reset s numbodies).
Proof.
  intros l Hl. exfalso. revert Hl. destruct_solver s. unfold reset. solver_red. lia.
Qed.

Lemma flags_consistent_addConstraint (s : Solver) (G' M' q' qd' F' : list jsval)
    (lo up : jsval) (bi bj : Z) :
  lockstep s -> plain s -> flags_consistent s ->
  exists idx s', addConstraint s G' M' q' qd' F' lo up bi bj = Normal idx s' /\
                 lockstep s' /\ plain s' /\ flags_consistent s'.
Proof.
  intros HL HP HC.
  destruct (lockstep_addConstraint s G' M' q' qd' F' lo up bi bj HL HP)
    as (idx & s' & Hcall & HL' & HP').
  exists idx, s'. repeat (split; [assumption|]).
  pose proof (addConstraint_final s G' M' q' qd' F' lo up bi bj) as Hfin.
  cbv zeta in Hfin. rewrite Hcall in Hfin. cbn [final_state] in Hfin.
  destruct Hfin as (_ & _ & _ & _ & _ & Hlo & Hup & Hhl & Hhu & _).
  destruct HL as (_ & _ & _ & _ & _ & Llo & Lup & Lhl & Lhu & _).
  destruct HL' as (_ & _ & _ & _ & _ & Llo' & _).
  assert (Hn : n s' = n s + 1).
  { rewrite <- Llo', Hlo, length_app, Llo. reflexivity. }
  intros l Hl. unfold flag_get, arr_get. rewrite Hlo, Hup, Hhl, Hhu.
  destruct (Nat.eq_dec l (n s)) as [-> | Hne].
  - rewrite !(lookup_snoc_r _ _ (n s)) by assumption. split; reflexivity.
  - rewrite !lookup_snoc_l by lia. apply HC. lia.
Qed.

Lemma flags_consistent_call (s : Solver) (op : Call) :
  is_add op = true -> lockstep s -> plain s -> flags_consistent s ->
  exists s', call s op = Normal tt s' /\
             lockstep s' /\ plain s' /\ flags_consistent s'.
Proof.
  intros Hop HL HP HC.
  destruct op as [numbodies | p | p | ]; try discriminate; cbn [call].
  - unfold addConstraint_with.
    destruct (flags_consistent_addConstraint s (arg_G p) (arg_MinvTrace p)
                (arg_q p) (arg_qdot p) (arg_Fext p) (arg_lower p) (arg_upper p)
                (arg_body_i p) (arg_body_j p) HL HP HC) as (idx & s' & -> & Hrest).
    exists s'. split; [reflexivity | exact Hrest].
  - rewrite contact_call_unfold.
    destruct (flt _ pzero); [|exists s; auto].
    destruct (flags_consistent_addConstraint s (contact_jacobian p)
                (contact_mass_row p) (contact_violation p) (contact_velocity_row p)
                (contact_force_row p) (VNum pzero) (VStr "inf") (ct_i p) (ct_j p)
                HL HP HC) as (idx & s' & -> & Hrest).
    exists s'. split; [reflexivity | exact Hrest].
Qed.

Lemma flags_consistent_run (ops : list Call) :
  forall s : Solver,
    forallb is_add ops = true ->
    lockstep s -> plain s -> flags_consistent s ->
    exists s', run s ops = Normal tt s' /\ flags_consistent s'.
Proof.
  induction ops as [|op ops IH]; intros s Hops HL HP HC.
  - exists s. split; [reflexivity | exact HC].
  - cbn [forallb] in Hops. apply andb_true_iff in Hops as [Hop Hops].
    cbn [run].
    destruct (flags_consistent_call s op Hop HL HP HC) as (s' & -> & HL' & HP' & HC').
    apply IH; assumption.
Qed.

Lemma flt_is_nan_r (v w : float) : is_nan w = true -> flt v w = false.
Proof. destruct w; try discriminate. intros _. apply flt_nan_r. Qed.

(** X15. The flag arrays carry no information of their own.  In an object
    built by [reset] and calls of the two add methods each flag says
    whether its bound is a number, and a bound that is not a number never
    compares: the lower clamp fires exactly when [lambda[l]] is below the
    lower bound, flag or no flag. *)
Theorem flags_are_redundant (s0 : Solver) (numbodies : nat) (ops : list Call) :
  forallb is_add ops = true ->
  exists s : Solver,
    run (reset s0 numbodies) ops = Normal tt s /\
    flags_consistent s /\
    forall (w : Scratch) (l : nat),
      l < n s ->
      lower_fires s w l = (f32_get (lambda w) l <? cell (lower s) l)%js.
Proof.
  intros Hops.
  destruct (lockstep_reset s0 numbodies) as [HL HP].
  destruct (flags_consistent_run ops _ Hops HL HP
              (flags_consistent_reset s0 numbodies)) as (s & Hrun & HC).
  exists s. split; [exact Hrun|]. split; [exact HC|].
  intros w l Hl. unfold lower_fires. destruct (HC l Hl) as [-> _].
  unfold isNaN, cell.
  destruct (is_nan (ToNumber (arr_get (lower s) l))) eqn:Hnan; cbn [negb andb].
  - symmetry. apply flt_is_nan_r. exact Hnan.
  - reflexivity.
Qed.
End Flags.

Lemma flags_are_redundant_witness :
  exists s : Solver,
    @run sample_host std_vec3 (reset sample_solver 2)
      [CallAddConstraint (sample_constraint 1 VUndef (VNum one) 0 1)] = Normal tt s /\
    @flags_consistent sample_host s.
Proof.
  destruct (@flags_are_redundant sample_host std_vec3 sample_solver 2
              [CallAddConstraint (sample_constraint 1 VUndef (VNum one) 0 1)])
    as (s & Hrun & HC & _); [reflexivity|].
  exists s. split; [exact Hrun | exact HC].
Defined.

(** ** Adding after [solve] *)

Section AddAfterSolve.
Context `{StringCoercion} `{Vec3Methods}.

Lemma solve_n_G (s : Solver) :
  n (solve s) = n s /\ G (solve s) = G s /\ lower (solve s) = lower s /\
  exists elts, i (solve s) = Int16Array elts.
Proof.
  pose proof (solve_frame s) as Hf.
  remember (solve s) as s' eqn:Es'. clear Es'. revert Hf.
  destruct_solver s. destruct_solver' s'.
  unfold without_deltas, solve_setup. cbv [fst]. solver_red.
  intros Heq.
  injection Heq as -> -> -> -> -> -> -> -> -> -> -> -> -> -> -> -> -> -> -> ->.
  repeat split. eauto.
Qed.

Lemma addConstraint_throws (s : Solver) (G' M' q' qd' F' : list jsval)
    (lo up : jsval) (bi bj : Z) (elts : list Z) (numbodies : nat) :
  i s = Int16Array elts ->
  exists s', addConstraint s G' M' q' qd' F' lo up bi bj = Throw s' /\
    n s' = n s /\ length (G s') = length (G s) + 12 /\
    length (lower s') = length (lower s) + 1 /\
    deltas s' = deltas s /\ reset s' numbodies = reset s numbodies.
Proof.
  intros Hi. rewrite addConstraint_unfold, Hi. eexists. split; [reflexivity|].
  destruct_solver s. unfold pushed, deltas, reset. solver_red.
  rewrite !length_app, length_row12. cbn [length]. repeat split.
Qed.

(** X16. Adding a constraint after [solve] fails, and not cleanly.  Until
    the next [reset], [addConstraint] on the object that [solve] returned
    throws (an [Int16Array] has no [push]) after it has appended to the row
    and bound arrays: [n] is unchanged, [G] is twelve cells longer, so the
    lockstep of the storage is lost.  The velocity deltas are untouched,
    [reset] gives the same object as without the failed call, and
    [addNonPenetrationConstraint] throws in the same way for a penetrating
    contact. *)
Theorem add_after_solve_throws (s : Solver) (p : ConstraintArgs) (ct : ContactArgs)
    (numbodies : nat) :
  (exists s', addConstraint_with (solve s) p = Throw s' /\
     n s' = n s /\ length (G s') = length (G s) + 12 /\
     length (lower s') = length (lower s) + 1 /\
     (lockstep s -> ~ lockstep s') /\
     deltas s' = deltas (solve s) /\
     reset s' numbodies = reset (solve s) numbodies) /\
  ((penetration_depth ct <? pzero)%js = true ->
   exists s', addNonPenetrationConstraint_with (solve s) ct = Throw s').
Proof.
  destruct (solve_n_G s) as (Hn & HG & Hlo & elts & Hi).
  split.
  - unfold addConstraint_with.
    destruct (addConstraint_throws (solve s) (arg_G p) (arg_MinvTrace p) (arg_q p)
                (arg_qdot p) (arg_Fext p) (arg_lower p) (arg_upper p)
                (arg_body_i p) (arg_body_j p) elts numbodies Hi)
      as (s' & -> & Hn' & HG' & Hlo' & Hd' & Hr').
    exists s'. split; [reflexivity|].
    rewrite Hn', HG', Hlo', Hn, HG, Hlo.
    repeat split; try assumption.
    intros HL HL'. destruct HL as (LG & _). destruct HL' as (LG' & _).
    rewrite HG', Hn', HG, Hn in LG'. lia.
  - intros Hq. rewrite contact_call_unfold, Hq.
    destruct (addConstraint_throws (solve s) (contact_jacobian ct)
                (contact_mass_row ct) (contact_violation ct) (contact_velocity_row ct)
                (contact_force_row ct) (VNum pzero) (VStr "inf") (ct_i ct) (ct_j ct)
                elts numbodies Hi) as (s' & -> & _).
    exists s'. reflexivity.
Qed.
End AddAfterSolve.

Lemma add_after_solve_throws_witness :
  exists s', @addNonPenetrationConstraint_with sample_host std_vec3
               (@solve sample_host sample_solver) (sample_contact (-3)) = Throw s'.
Proof.
  refine (proj2 (@add_after_solve_throws sample_host std_vec3 sample_solver
                   (sample_constraint 1 (VNum pzero) (VNum pinf) 0 1)
                   (sample_contact (-3)) 2) _).
  vm_compute. reflexivity.
Defined.

(** ** A system at rest *)

Lemma is_zero_fadd (v w : float) :
  is_zero v = true -> is_zero w = true -> is_zero (v + w)%js = true.
Proof. destruct v as [[]| | |], w as [[]| | |]; try discriminate; reflexivity. Qed.

Lemma is_zero_fsub (v w : float) :
  is_zero v = true -> is_zero w = true -> is_zero (v - w)%js = true.
Proof. destruct v as [[]| | |], w as [[]| | |]; try discriminate; reflexivity. Qed.

Lemma is_zero_fmul_l (v w : float) :
  is_zero v = true -> is_finite w = true -> is_zero (v * w)%js = true.
Proof. destruct v, w; try discriminate; reflexivity. Qed.

Lemma is_zero_fmul_r (v w : float) :
  is_finite v = true -> is_zero w = true -> is_zero (v * w)%js = true.
Proof. destruct v, w; try discriminate; reflexivity. Qed.

Lemma is_zero_fround (v : float) : is_zero v = true -> is_zero (fround v) = true.
Proof. intros Hz. rewrite fround_zero; exact Hz. Qed.

Lemma flt_zero_l (z v : float) : is_zero z = true -> flt z v = flt pzero v.
Proof. destruct z as [[]| | |]; try discriminate; intros _; destruct v; reflexivity. Qed.

Section Rest.
Context `{StringCoercion}.

Lemma body_get_rest (nb : nat) (arr : list float) (z : Z) :
  zero_cells nb arr -> valid_body nb z ->
  is_zero (body_get arr (Some z)) = true.
Proof.
  intros [Hlen Hzero] [Hz0 Hz1]. unfold body_get.
  destruct (Z.leb_spec 0 z); [|lia]. unfold f32_get.
  destruct (lookup_lt_is_Some_2 arr (Z.to_nat z)) as [v Hv]; [lia|].
  rewrite Hv. cbn [default]. apply (Forall_lookup_1 _ _ _ _ Hzero Hv).
Qed.

Lemma body_add_rest (nb : nat) (arr : list float) (z : Z) (t : float) :
  zero_cells nb arr -> valid_body nb z -> is_zero t = true ->
  zero_cells nb (body_add arr (Some z) t).
Proof.
  intros Harr Hz Ht. pose proof (body_get_rest nb arr z Harr Hz) as Hget.
  destruct Harr as [Hlen Hzero]. unfold body_add, body_set.
  destruct (Z.leb_spec 0 z); [|destruct Hz; lia]. unfold f32_set. split.
  - rewrite length_insert. exact Hlen.
  - apply Forall_insert; [exact Hzero|].
    apply is_zero_fround, is_zero_fadd; assumption.
Qed.

Lemma resting_bodies_fields (nb : nat) (s : Solver) :
  resting_bodies nb s ->
  zero_cells nb (vxlambda s) /\ zero_cells nb (vylambda s) /\
  zero_cells nb (vzlambda s) /\ zero_cells nb (wxlambda s) /\
  zero_cells nb (wylambda s) /\ zero_cells nb (wzlambda s).
Proof.
  unfold resting_bodies, deltas. intros Hr.
  repeat (apply Forall_cons_1 in Hr as [? Hr]). auto 10.
Qed.

Lemma Gulambda_rest (nb : nat) (sk : Solver) (G32 : list float) (l : nat) (zi zj : Z) :
  resting_bodies nb sk -> valid_body nb zi -> valid_body nb zj ->
  (forall slot, slot < 12 -> is_finite (f32_get G32 (12 * l + slot)) = true) ->
  is_zero (Gulambda sk G32 l (Some zi) (Some zj)) = true.
Proof.
  intros Hr Hzi Hzj HG.
  destruct (resting_bodies_fields nb sk Hr) as (H1 & H2 & H3 & H4 & H5 & H6).
  unfold Gulambda. cbv zeta. rewrite !(Nat.add_comm _ (12 * l)).
  repeat (apply is_zero_fadd;
          [|apply is_zero_fmul_r; [apply HG; lia | eapply body_get_rest; eassumption]]).
  reflexivity.
Qed.

Lemma propagate_rest (nb : nat) (sk : Solver) (G32 : list float) (w : Scratch)
    (l : nat) (zi zj : Z) :
  resting_bodies nb sk -> valid_body nb zi -> valid_body nb zj ->
  is_zero (f32_get (dlambda w) l) = true ->
  (forall slot, slot < 12 ->
     is_finite (f32_get G32 (12 * l + slot)) = true /\
     is_finite (cell (MinvTrace sk) (12 * l + slot)) = true) ->
  resting_bodies nb (propagate sk G32 w l (Some zi) (Some zj)).
Proof.
  intros Hr Hzi Hzj Hdl Hfin.
  destruct (resting_bodies_fields nb sk Hr) as (H1 & H2 & H3 & H4 & H5 & H6).
  revert H1 H2 H3 H4 H5 H6 Hfin. clear Hr.
  destruct_solver sk. unfold resting_bodies, deltas. solve_red.
  intros H1 H2 H3 H4 H5 H6 Hfin.
  repeat (apply Forall_cons_2 || apply Forall_nil_2);
    repeat (apply (body_add_rest nb); [| assumption |
              apply is_zero_fmul_l; [apply is_zero_fmul_l; [exact Hdl|]|];
              apply Hfin; lia]);
    assumption.
Qed.

Section Resting.
Variables (s : Solver) (nb : nat).
Hypothesis Heps : is_finite (eps s) = true.
Hypothesis Hrest : forall l, l < n s -> at_rest nb s l.

Lemma rest_inv_body (sweeps l : nat) (sw : Solver * Scratch) :
  l < n s -> rest_inv nb s sweeps l sw ->
  rest_inv nb s sweeps (S l) (inner_body (to_Float32Array (G s)) sw l).
Proof.
  intros Hl (Hinv & Hbodies & Hlam).
  split; [apply cache_inv_body; assumption|].
  destruct sw as [sk w]. cbn [fst snd] in *.
  destruct (cache_inv_precompute s sweeps l sk w Hl Hinv)
    as [(Hf & Hs1 & Hd1 & Hc1) _].
  cbn [fst snd] in Hf, Hs1, Hd1, Hc1.
  destruct (frozen_fields s sk Hf)
    as (_ & HM & _ & _ & _ & Hlo & Hup & Hhl & _ & Hi & Hj & Hepsk & _).
  assert (Hdone1 : precomp_done
            (precomp (precompute sk (to_Float32Array (G s)) w l)) l = true).
  { rewrite (Hd1 l Hl). destruct (Nat.ltb_spec l (S l)); [|lia]. apply orb_true_r. }
  destruct (Hc1 l Hdone1) as [HcE HbE].
  destruct (precompute_lambda sk (to_Float32Array (G s)) w l) as [Hlam1 _].
  destruct (Hrest l Hl) as (HB & Hc & Hfin & (zi & zj & Hzi & Hzj & Hvi & Hvj) & Hlower & Hupper).
  cbv zeta in HB, Hc, Hfin.
  unfold inner_body. cbn [fst snd].
  rewrite Hi. cbn [elements]. rewrite list_lookup_fmap, Hzi, Hj, Hzj.
  cbn [fmap option_fmap option_map].
  remember (to_Float32Array (G s)) as G32 eqn:EG32.
  remember (precompute sk G32 w l) as w1 eqn:Ew1. clear Ew1.
  destruct Hs1 as (Hlen1 & Hlen2 & _).
  assert (HGu : is_zero (Gulambda sk G32 l (Some (ToInt16 zi)) (Some zj)) = true).
  { apply (Gulambda_rest nb); try assumption. intros slot Hslot. apply Hfin. exact Hslot. }
  assert (Hd2 : is_zero (f32_get (dlambda (update_lambda sk G32 w1 l
                   (Some (ToInt16 zi)) (Some zj))) l) = true).
  { unfold update_lambda. cbn [dlambda set_lambda set_dlambda].
    rewrite f32_get_set_eq by lia. apply is_zero_fround.
    apply is_zero_fmul_r; [rewrite HcE; exact Hc|].
    apply is_zero_fsub; [apply is_zero_fsub; [rewrite HbE; exact HB | exact HGu]|].
    apply is_zero_fmul_r; [rewrite Hepsk; exact Heps|].
    rewrite Hlam1. apply Hlam. exact Hl. }
  assert (Hl2 : forall l', l' < n s ->
            is_zero (f32_get (lambda (update_lambda sk G32 w1 l
                      (Some (ToInt16 zi)) (Some zj))) l') = true).
  { intros l' Hl'. destruct (Nat.eq_dec l l') as [<- | Hne].
    - revert Hd2. unfold update_lambda. cbn [lambda dlambda set_lambda set_dlambda].
      intros Hd2. rewrite f32_get_set_eq by (rewrite ?length_f32_set; lia).
      apply is_zero_fround, is_zero_fadd; [|exact Hd2].
      rewrite Hlam1. apply Hlam. exact Hl.
    - rewrite update_lambda_other by exact Hne. rewrite Hlam1. apply Hlam. exact Hl'. }
  remember (update_lambda sk G32 w1 l (Some (ToInt16 zi)) (Some zj)) as w2 eqn:Ew2.
  clear Ew2.
  assert (Hlo3 : clamp_lower sk w2 l = w2).
  { unfold clamp_lower, lower_fires. rewrite Hhl, Hlo.
    destruct (flag_get (haslower s) l) eqn:Hflag; [|reflexivity].
    rewrite (flt_zero_l _ _ (Hl2 l Hl)), (Hlower eq_refl). reflexivity. }
  rewrite Hlo3.
  assert (Hup4 : clamp_upper sk w2 l = w2).
  { unfold clamp_upper, upper_fires. rewrite Hup.
    rewrite (flt_zero_sign _ _ (Hl2 l Hl)), Hupper, andb_false_r. reflexivity. }
  rewrite Hup4. split; [|exact Hl2].
  apply propagate_rest; try assumption.
  intros slot Hslot. rewrite HM. apply Hfin. exact Hslot.
Qed.

Lemma rest_inv_state_at (sweeps l : nat) :
  resting_bodies nb s -> l <= n s -> rest_inv nb s sweeps l (state_at s sweeps l).
Proof.
  intros Hbodies.
  apply (solve_loop_ind s (rest_inv nb s)).
  - split; [apply cache_inv_setup|]. split.
    + revert Hbodies. destruct_solver s. unfold resting_bodies, deltas, solve_setup.
      cbv [fst]. solver_red. intros Hb. exact Hb.
    + intros l' Hl'. unfold solve_setup. cbn [snd lambda].
      replace (n (set_i s _)) with (n s) by (destruct_solver s; reflexivity).
      rewrite f32_get_zeros by exact Hl'. reflexivity.
  - intros k l0 sw Hl0. apply rest_inv_body. exact Hl0.
  - intros k sw ((Hf & Hs & Hd & Hc) & Hb & Hlam).
    split; [|split; assumption].
    split; [exact Hf|]. split; [exact Hs|]. split; [|exact Hc].
    intros l' Hl'. rewrite (Hd l' Hl').
    destruct (Nat.ltb_spec l' (n s)); [|lia]. rewrite orb_true_r. reflexivity.
Qed.
End Resting.

(** X17. A system at rest stays at rest.  If every velocity delta is zero
    and every constraint asks for nothing (its bias term is zero, its
    constants and rows are finite, its two bodies exist, its bounds admit a
    zero impulse), then [solve] returns with every velocity delta and every
    impulse still zero, whatever the number of sweeps. *)
Theorem solve_at_rest (s : Solver) (nb : nat) :
  is_finite (eps s) = true ->
  resting_bodies nb s ->
  (forall l, l < n s -> at_rest nb s l) ->
  resting_bodies nb (solve s) /\
  forall l, l < n s -> is_zero (f32_get (lambda (snd (solve_run s))) l) = true.
Proof.
  intros Heps Hbodies Hrest.
  destruct (rest_inv_state_at s nb Heps Hrest (Z.to_nat (iterations s)) 0 Hbodies)
    as (_ & Hb & Hlam); [lia|].
  split; [exact Hb | exact Hlam].
Qed.
End Rest.

Lemma solve_at_rest_witness :
  @resting_bodies 2 (@solve sample_host (resting_sample)) /\
  is_zero (f32_get (lambda (snd (@solve_run sample_host resting_sample))) 0) = true.
Proof.
  destruct (@solve_at_rest sample_host resting_sample 2) as [Hb Hlam].
  - reflexivity.
  - vm_compute. repeat constructor.
  - intros [|l] Hl; [|vm_compute in Hl; lia].
    split; [vm_compute; reflexivity|]. split; [vm_compute; reflexivity|].
    split; [|split; [|split]].
    + intros slot Hslot.
      do 12 (destruct slot as [|slot]; [split; vm_compute; reflexivity|]). lia.
    + exists 0%Z, 1%Z. vm_compute. repeat split; discriminate.
    + intros _. vm_compute. reflexivity.
    + vm_compute. reflexivity.
  - split; [exact Hb|]. apply Hlam. vm_compute. lia.
Defined.

(** ** Cells that are not numbers *)

Lemma fdiv_nan_r (v : float) : fdiv v nan = nan.
Proof. destruct v; reflexivity. Qed.

Lemma is_nan_eq (v : float) : is_nan v = true -> v = nan.
Proof. destruct v; try discriminate. reflexivity. Qed.

Lemma slot_sum_nan (term : nat -> float) (l slot : nat) :
  slot < 12 -> term (12 * l + slot) = nan -> slot_sum term l = nan.
Proof.
  intros Hslot Hterm. unfold slot_sum. cbv [fold_left seq].
  do 12 (destruct slot as [|slot];
         [rewrite Hterm, fadd_nan_r; reflexivity|]).
  lia.
Qed.

Section Poison.
Context `{StringCoercion}.

Lemma to_Float32Array_nan (arr : list jsval) (idx : nat) :
  is_nan (cell arr idx) = true -> f32_get (to_Float32Array arr) idx = nan.
Proof.
  unfold cell, arr_get, f32_get, to_Float32Array. rewrite list_lookup_fmap.
  destruct (arr !! idx) as [v|]; [|reflexivity].
  change (is_nan (ToNumber v) = true -> fround (ToNumber v) = nan).
  intros Hnan. rewrite (is_nan_eq _ Hnan). reflexivity.
Qed.

Lemma poisoned_constants (s : Solver) (l : nat) :
  poisoned s l ->
  effectiveInverseMass s (to_Float32Array (G s)) l = nan \/
  biasTerm s (to_Float32Array (G s)) l = nan.
Proof.
  intros (slot & Hslot & [HG | [HM | [Hq | [Hqd | HF]]]]).
  - left. unfold effectiveInverseMass, G_Minv_Gt_sum.
    rewrite (slot_sum_nan _ l slot Hslot); [reflexivity|].
    rewrite (to_Float32Array_nan _ _ HG). reflexivity.
  - left. unfold effectiveInverseMass, G_Minv_Gt_sum.
    rewrite (slot_sum_nan _ l slot Hslot); [reflexivity|].
    rewrite (is_nan_eq _ HM), fmul_nan_r. reflexivity.
  - right. unfold biasTerm, Gq_sum.
    rewrite (slot_sum_nan _ l slot Hslot); [|rewrite (is_nan_eq _ Hq); apply fmul_nan_r].
    rewrite fmul_nan_r. reflexivity.
  - right. unfold biasTerm, GW_sum.
    rewrite (slot_sum_nan _ l slot Hslot); [|rewrite (is_nan_eq _ Hqd); apply fmul_nan_r].
    rewrite fmul_nan_r, fsub_nan_r. reflexivity.
  - right. unfold biasTerm, GMinvf_sum.
    rewrite (slot_sum_nan _ l slot Hslot); [|rewrite (is_nan_eq _ HF); apply fmul_nan_r].
    rewrite fmul_nan_r, fsub_nan_r. reflexivity.
Qed.

Lemma nan_increment (sk : Solver) (G32 : list float) (w : Scratch) (l : nat)
    (bi bj : option Z) :
  l < length (lambda w) -> l < length (dlambda w) ->
  (f32_get (c w) l
   * (f32_get (B w) l - Gulambda sk G32 l bi bj - eps sk * f32_get (lambda w) l))%js
  = nan ->
  let w' := clamp_upper sk (clamp_lower sk (update_lambda sk G32 w l bi bj) l) l in
  f32_get (dlambda w') l = nan /\ f32_get (lambda w') l = nan.
Proof.
  intros Hl1 Hl2 Hinc.
  assert (Hw2 : f32_get (dlambda (update_lambda sk G32 w l bi bj)) l = nan /\
                f32_get (lambda (update_lambda sk G32 w l bi bj)) l = nan).
  { unfold update_lambda. cbv zeta. cbn [lambda dlambda set_lambda set_dlambda].
    rewrite !f32_get_set_eq by (rewrite ?length_f32_set; lia).
    rewrite Hinc. cbn [fround]. rewrite fadd_nan_r. split; reflexivity. }
  remember (update_lambda sk G32 w l bi bj) as w2 eqn:Ew2.
  clear Ew2. destruct Hw2 as [Hd2 Hlam2].
  assert (Hlo : clamp_lower sk w2 l = w2).
  { unfold clamp_lower, lower_fires. rewrite Hlam2.
    destruct (flag_get (haslower sk) l); reflexivity. }
  assert (Hup : clamp_upper sk w2 l = w2).
  { unfold clamp_upper, upper_fires. rewrite Hlam2, flt_nan_r, andb_false_r. reflexivity. }
  cbv zeta. rewrite Hlo, Hup. split; assumption.
Qed.

Lemma poisoned_own_body (s : Solver) (sweeps l : nat) :
  l < n s -> poisoned s l ->
  f32_get (dlambda (snd (state_after s sweeps l))) l = nan /\
  f32_get (lambda (snd (state_after s sweeps l))) l = nan.
Proof.
  intros Hl Hp.
  pose proof (cache_inv_state_at s sweeps l (Nat.lt_le_incl _ _ Hl)) as Hinv.
  assert (Hsw : state_at s sweeps l = (fst (state_at s sweeps l), snd (state_at s sweeps l)))
    by (destruct (state_at s sweeps l); reflexivity).
  rewrite Hsw in Hinv.
  destruct (cache_inv_precompute s sweeps l _ _ Hl Hinv) as [(Hf & Hs1 & Hd1 & Hc1) _].
  cbn [fst snd] in Hf, Hs1, Hd1, Hc1.
  assert (Hdone1 : precomp_done
            (precomp (precompute (fst (state_at s sweeps l)) (to_Float32Array (G s))
                        (snd (state_at s sweeps l)) l)) l = true).
  { rewrite (Hd1 l Hl). destruct (Nat.ltb_spec l (S l)); [|lia]. apply orb_true_r. }
  destruct (Hc1 l Hdone1) as [HcE HbE].
  destruct Hs1 as (Hlen1 & Hlen2 & _).
  rewrite state_after_unfold. cbn [snd]. unfold clamped, unclamped.
  apply nan_increment; [lia | lia |].
  rewrite HcE, HbE.
  destruct (poisoned_constants s l Hp) as [-> | ->]; [reflexivity|].
  cbn [fsub SFsub]. apply fmul_nan_r.
Qed.

(** What the inner-loop body of constraint [l] establishes in every sweep
    and the bodies of the other constraints keep holds from the end of the
    first body of [l] on. *)
Lemma after_own_body (s : Solver) (l : nat) (Q : Solver * Scratch -> Prop) :
  l < n s ->
  (forall sweeps, Q (state_after s sweeps l)) ->
  (forall sweeps l', l' < n s -> l' <> l ->
     Q (state_at s sweeps l') -> Q (state_after s sweeps l')) ->
  forall sweeps l0, l0 <= n s -> 0 < sweeps \/ l < l0 -> Q (state_at s sweeps l0).
Proof.
  intros Hl Hown Hother.
  assert (Hrow : forall sweeps l0, l0 <= n s ->
            l < l0 \/ Q (state_at s sweeps 0) -> Q (state_at s sweeps l0)).
  { intros sweeps l0. induction l0 as [|l0 IH]; intros Hl0 Hfrom.
    - destruct Hfrom as [Hlt | Hin]; [lia | exact Hin].
    - rewrite state_at_S. destruct (Nat.eq_dec l0 l) as [-> | Hne].
      + apply Hown.
      + apply Hother; [lia | exact Hne |]. apply IH; [lia|].
        destruct Hfrom as [Hlt | Hin]; [left; lia | right; exact Hin]. }
  intros sweeps l0 Hl0 Hfrom. apply Hrow; [exact Hl0|].
  destruct sweeps as [|sweeps]; [left; lia|].
  right. rewrite state_at_next_sweep. apply Hrow; [lia | left; exact Hl].
Qed.

Lemma body_add_keeps_nan (arr : list float) (bo : option Z) (t : float) (zn : nat) :
  arr !! zn = Some nan -> body_add arr bo t !! zn = Some nan.
Proof.
  intros Hnan. unfold body_add, body_set. destruct bo as [z|]; [|exact Hnan].
  destruct (Z.leb_spec 0 z); [|exact Hnan]. unfold f32_set.
  destruct (Nat.eq_dec (Z.to_nat z) zn) as [Heq | Hne].
  - subst zn. rewrite list_lookup_insert_eq by (apply lookup_lt_is_Some; eauto).
    unfold body_get. destruct (Z.leb_spec 0 z); [|lia].
    unfold f32_get. rewrite Hnan. reflexivity.
  - rewrite list_lookup_insert_ne by exact Hne. exact Hnan.
Qed.

Lemma body_add_sets_nan (arr : list float) (z : Z) :
  (0 <= z)%Z -> Z.to_nat z < length arr ->
  body_add arr (Some z) nan !! Z.to_nat z = Some nan.
Proof.
  intros Hz Hlen. unfold body_add, body_set.
  destruct (Z.leb_spec 0 z); [|lia]. unfold f32_set.
  rewrite list_lookup_insert_eq by exact Hlen. rewrite fadd_nan_r. reflexivity.
Qed.

Lemma length_body_add (arr : list float) (bo : option Z) (t : float) :
  length (body_add arr bo t) = length arr.
Proof.
  unfold body_add, body_set. destruct bo as [z|]; [|reflexivity].
  destruct (0 <=? z)%Z; [|reflexivity]. apply length_insert.
Qed.

Lemma body_add_twice_sets_nan (arr : list float) (bi bj : option Z) (z : Z) :
  bi = Some z \/ bj = Some z ->
  (0 <= z)%Z -> Z.to_nat z < length arr ->
  body_add (body_add arr bi nan) bj nan !! Z.to_nat z = Some nan.
Proof.
  intros [-> | ->] Hz Hlen.
  - apply body_add_keeps_nan, body_add_sets_nan; assumption.
  - apply body_add_sets_nan; [exact Hz|]. rewrite length_body_add. exact Hlen.
Qed.

Lemma nan_times (v w : float) : (nan * v * w)%js = nan.
Proof. reflexivity. Qed.

Lemma propagate_keeps_nan (sk : Solver) (G32 : list float) (w : Scratch) (l : nat)
    (bi bj : option Z) (zn : nat) :
  Forall (fun arr => arr !! zn = Some nan) (deltas sk) ->
  Forall (fun arr => arr !! zn = Some nan) (deltas (propagate sk G32 w l bi bj)).
Proof.
  destruct_solver sk. unfold deltas. solve_red. intros Hall.
  repeat (apply Forall_cons_1 in Hall as [? Hall]).
  repeat (apply Forall_cons_2 || apply Forall_nil_2);
    do 2 apply body_add_keeps_nan; assumption.
Qed.

Lemma propagate_sets_nan (sk : Solver) (G32 : list float) (w : Scratch) (l : nat)
    (bi bj : option Z) (z : Z) :
  f32_get (dlambda w) l = nan ->
  bi = Some z \/ bj = Some z -> (0 <= z)%Z ->
  Forall (fun arr => Z.to_nat z < length arr) (deltas sk) ->
  Forall (fun arr => arr !! Z.to_nat z = Some nan)
    (deltas (propagate sk G32 w l bi bj)).
Proof.
  intros Hdl Hb Hz. destruct_solver sk. unfold deltas. solve_red. intros Hall.
  rewrite Hdl, !nan_times.
  repeat (apply Forall_cons_1 in Hall as [? Hall]).
  repeat (apply Forall_cons_2 || apply Forall_nil_2);
    apply body_add_twice_sets_nan; assumption.
Qed.

Lemma propagate_lengths (sk : Solver) (G32 : list float) (w : Scratch) (l : nat)
    (bi bj : option Z) :
  map length (deltas (propagate sk G32 w l bi bj)) = map length (deltas sk).
Proof.
  destruct_solver sk. unfold deltas. solve_red. cbn [map].
  rewrite !length_body_add. reflexivity.
Qed.

Lemma state_at_lengths (s : Solver) (sweeps l : nat) :
  l <= n s -> map length (deltas (fst (state_at s sweeps l))) = map length (deltas s).
Proof.
  apply (solve_loop_ind s (fun _ _ sw =>
           map length (deltas (fst sw)) = map length (deltas s))).
  - destruct_solver s. reflexivity.
  - intros _ l0 [sk w] _ IH. unfold inner_body. cbn [fst] in *.
    rewrite propagate_lengths. exact IH.
  - intros _ sw IH. exact IH.
Qed.

Lemma lengths_above (zn : nat) (ds ds' : list (list float)) :
  map length ds' = map length ds ->
  Forall (fun arr => zn < length arr) ds ->
  Forall (fun arr => zn < length arr) ds'.
Proof.
  revert ds'. induction ds as [|arr ds IH]; intros [|arr' ds'] Heq Hall;
    try discriminate; [constructor|].
  cbn [map] in Heq. injection Heq as Hlen Heq.
  apply Forall_cons_1 in Hall as [Harr Hall].
  apply Forall_cons_2; [lia | apply IH; assumption].
Qed.

(** X18. One cell that is not a number spoils the constraint and its
    bodies.  If any of the sixty cells stored for constraint [l] is NaN,
    [undefined] (a row passed too short) or a string that denotes no
    number, then after a [solve] of at least one sweep [lambda[l]] is NaN,
    and so are all six velocity deltas of each body that the constraint
    names and the delta arrays have a cell for. *)
Theorem nan_cell_poisons (s : Solver) (l : nat) :
  l < n s -> poisoned s l -> (0 < iterations s)%Z ->
  f32_get (lambda (snd (solve_run s))) l = nan /\
  forall z : Z,
    names_body s l z -> (0 <= z)%Z ->
    Forall (fun arr => Z.to_nat z < length arr) (deltas s) ->
    Forall (fun arr => arr !! Z.to_nat z = Some nan) (deltas (solve s)).
Proof.
  intros Hl Hp Hit. split.
  - rewrite solve_run_state_at.
    apply (after_own_body s l
             (fun sw => f32_get (lambda (snd sw)) l = nan) Hl); [| |lia|lia].
    + intros sweeps. apply (poisoned_own_body s sweeps l Hl Hp).
    + intros sweeps l' _ Hne Hq. rewrite lambda_other_body by exact Hne. exact Hq.
  - intros z Hname Hz Hlen. unfold solve. rewrite solve_run_state_at.
    apply (after_own_body s l
             (fun sw => Forall (fun arr => arr !! Z.to_nat z = Some nan)
                          (deltas (fst sw))) Hl); [| |lia|lia].
    + intros sweeps. rewrite state_after_unfold. cbn [fst].
      assert (Hf : frozen s (fst (state_at s sweeps l)))
        by (apply state_at_frozen; lia).
      destruct (frozen_fields s _ Hf)
        as (_ & _ & _ & _ & _ & _ & _ & _ & _ & Hi & Hj & _).
      apply propagate_sets_nan; [| |exact Hz|].
      * pose proof (poisoned_own_body s sweeps l Hl Hp) as [Hdl _].
        rewrite state_after_unfold in Hdl. exact Hdl.
      * rewrite Hi, Hj. cbn [elements]. rewrite list_lookup_fmap. exact Hname.
      * apply (lengths_above _ (deltas s)); [|exact Hlen].
        apply state_at_lengths. lia.
    + intros sweeps l' _ _ Hq. rewrite state_after_unfold. cbn [fst].
      apply propagate_keeps_nan. exact Hq.
Qed.
End Poison.

Lemma nan_cell_poisons_witness :
  f32_get (lambda (snd (@solve_run sample_host forceless_sample))) 0 = nan /\
  Forall (fun arr => arr !! 1 = Some nan) (deltas (@solve sample_host forceless_sample)).
Proof.
  destruct (@nan_cell_poisons sample_host forceless_sample 0) as [Hlam Hd].
  - vm_compute. lia.
  - exists 0. split; [lia|]. right. right. right. right. vm_compute. reflexivity.
  - vm_compute. reflexivity.
  - split; [exact Hlam|].
    apply (Hd 1%Z); [right; reflexivity | lia |].
    vm_compute. repeat constructor.
Defined.
